(** * vplc_collector: the CRB metrics collector of the S7-1500V visualizer

    A shallow embedding of [src/vplc_collector/main.go] and the proofs of
    its specified properties.

    Conventions of the embedding.
    - Go's [float64] is modelled by the canonical rationals [Qc]: every
      number denotes exactly its value, so rounding, infinities and NaN are
      outside the model.  Canonical rationals have Leibniz equality, which
      is what map keys and "left unchanged" statements need.
    - Go maps are [gmap]s; a lookup of a missing key of a
      [map[string]float64] yields Go's zero value, written [m !!! k].
    - A Go [(float64, bool)] result is an [option float64].
    - The package-level variables (the Prometheus vectors and the
      [previous...] maps) form the record [registry], threaded through the
      update functions. *)

From Stdlib Require Import Ascii String QArith Qcanon Lqa DecimalString.
From Stdlib Require DecimalPos DecimalN.
From stdpp Require Import gmap strings list fin_maps numbers sorting.

Set Warnings "-register-all".
Local Open Scope Qc_scope.

Abbreviation float64 := Qc.

(** Go's zero value of [float64], returned by a map lookup of a missing key. *)
Global Instance float64_inhabited : Inhabited float64 := populate 0.

(** ** strconv and strings: the library functions the collector calls *)

Definition isDigit (c : ascii) : bool :=
  let n := N_of_ascii c in ((48 <=? n) && (n <=? 57))%N.

Definition digitVal (c : ascii) : Z := (Z.of_N (N_of_ascii c) - 48)%Z.

(** The longest prefix of decimal digits, and what follows it. *)
Fixpoint spanDigits (s : string) : string * string :=
  match s with
  | EmptyString => (EmptyString, EmptyString)
  | String c s' =>
      if isDigit c
      then let '(ds, r) := spanDigits s' in (String c ds, r)
      else (EmptyString, s)
  end.

Fixpoint digitsValue (acc : Z) (s : string) : Z :=
  match s with
  | EmptyString => acc
  | String c s' => digitsValue (10 * acc + digitVal c)%Z s'
  end.

Definition isEmpty (s : string) : bool :=
  match s with EmptyString => true | _ => false end.

(** [strconv.ParseFloat(s, 64)] on plain decimal literals [digits] and
    [digits.digits], the only shapes the capture group of the bucket
    pattern can hold.  The value is exact; every other string is an error
    in this fragment. *)
Definition ParseFloat (s : string) : option float64 :=
  let '(ds, r) := spanDigits s in
  if isEmpty ds then None
  else match r with
       | EmptyString => Some (Q2Qc (inject_Z (digitsValue 0 ds)))
       | String c r1 =>
           let '(fs, r2) := spanDigits r1 in
           if negb (Ascii.eqb c ".") || isEmpty fs || negb (isEmpty r2)
           then None
           else Some (Q2Qc (digitsValue 0 (ds +:+ fs)
                            # Z.to_pos (10 ^ Z.of_nat (String.length fs))%Z))
       end.

(** The least [k], searched from [k] upwards with [fuel] more tries, such
    that [d] divides [10^k]. *)
Fixpoint decimalScale (fuel : nat) (d : Z) (k : nat) : option nat :=
  if ((10 ^ Z.of_nat k) mod d =? 0)%Z then Some k
  else match fuel with
       | O => None
       | S fuel' => decimalScale fuel' d (S k)
       end.

Definition showN (n : Z) : string := NilZero.string_of_uint (N.to_uint (Z.to_N n)).

(** The character of a decimal digit. *)
Definition digitChar (z : Z) : ascii := ascii_of_N (Z.to_N (48 + z)).

(** The [k] fraction digits of [fp / 10^k]. *)
Fixpoint showFrac (k : nat) (fp : Z) : string :=
  match k with
  | O => EmptyString
  | S k' =>
      String (digitChar (fp / 10 ^ Z.of_nat k')%Z)
        (showFrac k' (fp mod 10 ^ Z.of_nat k')%Z)
  end.

(** The decimal expansion of [a / d] for [0 <= a] and [0 < d], without
    trailing zeros.  A rational with no finite expansion is no [float64];
    it is printed as a fraction to keep the function total. *)
Definition formatAbs (a d : Z) : string :=
  match decimalScale (Z.to_nat (Z.log2 d)) d 0 with
  | Some k =>
      let m := (a * 10 ^ Z.of_nat k / d)%Z in
      let ip := (m / 10 ^ Z.of_nat k)%Z in
      let fp := (m mod 10 ^ Z.of_nat k)%Z in
      showN ip +:+
        (match k with O => EmptyString | S _ => String "." (showFrac k fp) end)
  | None => showN a +:+ String "/" (showN d)
  end.

(** [strconv.FormatFloat(x, 'f', -1, 64)]: the shortest decimal that reads
    back as [x], without exponent.  On exact values this is the decimal
    expansion of [x] without trailing zeros. *)
Definition FormatFloat (x : float64) : string :=
  let n := Qnum (this x) in
  (if (n <? 0)%Z then "-" else EmptyString)
    +:+ formatAbs (Z.abs n) (Zpos (Qden (this x))).

(** [strings.Split(s, "/")]: the fields between the slashes; never empty. *)
Fixpoint Split (s : string) : list string :=
  match s with
  | EmptyString => [EmptyString]
  | String c s' =>
      if Ascii.eqb c "/"%char then EmptyString :: Split s'
      else match Split s' with
           | h :: t => String c h :: t
           | [] => [String c EmptyString]
           end
  end.

(** [strings.HasSuffix]. *)
Fixpoint HasSuffix (s suffix : string) : bool :=
  String.eqb s suffix ||
  match s with
  | EmptyString => false
  | String _ s' => HasSuffix s' suffix
  end.

(** Whether the character occurs in the string. *)
Fixpoint occurs (c : ascii) (s : string) : bool :=
  match s with
  | EmptyString => false
  | String x s' => Ascii.eqb x c || occurs c s'
  end.

(** ** The bucket-label codec *)

(** Strings of one or more decimal digits, and the numeric tokens
    [\d+(\.\d+)?] built from them. *)
Inductive Digits : string → Prop :=
  | Digits_one c : isDigit c = true → Digits (String c "")
  | Digits_cons c ds : isDigit c = true → Digits ds → Digits (String c ds).

Inductive Token : string → Prop :=
  | Token_int ds : Digits ds → Token ds
  | Token_frac ds fs : Digits ds → Digits fs → Token (ds +:+ "." +:+ fs).

Definition startsWithDigit (s : string) : bool :=
  match s with
  | EmptyString => false
  | String c _ => isDigit c
  end.

(** The text after the token: the unit, with or without the plus sign. *)
Definition unitSuffix (plus : bool) : string := if plus then "+ms" else "ms".

(** The pattern, anchored at both ends, matches [s] with capture group 1
    equal to [tok]; [plus] tells whether group 3 took part. *)
Definition Matches (s tok : string) (plus : bool) : Prop :=
  Token tok ∧ s = tok +:+ unitSuffix plus.

(** One attempt of the pattern [(\d+(\.\d+)?)(\+)?ms$] at the start of [s].
    The result is capture group 1 and whether group 3 took part.  Each
    repetition is greedy, and giving back a digit or the fraction can never
    help: the character that would have to continue the match is then a
    digit or the dot, which neither [(\+)?] nor [ms] accepts.  So the
    attempt is deterministic. *)
Definition matchHere (s : string) : option (string * bool) :=
  let '(ds, r) := spanDigits s in
  if isEmpty ds then None
  else
    let '(tok, r') :=
      match r with
      | String c r1 =>
          let '(fs, r2) := spanDigits r1 in
          if Ascii.eqb c "." && negb (isEmpty fs)
          then (ds +:+ "." +:+ fs, r2)
          else (ds, r)
      | EmptyString => (ds, r)
      end in
    if String.eqb r' "ms" then Some (tok, false)
    else if String.eqb r' "+ms" then Some (tok, true)
    else None.

(** [re.FindStringSubmatch]: the leftmost position at which the pattern
    matches; [None] is Go's nil slice. *)
Fixpoint FindStringSubmatch (s : string) : option (string * bool) :=
  match matchHere s with
  | Some r => Some r
  | None =>
      match s with
      | EmptyString => None
      | String _ s' => FindStringSubmatch s'
      end
  end.

(** The value that stands for an open-ended bucket, [1e9]. *)
Definition sentinel : float64 := Q2Qc (inject_Z 1000000000).

Definition parseBucketUpperBoundMs (bucket : string) : float64 :=
  match FindStringSubmatch bucket with
  | Some (m1, plus) =>
      let val := default 0 (ParseFloat m1) in
      if plus then sentinel else val
  | None => 0
  end.

(** ** Decoded documents *)

(** The dynamic values an [interface{}] holds after decoding, and the
    integer and [json.Number] representations [getNestedValue] also
    accepts.  [Object] is [map[string]interface{}]. *)
Inductive value :=
  | Nil
  | Bool (b : bool)
  | Float64 (f : float64)
  | Int (n : Z)
  | Int64 (n : Z)
  | Number (s : string)
  | Str (s : string)
  | Slice (l : list value)
  | Object (m : gmap string value).

(** [json.Number.Float64]: the text of the number read by the full
    [strconv.ParseFloat]; [None] is its error.  The collector's proofs hold
    for whatever that function accepts. *)
Class JSONNumber := number_Float64 : string → option float64.

(** An instance to evaluate with: the plain decimal literals. *)
Definition plainDecimal : JSONNumber := ParseFloat.

(** The type switch at the last path segment. *)
Definition toFloat64 `{JSONNumber} (v : value) : option float64 :=
  match v with
  | Float64 f => Some f
  | Int n => Some (Qc_of_Z n)
  | Int64 n => Some (Qc_of_Z n)
  | Number s => number_Float64 s
  | _ => None
  end.

(** The loop of [getNestedValue] over the path segments; falling out of
    the loop is the final [return 0, false]. *)
Fixpoint getNestedValue_loop `{JSONNumber}
    (parts : list string) (current : value) : option float64 :=
  match parts with
  | [] => None
  | part :: rest =>
      match current with
      | Object m =>
          match m !! part with
          | None => None
          | Some v =>
              match rest with
              | [] => toFloat64 v
              | _ :: _ => getNestedValue_loop rest v
              end
          end
      | _ => None
      end
  end.

Definition getNestedValue `{JSONNumber}
    (data : gmap string value) (path : string) : option float64 :=
  getNestedValue_loop (Split path) (Object data).

(** Following a list of segments down the nested maps, as the contract of
    the extraction words it: each segment must be present in the map the
    walk is at; the value under the last one is the terminal value. *)
Fixpoint descend (parts : list string) (current : value) : option value :=
  match parts with
  | [] => Some current
  | part :: rest =>
      match current with
      | Object m => m !! part ≫= descend rest
      | _ => None
      end
  end.

(** The integer and floating-point representations. *)
Definition numeric (v : value) : Prop :=
  match v with
  | Float64 _ | Int _ | Int64 _ | Number _ => True
  | _ => False
  end.

(** ** Metric descriptors *)

Inductive metricType := counter | gauge.

Record metricDesc := {
  JSONName : string;
  PromName : string;
  Help : string;
  Typ : metricType
}.

Definition crbMetricDescs : list metricDesc := [
  {| JSONName := "writeSuccesses"; PromName := "crb_successful_cycle_count";
     Help := "Total number of successful cycles"; Typ := counter |};
  {| JSONName := "writeAttempts"; PromName := "crb_total_cycle_count";
     Help := "Total number of cycles"; Typ := counter |};
  {| JSONName := "cycleDelay/totalNs"; PromName := "crb_sum_cycle_extension_duration";
     Help := "Sum of cycle extension durations"; Typ := counter |};
  {| JSONName := "cycleDelay/minNs"; PromName := "crb_min_cycle_extension_duration";
     Help := "Minimum cycle extension duration"; Typ := gauge |};
  {| JSONName := "cycleDelay/maxNs"; PromName := "crb_max_cycle_extension_duration";
     Help := "Maximum cycle extension duration"; Typ := gauge |};
  {| JSONName := "writeDuration/minNs"; PromName := "crb_min_write_duration";
     Help := "Minimum write duration"; Typ := gauge |};
  {| JSONName := "writeDuration/maxNs"; PromName := "crb_max_write_duration";
     Help := "Maximum write duration"; Typ := gauge |};
  {| JSONName := "writeDuration/totalNs"; PromName := "crb_sum_write_duration";
     Help := "Sum of write durations"; Typ := counter |}
].

(** ** The registry: exported vectors and the previous-value maps *)

(** A Prometheus vector is the map from its label values to the value of
    the child series.  [crbMetrics] and [crbGauges] are keyed by
    [(PromName, vplc_instance)]: [initCRBMetrics] registers one vector per
    descriptor, so the vector of a descriptor always exists.  The bucket
    vectors are keyed by [(vplc_instance, le)]. *)
Record registry := {
  crbMetrics : gmap (string * string) float64;
  crbGauges : gmap (string * string) float64;
  writeDurationBuckets : gmap (string * string) float64;
  cycleExtensionBuckets : gmap (string * string) float64;
  previousCounterValues : gmap string (gmap string float64);
  prevWriteBuckets : gmap string float64;
  prevCycleBuckets : gmap string float64
}.

(** The state after [init]: vectors without children, empty maps. *)
Definition initRegistry : registry :=
  {| crbMetrics := ∅; crbGauges := ∅;
     writeDurationBuckets := ∅; cycleExtensionBuckets := ∅;
     previousCounterValues := ∅; prevWriteBuckets := ∅; prevCycleBuckets := ∅ |}.

Definition set_crbMetrics (v : gmap (string * string) float64) (r : registry) :=
  {| crbMetrics := v; crbGauges := crbGauges r;
     writeDurationBuckets := writeDurationBuckets r;
     cycleExtensionBuckets := cycleExtensionBuckets r;
     previousCounterValues := previousCounterValues r;
     prevWriteBuckets := prevWriteBuckets r;
     prevCycleBuckets := prevCycleBuckets r |}.

Definition set_crbGauges (v : gmap (string * string) float64) (r : registry) :=
  {| crbMetrics := crbMetrics r; crbGauges := v;
     writeDurationBuckets := writeDurationBuckets r;
     cycleExtensionBuckets := cycleExtensionBuckets r;
     previousCounterValues := previousCounterValues r;
     prevWriteBuckets := prevWriteBuckets r;
     prevCycleBuckets := prevCycleBuckets r |}.

Definition set_writeDurationBuckets (v : gmap (string * string) float64) (r : registry) :=
  {| crbMetrics := crbMetrics r; crbGauges := crbGauges r;
     writeDurationBuckets := v;
     cycleExtensionBuckets := cycleExtensionBuckets r;
     previousCounterValues := previousCounterValues r;
     prevWriteBuckets := prevWriteBuckets r;
     prevCycleBuckets := prevCycleBuckets r |}.

Definition set_cycleExtensionBuckets (v : gmap (string * string) float64) (r : registry) :=
  {| crbMetrics := crbMetrics r; crbGauges := crbGauges r;
     writeDurationBuckets := writeDurationBuckets r;
     cycleExtensionBuckets := v;
     previousCounterValues := previousCounterValues r;
     prevWriteBuckets := prevWriteBuckets r;
     prevCycleBuckets := prevCycleBuckets r |}.

Definition set_previousCounterValues (v : gmap string (gmap string float64)) (r : registry) :=
  {| crbMetrics := crbMetrics r; crbGauges := crbGauges r;
     writeDurationBuckets := writeDurationBuckets r;
     cycleExtensionBuckets := cycleExtensionBuckets r;
     previousCounterValues := v;
     prevWriteBuckets := prevWriteBuckets r;
     prevCycleBuckets := prevCycleBuckets r |}.

Definition set_prevWriteBuckets (v : gmap string float64) (r : registry) :=
  {| crbMetrics := crbMetrics r; crbGauges := crbGauges r;
     writeDurationBuckets := writeDurationBuckets r;
     cycleExtensionBuckets := cycleExtensionBuckets r;
     previousCounterValues := previousCounterValues r;
     prevWriteBuckets := v;
     prevCycleBuckets := prevCycleBuckets r |}.

Definition set_prevCycleBuckets (v : gmap string float64) (r : registry) :=
  {| crbMetrics := crbMetrics r; crbGauges := crbGauges r;
     writeDurationBuckets := writeDurationBuckets r;
     cycleExtensionBuckets := cycleExtensionBuckets r;
     previousCounterValues := previousCounterValues r;
     prevWriteBuckets := prevWriteBuckets r;
     prevCycleBuckets := v |}.

(** [vec.WithLabelValues(lvs)]: the child series, created at 0 when the
    labels are new. *)
Definition WithLabelValues (lvs : string * string)
    (vec : gmap (string * string) float64) : gmap (string * string) float64 :=
  match vec !! lvs with
  | Some _ => vec
  | None => <[lvs := 0]> vec
  end.

(** [vec.WithLabelValues(lvs).Add(delta)], called with [delta > 0] only. *)
Definition Add (lvs : string * string) (delta : float64)
    (vec : gmap (string * string) float64) : gmap (string * string) float64 :=
  <[lvs := vec !!! lvs + delta]> (WithLabelValues lvs vec).

(** [vec.WithLabelValues(lvs).Set(v)]. *)
Definition SetGauge (lvs : string * string) (v : float64)
    (vec : gmap (string * string) float64) : gmap (string * string) float64 :=
  <[lvs := v]> vec.

(** The value a scrape shows for a series; a series that was never
    created is not shown, and counts as 0 where values are compared. *)
Definition exported (vec : gmap (string * string) float64)
    (lvs : string * string) : float64 := vec !!! lvs.

(** ** updateCRBMetrics *)

(** The body of the loop over the descriptors. *)
Definition updateDesc `{JSONNumber} (performanceData : gmap string value)
    (vplc_instance : string) (r : registry) (desc : metricDesc) : registry :=
  match getNestedValue performanceData (JSONName desc) with
  | Some v =>
      match Typ desc with
      | counter =>
          let pcv :=
            match previousCounterValues r !! PromName desc with
            | Some _ => previousCounterValues r
            | None => <[PromName desc := ∅]> (previousCounterValues r)
            end in
          let prevValue := (pcv !!! PromName desc) !!! vplc_instance in
          let delta := v - prevValue in
          let r1 :=
            if decide (0 < delta)
            then set_crbMetrics
                   (Add (PromName desc, vplc_instance) delta (crbMetrics r)) r
            else r in
          set_previousCounterValues
            (<[PromName desc := <[vplc_instance := v]> (pcv !!! PromName desc)]> pcv)
            r1
      | gauge =>
          set_crbGauges
            (SetGauge (PromName desc, vplc_instance) v (crbGauges r)) r
      end
  | None => r
  end.

Definition updateCRBMetrics `{JSONNumber} (data : gmap string value)
    (vplc_instance : string) (r : registry) : registry :=
  match data !! "performanceMetrics" with
  | Some (Object performanceData) =>
      foldl (updateDesc performanceData vplc_instance) r crbMetricDescs
  | _ => r
  end.

(** The raw reading a document delivers for a descriptor, if any. *)
Definition reading `{JSONNumber} (desc : metricDesc)
    (data : gmap string value) : option float64 :=
  match data !! "performanceMetrics" with
  | Some (Object performanceData) => getNestedValue performanceData (JSONName desc)
  | _ => None
  end.

(** The stored baseline of a key, as the update reads it: Go's zero value
    when the key was never stored. *)
Definition lastRaw (r : registry) (name vplc_instance : string) : float64 :=
  (previousCounterValues r !!! name) !!! vplc_instance.

(** [max(0, v - prev)]. *)
Definition increment (prev v : float64) : float64 :=
  if decide (0 < v - prev) then v - prev else 0.

(** The sum of the increments of a sequence of readings that follows the
    baseline [prev]. *)
Fixpoint sumIncrements (prev : float64) (rs : list float64) : float64 :=
  match rs with
  | [] => 0
  | v :: rs' => increment prev v + sumIncrements v rs'
  end.

(** The scalar documents of an instance, processed one after the other. *)
Definition updateAll `{JSONNumber} (vplc_instance : string)
    (docs : list (gmap string value)) (r : registry) : registry :=
  foldl (λ r doc, updateCRBMetrics doc vplc_instance r) r docs.

(** A key that was never written: no baseline and no series. *)
Definition fresh (r : registry) (name vplc_instance : string) : Prop :=
  (previousCounterValues r !!! name) !! vplc_instance = None ∧
  crbMetrics r !! (name, vplc_instance) = None.

(** The descriptor of [writeSuccesses] and a scalar document that reports
    only it, used in the examples. *)
Definition writeSuccessesDesc : metricDesc :=
  {| JSONName := "writeSuccesses"; PromName := "crb_successful_cycle_count";
     Help := "Total number of successful cycles"; Typ := counter |}.

Definition statsDoc (n : Z) : gmap string value :=
  {[ "performanceMetrics" := Object {[ "writeSuccesses" := Float64 (Qc_of_Z n) ]} ]}.

(** ** updateHistograms *)

Record Histogram := {
  Timestamp : Z;
  CycleExtensionDurationHistogram : gmap string float64;
  WriteDurationHistogram : gmap string float64
}.

Definition getPreviousBucketValue (kind key : string) (r : registry) : float64 :=
  if String.eqb kind "write" then prevWriteBuckets r !!! key
  else if String.eqb kind "cycle" then prevCycleBuckets r !!! key
  else 0.

Definition setPreviousBucketValue (kind key : string) (val : float64)
    (r : registry) : registry :=
  if String.eqb kind "write"
  then set_prevWriteBuckets (<[key := val]> (prevWriteBuckets r)) r
  else if String.eqb kind "cycle"
  then set_prevCycleBuckets (<[key := val]> (prevCycleBuckets r)) r
  else r.

(** The two loops of [updateHistograms] are the same text over a different
    vector and kind name. *)
Inductive histKind := write | cycle.

Definition kindName (k : histKind) : string :=
  match k with write => "write" | cycle => "cycle" end.

Definition bucketVec (k : histKind) (r : registry) : gmap (string * string) float64 :=
  match k with
  | write => writeDurationBuckets r
  | cycle => cycleExtensionBuckets r
  end.

Definition set_bucketVec (k : histKind) (v : gmap (string * string) float64)
    (r : registry) : registry :=
  match k with
  | write => set_writeDurationBuckets v r
  | cycle => set_cycleExtensionBuckets v r
  end.

Definition histOf (k : histKind) (hist : Histogram) : gmap string float64 :=
  match k with
  | write => WriteDurationHistogram hist
  | cycle => CycleExtensionDurationHistogram hist
  end.

(** The [le] label of a bucket and the key of its previous value. *)
Definition leOf (k : string) : string := FormatFloat (parseBucketUpperBoundMs k).

Definition bucketKey (vplc_instance le : string) : string :=
  vplc_instance +:+ "|" +:+ le.

(** The statements of a bucket loop after [cumulative] is advanced: the
    child series is fetched (and so created), a positive delta against the
    previous value of the key is added, and the previous value is set. *)
Definition applyBucket (kind : histKind) (vplc_instance le : string)
    (cumulative : float64) (r : registry) : registry :=
  let r1 := set_bucketVec kind
              (WithLabelValues (vplc_instance, le) (bucketVec kind r)) r in
  let delta :=
    cumulative - getPreviousBucketValue (kindName kind) (bucketKey vplc_instance le) r1 in
  let r2 :=
    if decide (0 < delta)
    then set_bucketVec kind (Add (vplc_instance, le) delta (bucketVec kind r1)) r1
    else r1 in
  setPreviousBucketValue (kindName kind) (bucketKey vplc_instance le) cumulative r2.

(** One iteration of a bucket loop: the state is the running [cumulative]
    and the registry. *)
Definition bucketStep (kind : histKind) (h : gmap string float64)
    (vplc_instance : string) (acc : float64 * registry) (k : string)
    : float64 * registry :=
  let cumulative := acc.1 + h !!! k in
  (cumulative, applyBucket kind vplc_instance (leOf k) cumulative acc.2).

Definition bucketLoop (kind : histKind) (h : gmap string float64)
    (vplc_instance : string) (sortedKeys : list string) (r : registry) : registry :=
  (foldl (bucketStep kind h vplc_instance) (0, r) sortedKeys).2.

(** The comparison handed to [sort.Slice]. *)
Definition less (a b : string) : Prop :=
  parseBucketUpperBoundMs a < parseBucketUpperBoundMs b.

(** What [range] over a map followed by [sort.Slice] can leave in the
    slice: the keys of the map, in some order in which no later key is
    [less] than an earlier one.  Map iteration order is unspecified and
    [sort.Slice] is not stable, so keys with equal bounds come in any
    order. *)
Definition SortedKeys (h : gmap string float64) (ks : list string) : Prop :=
  ks ≡ₚ (map_to_list h).*1 ∧ StronglySorted (λ a b, ¬ less b a) ks.

(** [updateHistograms], given the two sorted slices. *)
Definition updateHistogramsWith (sortedWriteKeys sortedCycleKeys : list string)
    (hist : Histogram) (vplc_instance : string) (r : registry) : registry :=
  bucketLoop cycle (CycleExtensionDurationHistogram hist) vplc_instance
    sortedCycleKeys
    (bucketLoop write (WriteDurationHistogram hist) vplc_instance
       sortedWriteKeys r).

(** Every result [updateHistograms] can have. *)
Definition updateHistogramsTo (hist : Histogram) (vplc_instance : string)
    (r r' : registry) : Prop :=
  ∃ sortedWriteKeys sortedCycleKeys,
    SortedKeys (WriteDurationHistogram hist) sortedWriteKeys ∧
    SortedKeys (CycleExtensionDurationHistogram hist) sortedCycleKeys ∧
    r' = updateHistogramsWith sortedWriteKeys sortedCycleKeys hist vplc_instance r.

(** One of them, computed with a merge sort of the keys. *)
Definition notAfter (a b : string) : Prop :=
  parseBucketUpperBoundMs a ≤ parseBucketUpperBoundMs b.

Global Instance notAfter_dec : RelDecision notAfter :=
  λ a b, Qc_le_dec (parseBucketUpperBoundMs a) (parseBucketUpperBoundMs b).

Definition sortKeys (h : gmap string float64) : list string :=
  merge_sort notAfter (map_to_list h).*1.

Definition updateHistograms (hist : Histogram) (vplc_instance : string)
    (r : registry) : registry :=
  updateHistogramsWith (sortKeys (WriteDurationHistogram hist))
    (sortKeys (CycleExtensionDurationHistogram hist)) hist vplc_instance r.

(** The cumulative count at each boundary, in slice order: the sequence
    the loop feeds to the delta rule. *)
Fixpoint cumulativeFrom (cumulative : float64) (h : gmap string float64)
    (sortedKeys : list string) : list (float64 * float64) :=
  match sortedKeys with
  | [] => []
  | k :: ks =>
      (parseBucketUpperBoundMs k, cumulative + h !!! k)
        :: cumulativeFrom (cumulative + h !!! k) h ks
  end.

Definition cumulativeSeq (h : gmap string float64) (sortedKeys : list string) :=
  cumulativeFrom 0 h sortedKeys.

(** The delta rule applied to a sequence of boundaries and cumulative
    counts. *)
Definition applyCumulative (kind : histKind) (vplc_instance : string)
    (r : registry) (cs : list (float64 * float64)) : registry :=
  foldl (λ r bc, applyBucket kind vplc_instance (FormatFloat bc.1) bc.2 r) r cs.

(** The sum of the counts of a list of labels. *)
Definition sumCounts (h : gmap string float64) (ks : list string) : float64 :=
  foldr (λ k s, h !!! k + s) 0 ks.


(** A write-duration response with two range buckets. *)
Definition writeResponse (a b : Z) : Histogram :=
  {| Timestamp := 0;
     CycleExtensionDurationHistogram := ∅;
     WriteDurationHistogram := {[ "0-1ms" := Qc_of_Z a; "1-5ms" := Qc_of_Z b ]} |}.

(** The two rationals of a boundary and its count, to compare computed
    sequences by. *)
Definition thisPair (p : float64 * float64) : Q * Q := (this p.1, this p.2).

(** The previous-value map of a histogram kind. *)
Definition prevBuckets (k : histKind) (r : registry) : gmap string float64 :=
  match k with
  | write => prevWriteBuckets r
  | cycle => prevCycleBuckets r
  end.



(** Two registries hold the same series and previous values for a
    histogram kind. *)
Definition sameView (kind : histKind) (r1 r2 : registry) : Prop :=
  bucketVec kind r1 = bucketVec kind r2 ∧
  ∀ key, getPreviousBucketValue (kindName kind) key r1
         = getPreviousBucketValue (kindName kind) key r2.

(** The sorted slice that [updateHistogramsWith] uses for a kind. *)
Definition keysOf (kind : histKind) (wk ck : list string) : list string :=
  match kind with write => wk | cycle => ck end.


(** The cumulative count a sequence holds last for a boundary label. *)
Fixpoint lastCum (le : string) (cs : list (float64 * float64)) : option float64 :=
  match cs with
  | [] => None
  | bc :: cs' =>
      match lastCum le cs' with
      | Some c => Some c
      | None => if decide (FormatFloat bc.1 = le) then Some bc.2 else None
      end
  end.


(** The cumulative count of a response at a bound: the sum of the counts of
    the labels whose upper bound is at most [b]. *)
Definition cumulativeAt (h : gmap string float64) (b : float64) : float64 :=
  sumCounts h (filter (λ k, parseBucketUpperBoundMs k ≤ b) (map_to_list h).*1).

(** ** The fetch cycle of one instance *)

(** The closure variables [token] and [authenticated]. *)
Record session := {
  token : string;
  authenticated : bool
}.

Definition noSession : session := {| token := ""; authenticated := false |}.

(** What a request and the decoding of its body come to: [sendApiRequest]
    returned an error, [json.Unmarshal] returned an error, or a document
    was decoded. *)
Inductive fetched (A : Type) :=
  | RequestFailed
  | Unparsable
  | Decoded (a : A).
Arguments RequestFailed {A}.
Arguments Unparsable {A}.
Arguments Decoded {A} a.

(** The program points of the cycle goroutine at which it waits for the
    device, and the deferred reset of [running]. *)
Inductive pc := AtLogin | AtHistogram | AtStats | AtExit.

Definition needsLogin (s : session) : bool :=
  negb (authenticated s) || String.eqb (token s) "".

(** [token, err = authenticate(...)]: on an error the token is the empty
    string that came back with it, and the cycle returns. *)
Definition afterLogin (res : option string) : session * pc :=
  match res with
  | None => ({| token := ""; authenticated := false |}, AtExit)
  | Some t => ({| token := t; authenticated := true |}, AtHistogram)
  end.

Definition afterHistogram (vplc_instance : string) (res : fetched Histogram)
    (sortedWriteKeys sortedCycleKeys : list string)
    (s : session) (r : registry) : session * registry * pc :=
  match res with
  | RequestFailed => (noSession, r, AtExit)
  | Unparsable => (s, r, AtStats)
  | Decoded hist =>
      (s, updateHistogramsWith sortedWriteKeys sortedCycleKeys hist vplc_instance r,
       AtStats)
  end.

Definition afterStats `{JSONNumber} (vplc_instance : string)
    (res : fetched (gmap string value))
    (s : session) (r : registry) : session * registry * pc :=
  match res with
  | RequestFailed => (noSession, r, AtExit)
  | Unparsable => (s, r, AtExit)
  | Decoded crb => (s, updateCRBMetrics crb vplc_instance r, AtExit)
  end.

(** Everything one cycle gets from outside: the replies of the device and
    the order in which the histogram keys come out of the sort. *)
Record replies := {
  loginReply : option string;
  histogramReply : fetched Histogram;
  sortedWriteKeys : list string;
  sortedCycleKeys : list string;
  statsReply : fetched (gmap string value)
}.

(** The body of the cycle goroutine, run from start to end. *)
Definition cycleBody `{JSONNumber} (vplc_instance : string) (io : replies)
    (s : session) (r : registry) : session * registry :=
  let '(s1, p1) :=
    if needsLogin s then afterLogin (loginReply io) else (s, AtHistogram) in
  match p1 with
  | AtExit => (s1, r)
  | _ =>
      let '(s2, r2, p2) :=
        afterHistogram vplc_instance (histogramReply io)
          (sortedWriteKeys io) (sortedCycleKeys io) s1 r in
      match p2 with
      | AtExit => (s2, r2)
      | _ =>
          let '(s3, r3, _) := afterStats vplc_instance (statsReply io) s2 r2 in
          (s3, r3)
      end
  end.

(** A scalar-metrics reply that cannot be used: the body does not parse,
    or the document has no [performanceMetrics] map. *)
Definition malformed (res : fetched (gmap string value)) : Prop :=
  res = Unparsable ∨
  ∃ crb, res = Decoded crb ∧ ∀ pd, crb !! "performanceMetrics" ≠ Some (Object pd).

(** The login of the cycle succeeds, when one is needed. *)
Definition loginSucceeds (io : replies) (s : session) : Prop :=
  needsLogin s = true → is_Some (loginReply io).

(** The session a cycle works with after its login step. *)
Definition loggedIn (io : replies) (s : session) : session :=
  if needsLogin s then (afterLogin (loginReply io)).1 else s.

(** The registry after the histogram step of a cycle alone. *)
Definition histogramsOnly (vplc_instance : string) (io : replies)
    (r : registry) : registry :=
  match histogramReply io with
  | Decoded hist =>
      updateHistogramsWith (sortedWriteKeys io) (sortedCycleKeys io) hist
        vplc_instance r
  | _ => r
  end.

(** The registry after the scalar step of a cycle alone. *)
Definition scalarsOnly `{JSONNumber} (vplc_instance : string) (io : replies)
    (r : registry) : registry :=
  match statsReply io with
  | Decoded crb => updateCRBMetrics crb vplc_instance r
  | _ => r
  end.

(** Replies of a cycle whose scalar document has no [performanceMetrics],
    and of one whose histogram body does not parse. *)
Definition badStatsReplies : replies :=
  {| loginReply := Some "t0";
     histogramReply := Decoded (writeResponse 10 0);
     sortedWriteKeys := ["0-1ms"; "1-5ms"];
     sortedCycleKeys := [];
     statsReply := Decoded {[ "status" := Str "starting" ]} |}.

Definition badHistogramReplies : replies :=
  {| loginReply := Some "t0";
     histogramReply := Unparsable;
     sortedWriteKeys := [];
     sortedCycleKeys := [];
     statsReply := Decoded (statsDoc 5) |}.

(** ** The collectors as a transition system *)

(** One instance: its name, its session, the [running] flag and the cycle
    goroutines in flight, each at its program point. *)
Record collector := {
  vplc_instance : string;
  sess : session;
  running : Z;
  cycles : list pc
}.

Definition idle (name : string) : collector :=
  {| vplc_instance := name; sess := noSession; running := 0; cycles := [] |}.

(** All instances and the registry they share. *)
Record system := {
  collectors : list collector;
  reg : registry
}.

Definition initSystem (vplcList : list string) : system :=
  {| collectors := idle <$> vplcList; reg := initRegistry |}.

Inductive event :=
  | Tick
  | Proceed (j : nat)
  | Login (j : nat) (res : option string)
  | GetHistogram (j : nat) (res : fetched Histogram)
      (sortedWriteKeys sortedCycleKeys : list string)
  | GetStats (j : nat) (res : fetched (gmap string value))
  | Exit (j : nat).

(** The ticker fires: [CompareAndSwapInt32(&running, 0, 1)], and on
    success a new cycle goroutine. *)
Definition tick (c : collector) : collector :=
  if (running c =? 0)%Z
  then {| vplc_instance := vplc_instance c; sess := sess c;
          running := 1; cycles := cycles c ++ [AtLogin] |}
  else c.

Definition isAt (c : collector) (j : nat) (p : pc) : bool :=
  match cycles c !! j, p with
  | Some AtLogin, AtLogin | Some AtHistogram, AtHistogram
  | Some AtStats, AtStats | Some AtExit, AtExit => true
  | _, _ => false
  end.

Definition moveTo (c : collector) (j : nat) (s : session) (p : pc) : collector :=
  {| vplc_instance := vplc_instance c; sess := s;
     running := running c; cycles := <[j := p]> (cycles c) |}.

(** What an event does to the collector it happens at and to the registry;
    [None] when the collector is not at the point of the event. *)
Definition fire `{JSONNumber} (c : collector) (r : registry) (e : event)
    : option (collector * registry) :=
  match e with
  | Tick => Some (tick c, r)
  | Proceed j =>
      if isAt c j AtLogin && negb (needsLogin (sess c))
      then Some (moveTo c j (sess c) AtHistogram, r)
      else None
  | Login j res =>
      if isAt c j AtLogin && needsLogin (sess c)
      then let '(s, p) := afterLogin res in Some (moveTo c j s p, r)
      else None
  | GetHistogram j res wk ck =>
      if isAt c j AtHistogram
      then let '(s, r', p) :=
             afterHistogram (vplc_instance c) res wk ck (sess c) r in
           Some (moveTo c j s p, r')
      else None
  | GetStats j res =>
      if isAt c j AtStats
      then let '(s, r', p) := afterStats (vplc_instance c) res (sess c) r in
           Some (moveTo c j s p, r')
      else None
  | Exit j =>
      if isAt c j AtExit
      then Some ({| vplc_instance := vplc_instance c; sess := sess c;
                    running := 0; cycles := delete j (cycles c) |}, r)
      else None
  end.

(** The sorted slices an event carries are ones the sort can produce. *)
Definition validEvent (e : event) : Prop :=
  match e with
  | GetHistogram _ (Decoded hist) wk ck =>
      SortedKeys (WriteDurationHistogram hist) wk ∧
      SortedKeys (CycleExtensionDurationHistogram hist) ck
  | _ => True
  end.

(** Collector [i] takes a step. *)
Inductive step `{JSONNumber} : system → nat * event → system → Prop :=
  | step_fire s i e c c' r' :
      collectors s !! i = Some c →
      validEvent e →
      fire c (reg s) e = Some (c', r') →
      step s (i, e) {| collectors := <[i := c']> (collectors s); reg := r' |}.

Inductive reachable `{JSONNumber} (vplcList : list string) : system → Prop :=
  | reachable_init : reachable vplcList (initSystem vplcList)
  | reachable_step s l s' :
      reachable vplcList s → step s l s' → reachable vplcList s'.

(** A collector is either idle, or runs exactly one cycle with the flag
    set. *)
Definition guarded (c : collector) : Prop :=
  (running c = 0%Z ∧ cycles c = []) ∨ (running c = 1%Z ∧ ∃ p, cycles c = [p]).



(** One instance after its first tick: a cycle is in flight. *)
Definition tickedSystem : system :=
  {| collectors := [tick (idle "plc1")]; reg := initRegistry |}.

(** Any number of steps of the system. *)
Inductive run `{JSONNumber} : system → system → Prop :=
  | run_refl s : run s s
  | run_step s l s' s'' : run s s' → step s' l s'' → run s s''.

(** * Further parts of the collector *)

(** ** init: creating and registering the vectors *)

(** The maps [crbMetrics] and [crbGauges] by their keys, and the default
    registerer by the names of the collectors it holds. *)
Record vectors := {
  counterVecs : gset string;
  gaugeVecs : gset string;
  registered : gset string
}.

(** [prometheus.MustRegister] of a vector with the name: it panics, [None]
    here, when a collector of that name is registered already.  The other
    reason for it to panic, a name or label that is not well-formed, does
    not depend on the state and is left out. *)
Definition MustRegister (name : string) (vs : vectors) : option vectors :=
  if decide (name ∈ registered vs) then None
  else Some {| counterVecs := counterVecs vs; gaugeVecs := gaugeVecs vs;
               registered := {[ name ]} ∪ registered vs |}.

(** The body of the loop of [initCRBMetrics]: the vector is stored under
    the name in the map of its type and registered. *)
Definition registerDesc (vs : vectors) (desc : metricDesc) : option vectors :=
  match Typ desc with
  | counter =>
      MustRegister (PromName desc)
        {| counterVecs := {[ PromName desc ]} ∪ counterVecs vs;
           gaugeVecs := gaugeVecs vs; registered := registered vs |}
  | gauge =>
      MustRegister (PromName desc)
        {| counterVecs := counterVecs vs;
           gaugeVecs := {[ PromName desc ]} ∪ gaugeVecs vs;
           registered := registered vs |}
  end.

Fixpoint registerAll (descs : list metricDesc) (vs : vectors) : option vectors :=
  match descs with
  | [] => Some vs
  | desc :: descs' => registerDesc vs desc ≫= registerAll descs'
  end.

Definition initCRBMetrics (vs : vectors) : option vectors :=
  registerAll crbMetricDescs vs.

(** [init], run on the registerer as the imported packages have left it;
    the two maps are empty then. *)
Definition init (registered0 : gset string) : option vectors :=
  (initCRBMetrics {| counterVecs := ∅; gaugeVecs := ∅; registered := registered0 |}
     ≫= MustRegister "cycle_extension_bucket")
    ≫= MustRegister "write_duration_bucket".

(** The names under which the collector registers. *)
Definition ownNames : list string :=
  (PromName <$> crbMetricDescs) ++ ["cycle_extension_bucket"; "write_duration_bucket"].

(** ** Numerals and paths *)


(** The segments put together again with a slash between them: what
    [Split] is the inverse of. *)
Fixpoint Join (elems : list string) : string :=
  match elems with
  | [] => ""
  | [e] => e
  | e :: es => e +:+ "/" +:+ Join es
  end.

(** ** Scalar documents *)

(** The registry already holds what the document delivers for the
    descriptor: the reading as baseline of a counter, as value of a
    gauge. *)
Definition holds `{JSONNumber} (pd : gmap string value) (inst : string)
    (r : registry) (desc : metricDesc) : Prop :=
  match getNestedValue pd (JSONName desc), Typ desc with
  | Some v, counter =>
      ∃ m, previousCounterValues r !! PromName desc = Some m ∧ m !! inst = Some v
  | Some v, gauge => crbGauges r !! (PromName desc, inst) = Some v
  | None, _ => True
  end.

(** The descriptor of a gauge and a scalar document that reports only it,
    used in the examples. *)
Definition cycleDelayMinDesc : metricDesc :=
  {| JSONName := "cycleDelay/minNs"; PromName := "crb_min_cycle_extension_duration";
     Help := "Minimum cycle extension duration"; Typ := gauge |}.

Definition delayDoc (n : Z) : gmap string value :=
  {[ "performanceMetrics" := Object {[ "cycleDelay" := Object {[ "minNs" := Int n ]} ]} ]}.

(** ** Histogram responses *)

Global Instance histKind_eq_dec : EqDecision histKind := ltac:(solve_decision).

(** The cumulative counts a sequence holds for a boundary label, in order. *)
Definition cumsAt (le : string) (cs : list (float64 * float64)) : list float64 :=
  (filter (λ bc, FormatFloat bc.1 = le) cs).*2.

(** A write-duration response with two labels of the same bound. *)
Definition collidingResponse : Histogram :=
  {| Timestamp := 0;
     CycleExtensionDurationHistogram := ∅;
     WriteDurationHistogram := {[ "0-1ms" := Qc_of_Z 2; "0.5-1ms" := Qc_of_Z 3 ]} |}.

(** ** authenticate: the body of the login request *)

(** The double quote. *)
Definition quote : string := String "034" "".

(** [fmt.Sprintf] with the format of a JSON object and two [%s] verbs:
    the arguments are put between the quotes as they are. *)
Definition loginData (username password : string) : string :=
  "{" +:+ quote +:+ "username" +:+ quote +:+ ":" +:+ quote +:+ username +:+ quote
    +:+ "," +:+ quote +:+ "password" +:+ quote +:+ ":" +:+ quote +:+ password
    +:+ quote +:+ "}".

(** ** Cycles and steps *)

(** Replies of a cycle whose scalar request fails after the histogram
    response was processed. *)
Definition failedStatsReplies : replies :=
  {| loginReply := Some "t0";
     histogramReply := Decoded (writeResponse 10 0);
     sortedWriteKeys := ["0-1ms"; "1-5ms"];
     sortedCycleKeys := [];
     statsReply := RequestFailed |}.




(** What an event does to the registry, for the instance it happens at. *)
Definition effect `{JSONNumber} (vplc_instance : string) (e : event)
    (r : registry) : registry :=
  match e with
  | GetHistogram _ (Decoded hist) wk ck =>
      updateHistogramsWith wk ck hist vplc_instance r
  | GetStats _ (Decoded crb) => updateCRBMetrics crb vplc_instance r
  | _ => r
  end.

(** Two instances, idle. *)
Definition twoIdle : system := initSystem ["plc1"; "plc2"].

(** One idle instance whose first histogram response has been processed. *)
Definition afterFirstResponse : system :=
  {| collectors := [idle "plc1"];
     reg := updateHistograms (writeResponse 10 0) "plc1" initRegistry |}.

(** * Proofs *)

(** ** Rationals *)

Lemma Qc_eq_Qeq (a b : Qc) : a = b ↔ (this a == this b)%Q.
Proof. split; [by intros ->|apply Qc_is_canon]. Qed.

Ltac qc_lra :=
  rewrite ?Qc_eq_Qeq in *;
  unfold Qcle, Qclt, Qcminus, Qcplus, Qcopp, Qcmult, Q2Qc in *; cbn [this] in *;
  rewrite ?Qred_correct in *; lra.

Ltac qc_compute := apply Qc_is_canon; vm_compute; reflexivity.

Lemma option_Qc_eq (o : option Qc) (v : Qc) :
  this <$> o = Some (this v) → o = Some v.
Proof.
  destruct o as [x|]; simpl; [|done].
  intros [= Hx]. f_equal. apply Qc_is_canon. by rewrite Hx.
Qed.

Lemma this_inj : Inj (=) (=) this.
Proof. intros a b Hab. apply Qc_is_canon. by rewrite Hab. Qed.

Global Instance thisPair_inj : Inj (=) (=) thisPair.
Proof.
  intros [a b] [c d] [= H1 H2]. simpl in *. f_equal; by apply this_inj.
Qed.

(** ** Strings *)

Lemma append_nil (t : string) : "" +:+ t = t.
Proof. reflexivity. Qed.

Lemma append_cons (c : ascii) (s t : string) :
  String c s +:+ t = String c (s +:+ t).
Proof. reflexivity. Qed.

Lemma append_assoc (a b c : string) : (a +:+ b) +:+ c = a +:+ b +:+ c.
Proof.
  induction a as [|x a IH]; [reflexivity|].
  rewrite !append_cons. by rewrite IH.
Qed.

Lemma length_append (a b : string) :
  String.length (a +:+ b) = (String.length a + String.length b)%nat.
Proof. induction a as [|c a IH]; [done|]. rewrite append_cons. simpl. by rewrite IH. Qed.

Lemma HasSuffix_append (pre suffix : string) :
  HasSuffix (pre +:+ suffix) suffix = true.
Proof.
  induction pre as [|c pre IH].
  - rewrite append_nil. destruct suffix; cbn [HasSuffix]; by rewrite String.eqb_refl.
  - rewrite append_cons. cbn [HasSuffix]. rewrite IH. apply orb_true_r.
Qed.

Lemma HasSuffix_split (s suffix : string) :
  HasSuffix s suffix = true → ∃ pre, s = pre +:+ suffix.
Proof.
  induction s as [|c s IH]; cbn [HasSuffix].
  - rewrite orb_false_r. intros ->%String.eqb_eq. by exists "".
  - intros [->%String.eqb_eq | [pre ->]%IH]%orb_true_iff.
    + by exists "".
    + by exists (String c pre).
Qed.

Lemma occurs_append (c : ascii) (a b : string) :
  occurs c (a +:+ b) = occurs c a || occurs c b.
Proof.
  induction a as [|x a IH]; [done|].
  rewrite append_cons. simpl. by rewrite IH, orb_assoc.
Qed.

(** ** Digits and tokens *)

Lemma spanDigits_Digits (ds r : string) :
  Digits ds → startsWithDigit r = false → spanDigits (ds +:+ r) = (ds, r).
Proof.
  intros Hd Hr.
  induction Hd as [c Hc|c ds Hc _ IH]; rewrite !append_cons; simpl; rewrite Hc.
  - rewrite append_nil. destruct r as [|x r]; [done|]. simpl in *. by rewrite Hr.
  - by rewrite IH.
Qed.

Lemma spanDigits_sound (s ds r : string) :
  spanDigits s = (ds, r) →
  s = ds +:+ r ∧ (ds = "" ∨ Digits ds) ∧ startsWithDigit r = false.
Proof.
  revert ds r. induction s as [|c s IH]; intros ds r; simpl.
  - intros [= <- <-]. auto.
  - destruct (isDigit c) eqn:Hc.
    + destruct (spanDigits s) as [ds' r'] eqn:Hs. intros [= <- <-].
      destruct (IH _ _ eq_refl) as (-> & Hds & Hr). split_and!; [done| |done].
      right. destruct Hds as [->|Hds]; by constructor.
    + intros [= <- <-]. simpl. rewrite Hc. auto.
Qed.

Lemma Digits_nonempty (ds : string) : Digits ds → isEmpty ds = false.
Proof. by intros []. Qed.
(** ** The pattern *)

Lemma matchHere_sound (s tok : string) (plus : bool) :
  matchHere s = Some (tok, plus) → s = tok +:+ unitSuffix plus ∧ Token tok.
Proof.
  unfold matchHere. destruct (spanDigits s) as [ds r] eqn:Hs.
  apply spanDigits_sound in Hs as (-> & [->|Hds] & Hr); [done|].
  rewrite (Digits_nonempty _ Hds).
  assert (∀ tok' r', ds +:+ r = tok' +:+ r' → Token tok' →
    (if String.eqb r' "ms" then Some (tok', false)
     else if String.eqb r' "+ms" then Some (tok', true) else None)
      = Some (tok, plus) →
    ds +:+ r = tok +:+ unitSuffix plus ∧ Token tok) as Hfin.
  { intros tok' r' Heq Htok.
    destruct (String.eqb_spec r' "ms") as [->|_]; [by intros [= <- <-]|].
    destruct (String.eqb_spec r' "+ms") as [->|_]; [by intros [= <- <-]|done]. }
  destruct r as [|c r1]; [by apply Hfin; [|constructor]|].
  destruct (spanDigits r1) as [fs r2] eqn:Hf.
  apply spanDigits_sound in Hf as (-> & Hfs & Hr2).
  destruct (Ascii.eqb_spec c ".") as [->|_]; cbn [andb];
    [|by apply Hfin; [|constructor]].
  destruct Hfs as [->|Hfs]; cbn [isEmpty negb]; [by apply Hfin; [|constructor]|].
  rewrite (Digits_nonempty _ Hfs). cbn [negb].
  apply Hfin; [|by constructor].
  by rewrite !append_assoc.
Qed.

Lemma matchHere_complete (tok : string) (plus : bool) :
  Token tok → matchHere (tok +:+ unitSuffix plus) = Some (tok, plus).
Proof.
  intros [ds Hds|ds fs Hds Hfs]; unfold matchHere.
  - rewrite (spanDigits_Digits _ _ Hds) by by destruct plus.
    rewrite (Digits_nonempty _ Hds). by destruct plus.
  - rewrite !append_assoc. rewrite (spanDigits_Digits _ _ Hds) by done.
    rewrite (Digits_nonempty _ Hds). rewrite append_cons, append_nil.
    rewrite (spanDigits_Digits _ _ Hfs) by by destruct plus.
    rewrite (Digits_nonempty _ Hfs). by destruct plus.
Qed.

Lemma FindStringSubmatch_sound (s tok : string) (plus : bool) :
  FindStringSubmatch s = Some (tok, plus) →
  ∃ pre, s = pre +:+ tok +:+ unitSuffix plus ∧ Token tok.
Proof.
  induction s as [|c s IH]; cbn [FindStringSubmatch].
  - destruct (matchHere "") as [[t p]|] eqn:Hm; [|done].
    intros [= -> ->]. apply matchHere_sound in Hm as [? ?]. by exists "".
  - destruct (matchHere (String c s)) as [[t p]|] eqn:Hm.
    + intros [= -> ->]. apply matchHere_sound in Hm as [? ?]. by exists "".
    + intros (pre & -> & Htok)%IH. by exists (String c pre).
Qed.

Lemma FindStringSubmatch_here (s : string) (m : string * bool) :
  matchHere s = Some m → FindStringSubmatch s = Some m.
Proof. intros Hm. destruct s; cbn [FindStringSubmatch]; by rewrite Hm. Qed.

Lemma FindStringSubmatch_complete (pre tok : string) (plus : bool) :
  Token tok → is_Some (FindStringSubmatch (pre +:+ tok +:+ unitSuffix plus)).
Proof.
  intros Htok. induction pre as [|c pre IH].
  - rewrite append_nil.
    by rewrite (FindStringSubmatch_here _ _ (matchHere_complete _ plus Htok)).
  - rewrite append_cons. cbn [FindStringSubmatch].
    by destruct (matchHere _).
Qed.

Lemma FindStringSubmatch_HasSuffix (s : string) :
  is_Some (FindStringSubmatch s) → HasSuffix s "ms" = true.
Proof.
  intros [[tok plus] (pre & -> & _)%FindStringSubmatch_sound].
  destruct plus.
  - change (unitSuffix true) with ("+" +:+ "ms"). rewrite <-!append_assoc.
    apply HasSuffix_append.
  - rewrite <-append_assoc. apply HasSuffix_append.
Qed.

Lemma Digits_occurs (c : ascii) (ds : string) :
  Digits ds → isDigit c = false → occurs c ds = false.
Proof.
  intros Hd Hc. induction Hd as [x Hx|x ds Hx _ IH]; simpl;
    rewrite ?IH; destruct (Ascii.eqb_spec x c); simpl; congruence.
Qed.

Lemma Token_occurs (c : ascii) (tok : string) :
  Token tok → isDigit c = false → c ≠ "."%char → occurs c tok = false.
Proof.
  intros [ds Hds|ds fs Hds Hfs] Hc Hdot.
  - by apply Digits_occurs.
  - rewrite !occurs_append. cbn [occurs]. rewrite !Digits_occurs by done.
    by destruct (Ascii.eqb_spec "." c).
Qed.

Lemma matchHere_dash (s : string) :
  occurs "-" s = true → matchHere s = None.
Proof.
  intros Hs. destruct (matchHere s) as [[tok plus]|] eqn:Hm; [|done].
  apply matchHere_sound in Hm as [-> Htok].
  rewrite occurs_append, Token_occurs in Hs by done. by destruct plus.
Qed.

(** No match goes through a dash: what is left of it is skipped. *)
Lemma FindStringSubmatch_dash (low rest : string) :
  FindStringSubmatch (low +:+ "-" +:+ rest) = FindStringSubmatch rest.
Proof.
  induction low as [|c low IH].
  - rewrite append_nil, append_cons, append_nil. cbn [FindStringSubmatch].
    by rewrite matchHere_dash.
  - rewrite append_cons. cbn [FindStringSubmatch].
    rewrite matchHere_dash, IH; [done|].
    simpl. rewrite occurs_append. simpl. by rewrite !orb_true_r.
Qed.

Lemma matchHere_plus (s tok : string) :
  matchHere s = Some (tok, false) → HasSuffix s "+ms" = false.
Proof.
  intros [-> Htok]%matchHere_sound. simpl.
  assert (occurs "+" tok = false) as Hp by by apply Token_occurs.
  clear Htok. induction tok as [|c tok IH]; [done|].
  rewrite append_cons. cbn [HasSuffix]. simpl in Hp.
  apply orb_false_elim in Hp as [Hc Hp]. rewrite IH by done.
  rewrite orb_false_r. cbn [String.eqb]. by rewrite Hc.
Qed.

Lemma FindStringSubmatch_plus (s tok : string) (plus : bool) :
  HasSuffix s "+ms" = true → FindStringSubmatch s = Some (tok, plus) → plus = true.
Proof.
  induction s as [|c s IH]; cbn [FindStringSubmatch HasSuffix].
  - done.
  - destruct (matchHere (String c s)) as [[t p]|] eqn:Hm.
    + intros Hs [= -> ->]. destruct plus; [done|].
      apply matchHere_plus in Hm. cbn [HasSuffix] in Hm. congruence.
    + intros [[= -> ->]%String.eqb_eq | Hs]%orb_true_iff; [done|]. by apply IH.
Qed.

(** ** The matcher against the pattern *)

Lemma matchHere_spec (s tok : string) (plus : bool) :
  matchHere s = Some (tok, plus) ↔ Matches s tok plus.
Proof.
  split.
  - intros [-> Htok]%matchHere_sound. by split.
  - intros [Htok ->]. by apply matchHere_complete.
Qed.

Lemma matchHere_None (s : string) :
  matchHere s = None ↔ ∀ tok plus, ¬ Matches s tok plus.
Proof.
  split.
  - intros Hn tok plus Hm%matchHere_spec. congruence.
  - intros Hno. destruct (matchHere s) as [[tok plus]|] eqn:Hm; [|done].
    by apply matchHere_spec, Hno in Hm.
Qed.

(** [FindStringSubmatch] returns the submatches of the leftmost match that
    reaches the end of the text. *)
Lemma FindStringSubmatch_spec (s tok : string) (plus : bool) :
  FindStringSubmatch s = Some (tok, plus) ↔
  ∃ pre rest,
    s = pre +:+ rest ∧ Matches rest tok plus ∧
    ∀ pre' rest',
      s = pre' +:+ rest' → (String.length pre' < String.length pre)%nat →
      ∀ t p, ¬ Matches rest' t p.
Proof.
  split.
  - revert tok plus. induction s as [|c s IH]; intros tok plus;
      cbn [FindStringSubmatch].
    + destruct (matchHere "") as [m|] eqn:Hm; [|done]. intros [= ->].
      exists "", "". split_and!; [done|by apply matchHere_spec|].
      intros pre' rest' _ Hlen. simpl in Hlen. lia.
    + destruct (matchHere (String c s)) as [m|] eqn:Hm.
      * intros [= ->]. exists "", (String c s).
        split_and!; [done|by apply matchHere_spec|].
        intros pre' rest' _ Hlen. simpl in Hlen. lia.
      * intros (pre & rest & -> & Hrest & Hleft)%IH.
        exists (String c pre), rest. split_and!; [done..|].
        intros pre' rest' Heq Hlen.
        destruct pre' as [|c' pre'].
        -- rewrite append_nil in Heq. subst rest'. by apply matchHere_None.
        -- rewrite !append_cons in Heq. injection Heq as <- Heq.
           apply (Hleft pre' rest' Heq). simpl in Hlen. lia.
  - intros (pre & rest & -> & Hrest & Hleft).
    induction pre as [|c pre IH].
    + rewrite append_nil. by apply FindStringSubmatch_here, matchHere_spec.
    + rewrite append_cons. cbn [FindStringSubmatch].
      rewrite (proj2 (matchHere_None _)).
      * apply IH. intros pre' rest' Heq Hlen.
        apply (Hleft (String c pre') rest'); [by rewrite !append_cons, Heq|].
        simpl. lia.
      * apply (Hleft "" (String c (pre +:+ rest))); [done|simpl; lia].
Qed.

Lemma FindStringSubmatch_None (s : string) :
  FindStringSubmatch s = None ↔
  ∀ pre rest tok plus, s = pre +:+ rest → ¬ Matches rest tok plus.
Proof.
  split.
  - intros Hn pre rest tok plus -> [Htok ->].
    destruct (FindStringSubmatch_complete pre tok plus Htok) as [m Hm].
    congruence.
  - intros Hno. destruct (FindStringSubmatch s) as [[tok plus]|] eqn:Hm; [|done].
    apply FindStringSubmatch_sound in Hm as (pre & -> & Htok).
    by destruct (Hno pre (tok +:+ unitSuffix plus) tok plus).
Qed.

(** ** ParseFloat on tokens *)

Lemma append_nil_r (s : string) : s +:+ "" = s.
Proof. induction s as [|c s IH]; [done|]. by rewrite append_cons, IH. Qed.

Lemma ParseFloat_int (ds : string) :
  Digits ds → ParseFloat ds = Some (Q2Qc (inject_Z (digitsValue 0 ds))).
Proof.
  intros Hds. unfold ParseFloat.
  rewrite <-(append_nil_r ds) at 1. rewrite (spanDigits_Digits _ _ Hds) by done.
  by rewrite (Digits_nonempty _ Hds).
Qed.

Lemma ParseFloat_frac (ds fs : string) :
  Digits ds → Digits fs →
  ParseFloat (ds +:+ "." +:+ fs) =
    Some (Q2Qc (digitsValue 0 (ds +:+ fs)
                # Z.to_pos (10 ^ Z.of_nat (String.length fs))%Z)).
Proof.
  intros Hds Hfs. unfold ParseFloat.
  rewrite (spanDigits_Digits _ _ Hds) by done.
  rewrite (Digits_nonempty _ Hds). rewrite append_cons, append_nil.
  rewrite <-(append_nil_r fs) at 1. rewrite (spanDigits_Digits _ _ Hfs) by done.
  by rewrite (Digits_nonempty _ Hfs).
Qed.

Lemma ParseFloat_Token (tok : string) : Token tok → is_Some (ParseFloat tok).
Proof.
  intros [ds Hds|ds fs Hds Hfs].
  - by rewrite ParseFloat_int.
  - by rewrite ParseFloat_frac.
Qed.

(** ** FormatFloat tells values apart *)

Lemma digitChar_spec (z : Z) :
  (0 ≤ z ≤ 9)%Z → isDigit (digitChar z) = true ∧ digitVal (digitChar z) = z.
Proof.
  intros Hz.
  assert (z = 0 ∨ z = 1 ∨ z = 2 ∨ z = 3 ∨ z = 4 ∨ z = 5 ∨ z = 6 ∨ z = 7
          ∨ z = 8 ∨ z = 9)%Z as Hc by lia.
  repeat (destruct Hc as [->|Hc]; [done|]). by subst.
Qed.

Lemma showFrac_length (k : nat) (fp : Z) : String.length (showFrac k fp) = k.
Proof. revert fp. induction k as [|k IH]; intros fp; simpl; by rewrite ?IH. Qed.

Lemma showFrac_value (k : nat) (fp acc : Z) :
  (0 ≤ fp < 10 ^ Z.of_nat k)%Z →
  digitsValue acc (showFrac k fp) = (acc * 10 ^ Z.of_nat k + fp)%Z.
Proof.
  revert fp acc. induction k as [|k IH]; intros fp acc Hfp.
  { simpl in *. lia. }
  cbn [showFrac digitsValue].
  assert (0 < 10 ^ Z.of_nat k)%Z as Hpos by (apply Z.pow_pos_nonneg; lia).
  assert (10 ^ Z.of_nat (S k) = 10 * 10 ^ Z.of_nat k)%Z as Hpow
    by (rewrite Nat2Z.inj_succ, Z.pow_succ_r; lia).
  rewrite Hpow in *.
  assert (0 ≤ fp / 10 ^ Z.of_nat k ≤ 9)%Z as Hq.
  { split; [apply Z.div_pos; lia|].
    assert (fp / 10 ^ Z.of_nat k < 10)%Z; [|lia].
    apply Z.div_lt_upper_bound; lia. }
  rewrite (proj2 (digitChar_spec _ Hq)).
  rewrite IH by (apply Z.mod_pos_bound; lia).
  pose proof (Z.div_mod fp (10 ^ Z.of_nat k)) as Hdm. nia.
Qed.

Lemma string_of_uint_Digits (d : Decimal.uint) :
  d ≠ Decimal.Nil → Digits (NilEmpty.string_of_uint d).
Proof.
  induction d as [|d IH|d IH|d IH|d IH|d IH|d IH|d IH|d IH|d IH|d IH];
    intros Hne; [done|..];
    (destruct d as [|d'|d'|d'|d'|d'|d'|d'|d'|d'|d'];
     [by constructor|by constructor; [|apply IH]..]).
Qed.

Lemma N_to_uint_nonnil (n : N) : N.to_uint n ≠ Decimal.Nil.
Proof. destruct n; [done|]. apply DecimalPos.Unsigned.to_uint_nonnil. Qed.

Lemma showN_Digits (z : Z) : Digits (showN z).
Proof.
  unfold showN. pose proof (N_to_uint_nonnil (Z.to_N z)) as Hne.
  unfold NilZero.string_of_uint.
  destruct (N.to_uint (Z.to_N z)) eqn:Hd; [done|..];
    rewrite <-Hd in *; by apply string_of_uint_Digits.
Qed.

Lemma showN_inj (a b : Z) : (0 ≤ a)%Z → (0 ≤ b)%Z → showN a = showN b → a = b.
Proof.
  unfold showN. intros Ha Hb Heq.
  apply (f_equal NilZero.uint_of_string) in Heq.
  rewrite !NilZero.usu in Heq by apply N_to_uint_nonnil.
  injection Heq as Heq. apply DecimalN.Unsigned.to_uint_inj in Heq. lia.
Qed.

Lemma Digits_append_inv (a a' r r' : string) :
  Digits a → Digits a' → startsWithDigit r = false → startsWithDigit r' = false →
  a +:+ r = a' +:+ r' → a = a' ∧ r = r'.
Proof.
  intros Ha Ha' Hr Hr' Heq.
  pose proof (spanDigits_Digits a r Ha Hr) as H1.
  rewrite Heq, (spanDigits_Digits a' r' Ha' Hr') in H1. by injection H1.
Qed.

Lemma decimalScale_Some (fuel : nat) (d : Z) (k0 k : nat) :
  decimalScale fuel d k0 = Some k → ((10 ^ Z.of_nat k) mod d = 0)%Z.
Proof.
  revert k0. induction fuel as [|fuel IH]; intros k0; simpl;
    destruct (Z.eqb_spec ((10 ^ Z.of_nat k0) mod d) 0) as [Hz|_];
    try done; try (by intros [= <-]). apply IH.
Qed.

(** The digits of [formatAbs] determine the ratio. *)
Lemma formatAbs_inj (a1 d1 a2 d2 : Z) :
  (0 ≤ a1)%Z → (0 < d1)%Z → (0 ≤ a2)%Z → (0 < d2)%Z →
  formatAbs a1 d1 = formatAbs a2 d2 → (a1 * d2 = a2 * d1)%Z.
Proof.
  intros Ha1 Hd1 Ha2 Hd2. unfold formatAbs.
  assert (∀ k, startsWithDigit
            (match k with O => EmptyString | S _ => String "." (showFrac k 0) end)
            = false) as _ by (by intros []).
  assert (∀ a d k, (0 ≤ a)%Z → (0 < d)%Z → ((10 ^ Z.of_nat k) mod d = 0)%Z →
            (a * 10 ^ Z.of_nat k / d * d = a * 10 ^ Z.of_nat k)%Z ∧
            (0 ≤ a * 10 ^ Z.of_nat k / d)%Z ∧ (0 < 10 ^ Z.of_nat k)%Z) as Hexact.
  { intros a d k Ha Hd Hk.
    assert (0 < 10 ^ Z.of_nat k)%Z as Hpos by (apply Z.pow_pos_nonneg; lia).
    split_and!; [|apply Z.div_pos; nia|done].
    apply Z.mod_divide in Hk as [q Hq]; [|lia].
    rewrite Hq, Z.mul_assoc, Z.div_mul by lia. lia. }
  destruct (decimalScale _ d1 0) as [k1|] eqn:Hk1,
           (decimalScale _ d2 0) as [k2|] eqn:Hk2.
  - apply decimalScale_Some in Hk1, Hk2.
    destruct (Hexact a1 d1 k1 Ha1 Hd1 Hk1) as (He1 & Hm1 & Hp1).
    destruct (Hexact a2 d2 k2 Ha2 Hd2 Hk2) as (He2 & Hm2 & Hp2).
    set (m1 := (a1 * 10 ^ Z.of_nat k1 / d1)%Z) in *.
    set (m2 := (a2 * 10 ^ Z.of_nat k2 / d2)%Z) in *.
    cbv zeta. intros Heq.
    apply Digits_append_inv in Heq as [Hip Htail];
      [|apply showN_Digits..|by destruct k1|by destruct k2].
    apply showN_inj in Hip; [|apply Z.div_pos; lia..].
    assert (k1 = k2 ∧ (m1 mod 10 ^ Z.of_nat k1 = m2 mod 10 ^ Z.of_nat k2)%Z)
      as [<- Hfp].
    { destruct k1 as [|k1], k2 as [|k2]; try done.
      - simpl. by rewrite !Z.mod_1_r.
      - assert (showFrac (S k1) (m1 mod 10 ^ Z.of_nat (S k1))
                = showFrac (S k2) (m2 mod 10 ^ Z.of_nat (S k2))) as Hfrac
          by congruence.
        clear Htail.
        assert (S k1 = S k2) as Hk.
        { rewrite <-(showFrac_length (S k1) (m1 mod 10 ^ Z.of_nat (S k1))),
            <-(showFrac_length (S k2) (m2 mod 10 ^ Z.of_nat (S k2))).
          by rewrite Hfrac. }
        split; [done|]. apply (f_equal (digitsValue 0)) in Hfrac.
        rewrite !showFrac_value in Hfrac by (apply Z.mod_pos_bound; lia). lia. }
    assert (m1 = m2) as Hm.
    { rewrite (Z.div_mod m1 (10 ^ Z.of_nat k1)), (Z.div_mod m2 (10 ^ Z.of_nat k1))
        by lia. by rewrite Hip, Hfp. }
    apply (Z.mul_reg_r _ _ (10 ^ Z.of_nat k1)); [lia|]. nia.
  - intros Heq.
    apply Digits_append_inv in Heq as [_ Htail];
      [|apply showN_Digits..|by destruct k1|done].
    by destruct k1.
  - intros Heq.
    apply Digits_append_inv in Heq as [_ Htail];
      [|apply showN_Digits..|done|by destruct k2].
    by destruct k2.
  - intros Heq.
    apply Digits_append_inv in Heq as [Ha Hd]; [|apply showN_Digits..|done|done].
    injection Hd as Hd. apply showN_inj in Ha, Hd; [|lia..]. by subst.
Qed.

(** Different values are formatted differently. *)
Global Instance FormatFloat_inj : Inj (=) (=) FormatFloat.
Proof.
  intros x1 x2. unfold FormatFloat. cbv zeta.
  pose proof (showN_Digits 0) as _.
  assert (∀ a d, startsWithDigit (formatAbs a d) = true) as Hstart.
  { intros a d. unfold formatAbs.
    destruct (decimalScale _ d 0); cbv zeta;
      match goal with
      | |- context [showN ?z +:+ _] =>
          pose proof (showN_Digits z) as Hz; destruct Hz; by rewrite append_cons
      end. }
  intros Heq. apply Qc_is_canon. unfold Qeq.
  destruct (Z.ltb_spec (Qnum x1) 0) as [H1|H1],
           (Z.ltb_spec (Qnum x2) 0) as [H2|H2].
  - rewrite !append_cons, !append_nil in Heq. injection Heq as Heq.
    apply formatAbs_inj in Heq; lia.
  - rewrite append_cons, !append_nil in Heq.
    specialize (Hstart (Z.abs (Qnum x2)) (Z.pos (Qden x2))).
    rewrite <-Heq in Hstart. done.
  - rewrite append_cons, !append_nil in Heq.
    specialize (Hstart (Z.abs (Qnum x1)) (Z.pos (Qden x1))).
    rewrite Heq in Hstart. done.
  - rewrite !append_nil in Heq. apply formatAbs_inj in Heq; lia.
Qed.

Lemma leOf_bound (k1 k2 : string) :
  leOf k1 = leOf k2 → parseBucketUpperBoundMs k1 = parseBucketUpperBoundMs k2.
Proof. apply (inj FormatFloat). Qed.

(** ** parseBucketUpperBoundMs *)

Lemma parse_range (low tok : string) (v : float64) :
  Token tok → ParseFloat tok = Some v →
  parseBucketUpperBoundMs (low +:+ "-" +:+ tok +:+ "ms") = v.
Proof.
  intros Htok Hv. unfold parseBucketUpperBoundMs.
  rewrite FindStringSubmatch_dash.
  change "ms" with (unitSuffix false).
  rewrite (FindStringSubmatch_here _ _ (matchHere_complete _ false Htok)).
  by rewrite Hv.
Qed.

Lemma parse_open (pre tok : string) :
  Token tok → parseBucketUpperBoundMs (pre +:+ tok +:+ "+ms") = sentinel.
Proof.
  intros Htok. unfold parseBucketUpperBoundMs.
  destruct (FindStringSubmatch_complete pre tok true Htok) as [[t p] Hm].
  change (unitSuffix true) with "+ms" in Hm. rewrite Hm.
  rewrite (λ H, FindStringSubmatch_plus _ _ _ H Hm); [done|].
  rewrite <-append_assoc. apply HasSuffix_append.
Qed.

Lemma parse_no_match (label : string) :
  (∀ pre tok plus, Token tok → label ≠ pre +:+ tok +:+ unitSuffix plus) →
  parseBucketUpperBoundMs label = 0.
Proof.
  intros Hno. unfold parseBucketUpperBoundMs.
  destruct (FindStringSubmatch label) as [[tok plus]|] eqn:Hm; [|done].
  apply FindStringSubmatch_sound in Hm as (pre & -> & Htok).
  by destruct (Hno pre tok plus Htok).
Qed.

Lemma parse_other_unit (label : string) :
  HasSuffix label "ms" = false → parseBucketUpperBoundMs label = 0.
Proof.
  intros Hs. unfold parseBucketUpperBoundMs.
  destruct (FindStringSubmatch label) as [m|] eqn:Hm; [|done].
  rewrite FindStringSubmatch_HasSuffix in Hs; [done|by eexists].
Qed.

Lemma parse_dash (low rest : string) :
  parseBucketUpperBoundMs (low +:+ "-" +:+ rest) = parseBucketUpperBoundMs rest.
Proof. unfold parseBucketUpperBoundMs. by rewrite FindStringSubmatch_dash. Qed.

Lemma Token_1_0 : Token "1.0".
Proof. apply (Token_frac "1" "0"); by constructor. Qed.

Lemma Token_20_0 : Token "20.0".
Proof. apply (Token_frac "20" "0"); repeat constructor. Qed.

(** ** getNestedValue *)

Section extraction.
Context `{JSONNumber}.

Lemma getNestedValue_loop_descend (parts : list string) (current : value) :
  parts ≠ [] →
  getNestedValue_loop parts current = descend parts current ≫= toFloat64.
Proof.
  revert current. induction parts as [|part rest IH]; intros current Hne; [done|].
  simpl. destruct current; try done.
  destruct (m !! part) as [v|]; simpl; [|done].
  destruct rest as [|part' rest]; [done|]. by apply IH.
Qed.

Lemma Split_nonempty (path : string) : Split path ≠ [].
Proof.
  induction path as [|c path IH]; simpl; [done|].
  destruct (Ascii.eqb c "/"); [done|]. by destruct (Split path).
Qed.

Lemma descend_app (pre rest : list string) (current : value) :
  descend (pre ++ rest) current = descend pre current ≫= descend rest.
Proof.
  revert current. induction pre as [|part pre IH]; intros current; [done|].
  simpl. destruct current; try done.
  destruct (m !! part) as [v|]; simpl; [apply IH|done].
Qed.

Lemma toFloat64_numeric (v : value) (f : float64) :
  toFloat64 v = Some f → numeric v.
Proof. by destruct v. Qed.

End extraction.

(** ** updateCRBMetrics *)

Lemma exported_Add (vec : gmap (string * string) float64)
    (lvs : string * string) (delta : float64) :
  exported (Add lvs delta vec) lvs = exported vec lvs + delta.
Proof. unfold exported, Add. by rewrite lookup_total_insert_eq. Qed.

Lemma lookup_WithLabelValues_ne (vec : gmap (string * string) float64)
    (lvs lvs' : string * string) :
  lvs ≠ lvs' → WithLabelValues lvs vec !! lvs' = vec !! lvs'.
Proof.
  intros Hne. unfold WithLabelValues.
  destruct (vec !! lvs); [done|]. by rewrite lookup_insert_ne.
Qed.

Lemma lookup_Add_ne (vec : gmap (string * string) float64)
    (lvs lvs' : string * string) (delta : float64) :
  lvs ≠ lvs' → Add lvs delta vec !! lvs' = vec !! lvs'.
Proof.
  intros Hne. unfold Add.
  by rewrite lookup_insert_ne, lookup_WithLabelValues_ne.
Qed.

Lemma exported_WithLabelValues (vec : gmap (string * string) float64)
    (lvs lvs' : string * string) :
  exported (WithLabelValues lvs vec) lvs' = exported vec lvs'.
Proof.
  unfold exported, WithLabelValues. destruct (vec !! lvs) eqn:Hl; [done|].
  destruct (decide (lvs = lvs')) as [<-|Hne].
  - rewrite lookup_total_insert_eq. rewrite lookup_total_alt, Hl. done.
  - by rewrite lookup_total_insert_ne.
Qed.

Section scalars.
Context `{JSONNumber}.

(** What [updateDesc] does to the series and the baseline of one key when
    the descriptor is the key's counter and delivers [v]. *)
Lemma updateDesc_counter (pd : gmap string value) (inst : string)
    (r : registry) (desc : metricDesc) (v : float64) :
  Typ desc = counter →
  getNestedValue pd (JSONName desc) = Some v →
  let r' := updateDesc pd inst r desc in
  lastRaw r' (PromName desc) inst = v ∧
  exported (crbMetrics r') (PromName desc, inst)
    = exported (crbMetrics r) (PromName desc, inst)
        + increment (lastRaw r (PromName desc) inst) v ∧
  (¬ 0 < v - lastRaw r (PromName desc) inst →
     crbMetrics r' !! (PromName desc, inst) = crbMetrics r !! (PromName desc, inst)).
Proof.
  intros Ht Hv. unfold updateDesc. rewrite Hv, Ht. cbv zeta.
  set (pcv := match previousCounterValues r !! PromName desc with
              | Some _ => previousCounterValues r
              | None => <[PromName desc := ∅]> (previousCounterValues r)
              end).
  assert ((pcv !!! PromName desc) !!! inst = lastRaw r (PromName desc) inst) as Hp.
  { unfold lastRaw, pcv. destruct (previousCounterValues r !! PromName desc) eqn:Hl; [done|].
    rewrite lookup_total_insert_eq. rewrite (lookup_total_alt (previousCounterValues r)), Hl.
    done. }
  rewrite Hp. unfold increment.
  split_and!.
  - unfold lastRaw. destruct (decide _); simpl;
      by rewrite !lookup_total_insert_eq.
  - destruct (decide _); simpl.
    + apply exported_Add.
    + by rewrite Qcplus_0_r.
  - intros Hn. by destruct (decide _).
Qed.

(** What [updateDesc] leaves alone: the key of another name or instance,
    and every key when the descriptor is a gauge or has no reading. *)
Lemma updateDesc_frame (pd : gmap string value) (inst : string)
    (r : registry) (desc : metricDesc) (name inst' : string) :
  (Typ desc = counter → is_Some (getNestedValue pd (JSONName desc)) →
   (PromName desc, inst) ≠ (name, inst')) →
  let r' := updateDesc pd inst r desc in
  lastRaw r' name inst' = lastRaw r name inst' ∧
  crbMetrics r' !! (name, inst') = crbMetrics r !! (name, inst').
Proof.
  intros Hne. unfold updateDesc.
  destruct (getNestedValue pd (JSONName desc)) as [v|]; [|done].
  destruct (Typ desc); [|done].
  specialize (Hne eq_refl (mk_is_Some _ _ eq_refl)). cbv zeta.
  set (pcv := match previousCounterValues r !! PromName desc with
              | Some _ => previousCounterValues r
              | None => <[PromName desc := ∅]> (previousCounterValues r)
              end).
  assert (∀ n, pcv !!! n = previousCounterValues r !!! n) as Hp.
  { intros n. unfold pcv.
    destruct (previousCounterValues r !! PromName desc) eqn:Hl; [done|].
    destruct (decide (PromName desc = n)) as [<-|?].
    - rewrite lookup_total_insert_eq. by rewrite lookup_total_alt, Hl.
    - by rewrite lookup_total_insert_ne. }
  split.
  - unfold lastRaw.
    assert (∀ r1, previousCounterValues
              (set_previousCounterValues
                 (<[PromName desc := <[inst := v]> (pcv !!! PromName desc)]> pcv) r1)
            = <[PromName desc := <[inst := v]> (pcv !!! PromName desc)]> pcv)
      as -> by done.
    destruct (decide (PromName desc = name)) as [<-|?].
    + rewrite lookup_total_insert_eq. rewrite lookup_total_insert_ne by congruence.
      by rewrite Hp.
    + rewrite lookup_total_insert_ne by done. by rewrite Hp.
  - destruct (decide _); simpl; [|done]. by apply lookup_Add_ne.
Qed.

End scalars.

Section scalar_updates.
Context `{JSONNumber}.

Lemma foldl_updateDesc_frame (pd : gmap string value) (inst : string)
    (descs : list metricDesc) (r : registry) (name inst' : string) :
  (∀ desc, desc ∈ descs → Typ desc = counter →
     is_Some (getNestedValue pd (JSONName desc)) →
     (PromName desc, inst) ≠ (name, inst')) →
  let r' := foldl (updateDesc pd inst) r descs in
  lastRaw r' name inst' = lastRaw r name inst' ∧
  crbMetrics r' !! (name, inst') = crbMetrics r !! (name, inst').
Proof.
  revert r. induction descs as [|desc descs IH]; intros r Hne; [done|].
  simpl. destruct (IH (updateDesc pd inst r desc)) as [-> ->].
  { intros d Hd. apply Hne. by right. }
  apply updateDesc_frame. apply Hne. by left.
Qed.

Lemma foldl_updateDesc_counter (pd : gmap string value) (inst : string)
    (descs : list metricDesc) (r : registry) (d : metricDesc) (v : float64) :
  NoDup (PromName <$> descs) → d ∈ descs →
  Typ d = counter → getNestedValue pd (JSONName d) = Some v →
  let r' := foldl (updateDesc pd inst) r descs in
  lastRaw r' (PromName d) inst = v ∧
  exported (crbMetrics r') (PromName d, inst)
    = exported (crbMetrics r) (PromName d, inst)
        + increment (lastRaw r (PromName d) inst) v ∧
  (¬ 0 < v - lastRaw r (PromName d) inst →
     crbMetrics r' !! (PromName d, inst) = crbMetrics r !! (PromName d, inst)).
Proof.
  revert r. induction descs as [|desc descs IH]; intros r Hnd Hin Ht Hv.
  { by apply elem_of_nil in Hin. }
  rewrite fmap_cons in Hnd. apply NoDup_cons in Hnd as [Hfresh Hnd].
  cbn [foldl]. apply elem_of_cons in Hin as [<-|Hin].
  - destruct (foldl_updateDesc_frame pd inst descs (updateDesc pd inst r d)
               (PromName d) inst) as [Hl Hc].
    { intros x Hx _ _ [= Heq]. apply Hfresh. rewrite <-Heq.
      by apply list_elem_of_fmap_2. }
    cbv zeta. unfold exported in *. rewrite Hl, Hc, !lookup_total_alt, Hc.
    destruct (updateDesc_counter pd inst r d v Ht Hv) as (? & He & Hn).
    unfold exported in He. rewrite !lookup_total_alt in He. done.
  - destruct (updateDesc_frame pd inst r desc (PromName d) inst) as [Hl Hc].
    { intros _ _ [= Heq]. apply Hfresh. rewrite Heq.
      by apply list_elem_of_fmap_2. }
    destruct (IH (updateDesc pd inst r desc) Hnd Hin Ht Hv) as (? & He & Hn).
    unfold exported in *. rewrite !lookup_total_alt, Hl, Hc in *. done.
Qed.

Lemma crbMetricDescs_NoDup : NoDup (PromName <$> crbMetricDescs).
Proof. by apply (bool_decide_unpack _). Qed.

(** [updateCRBMetrics] at the key of a counter descriptor whose reading the
    document delivers. *)
Lemma updateCRBMetrics_counter (data : gmap string value) (inst : string)
    (r : registry) (d : metricDesc) (v : float64) :
  d ∈ crbMetricDescs → Typ d = counter → reading d data = Some v →
  let r' := updateCRBMetrics data inst r in
  lastRaw r' (PromName d) inst = v ∧
  exported (crbMetrics r') (PromName d, inst)
    = exported (crbMetrics r) (PromName d, inst)
        + increment (lastRaw r (PromName d) inst) v ∧
  (¬ 0 < v - lastRaw r (PromName d) inst →
     crbMetrics r' !! (PromName d, inst) = crbMetrics r !! (PromName d, inst)).
Proof.
  intros Hin Ht. unfold reading, updateCRBMetrics.
  destruct (data !! "performanceMetrics") as [[]|]; try done.
  intros Hv. by apply foldl_updateDesc_counter; [apply crbMetricDescs_NoDup|..].
Qed.

(** [updateCRBMetrics] at a key the document has no reading for, and at the
    keys of another instance. *)
Lemma updateCRBMetrics_frame (data : gmap string value) (inst : string)
    (r : registry) (d : metricDesc) (inst' : string) :
  d ∈ crbMetricDescs → reading d data = None ∨ inst ≠ inst' →
  let r' := updateCRBMetrics data inst r in
  lastRaw r' (PromName d) inst' = lastRaw r (PromName d) inst' ∧
  crbMetrics r' !! (PromName d, inst') = crbMetrics r !! (PromName d, inst').
Proof.
  intros Hin. unfold reading, updateCRBMetrics.
  destruct (data !! "performanceMetrics") as [[]|]; try done.
  intros Hno. apply foldl_updateDesc_frame.
  intros desc Hdesc _ Hsome [= Hname Hinst].
  destruct Hno as [Hno|Hno]; [|done].
  assert (desc = d) as ->; [|by rewrite Hno in Hsome; destruct Hsome].
  clear -Hdesc Hin Hname.
  repeat (apply elem_of_cons in Hdesc as [->|Hdesc]);
    [..|by apply elem_of_nil in Hdesc];
    repeat (apply elem_of_cons in Hin as [->|Hin]);
    try done; by apply elem_of_nil in Hin.
Qed.

End scalar_updates.

Section counters.
Context `{JSONNumber}.

Lemma increment_nonneg (prev v : float64) : 0 ≤ increment prev v.
Proof. unfold increment. destruct (decide _); qc_lra. Qed.

(** Any key of the counter vector only grows under [updateDesc]. *)
Lemma updateDesc_mono (pd : gmap string value) (inst : string)
    (r : registry) (desc : metricDesc) (lvs : string * string) :
  exported (crbMetrics r) lvs ≤ exported (crbMetrics (updateDesc pd inst r desc)) lvs.
Proof.
  unfold updateDesc.
  destruct (getNestedValue pd (JSONName desc)) as [v|]; [|apply Qcle_refl].
  destruct (Typ desc); [|apply Qcle_refl]. cbv zeta.
  destruct (decide _) as [Hpos|]; simpl; [|apply Qcle_refl].
  destruct (decide ((PromName desc, inst) = lvs)) as [<-|Hne].
  - rewrite exported_Add. qc_lra.
  - unfold exported. rewrite !lookup_total_alt, lookup_Add_ne by done.
    apply Qcle_refl.
Qed.

Lemma updateCRBMetrics_mono (data : gmap string value) (inst : string)
    (r : registry) (lvs : string * string) :
  exported (crbMetrics r) lvs
    ≤ exported (crbMetrics (updateCRBMetrics data inst r)) lvs.
Proof.
  unfold updateCRBMetrics.
  destruct (data !! "performanceMetrics") as [[]|]; try apply Qcle_refl.
  generalize crbMetricDescs. intros descs. revert r.
  induction descs as [|desc descs IH]; intros r; [apply Qcle_refl|].
  simpl. eapply Qcle_trans; [|apply IH]. apply updateDesc_mono.
Qed.

Lemma updateAll_mono (inst : string) (docs : list (gmap string value))
    (r : registry) (lvs : string * string) :
  exported (crbMetrics r) lvs ≤ exported (crbMetrics (updateAll inst docs r)) lvs.
Proof.
  revert r. induction docs as [|doc docs IH]; intros r; [apply Qcle_refl|].
  change (updateAll inst (doc :: docs) r)
    with (updateAll inst docs (updateCRBMetrics doc inst r)).
  eapply Qcle_trans; [|apply IH]. apply updateCRBMetrics_mono.
Qed.

(** The exported value and the baseline after a sequence of documents. *)
Lemma updateAll_sum (inst : string) (d : metricDesc)
    (docs : list (gmap string value)) (r : registry) :
  d ∈ crbMetricDescs → Typ d = counter →
  exported (crbMetrics (updateAll inst docs r)) (PromName d, inst)
    = exported (crbMetrics r) (PromName d, inst)
        + sumIncrements (lastRaw r (PromName d) inst) (omap (reading d) docs).
Proof.
  intros Hin Ht. revert r. induction docs as [|doc docs IH]; intros r.
  { simpl. by rewrite Qcplus_0_r. }
  change (updateAll inst (doc :: docs) r)
    with (updateAll inst docs (updateCRBMetrics doc inst r)).
  rewrite IH. cbn [omap list_omap]. destruct (reading d doc) as [v|] eqn:Hv.
  - destruct (updateCRBMetrics_counter doc inst r d v Hin Ht Hv) as (-> & -> & _).
    simpl. by rewrite Qcplus_assoc.
  - destruct (updateCRBMetrics_frame doc inst r d inst Hin (or_introl Hv)) as [-> Hc].
    unfold exported. by rewrite !lookup_total_alt, Hc.
Qed.

End counters.

Lemma writeSuccessesDesc_elem : writeSuccessesDesc ∈ crbMetricDescs.
Proof. by left. Qed.

(** ** updateHistograms *)

Lemma bucketKey_inj (inst le le' : string) :
  bucketKey inst le = bucketKey inst le' → le = le'.
Proof. unfold bucketKey. intros Heq. by do 2 apply String.app_inj in Heq. Qed.

Lemma getPreviousBucketValue_set (kind : histKind) (key key' : string)
    (val : float64) (r : registry) :
  getPreviousBucketValue (kindName kind) key'
      (setPreviousBucketValue (kindName kind) key val r)
    = if decide (key = key') then val
      else getPreviousBucketValue (kindName kind) key' r.
Proof.
  destruct kind; unfold getPreviousBucketValue, setPreviousBucketValue; simpl;
    destruct (decide (key = key')) as [<-|?];
    by rewrite ?lookup_total_insert_eq, ?lookup_total_insert_ne.
Qed.

Lemma getPreviousBucketValue_set_bucketVec (kind kind' : histKind) (key : string)
    (v : gmap (string * string) float64) (r : registry) :
  getPreviousBucketValue (kindName kind') key (set_bucketVec kind v r)
    = getPreviousBucketValue (kindName kind') key r.
Proof. by destruct kind, kind'. Qed.

Lemma bucketVec_set (kind : histKind) (v : gmap (string * string) float64)
    (r : registry) : bucketVec kind (set_bucketVec kind v r) = v.
Proof. by destruct kind. Qed.

Lemma bucketVec_setPrevious (kind kind' : histKind) (key : string)
    (val : float64) (r : registry) :
  bucketVec kind' (setPreviousBucketValue (kindName kind) key val r)
    = bucketVec kind' r.
Proof. by destruct kind, kind'. Qed.

(** The delta rule at the boundary it is applied to. *)
Lemma applyBucket_same (kind : histKind) (inst le : string) (c : float64)
    (r : registry) :
  let r' := applyBucket kind inst le c r in
  let prev := getPreviousBucketValue (kindName kind) (bucketKey inst le) r in
  getPreviousBucketValue (kindName kind) (bucketKey inst le) r' = c ∧
  exported (bucketVec kind r') (inst, le)
    = exported (bucketVec kind r) (inst, le) + increment prev c ∧
  is_Some (bucketVec kind r' !! (inst, le)).
Proof.
  unfold applyBucket. cbv zeta.
  rewrite getPreviousBucketValue_set_bucketVec.
  rewrite getPreviousBucketValue_set, decide_True by done.
  rewrite bucketVec_setPrevious. unfold increment.
  destruct (decide _); rewrite !bucketVec_set.
  - split_and!; [done| |].
    + by rewrite exported_Add, exported_WithLabelValues.
    + unfold Add. rewrite lookup_insert_eq. by eexists.
  - split_and!; [done| |].
    + by rewrite exported_WithLabelValues, Qcplus_0_r.
    + unfold WithLabelValues. destruct (bucketVec kind r !! (inst, le)) eqn:Hl.
      * rewrite Hl. by eexists.
      * rewrite lookup_insert_eq. by eexists.
Qed.

(** The delta rule leaves the series and previous values of every other
    boundary and instance alone. *)
Lemma applyBucket_frame (kind : histKind) (inst le : string) (c : float64)
    (r : registry) :
  let r' := applyBucket kind inst le c r in
  (∀ lvs, lvs ≠ (inst, le) → bucketVec kind r' !! lvs = bucketVec kind r !! lvs) ∧
  (∀ key, key ≠ bucketKey inst le →
     getPreviousBucketValue (kindName kind) key r'
       = getPreviousBucketValue (kindName kind) key r).
Proof.
  unfold applyBucket. cbv zeta. split.
  - intros lvs Hne. rewrite bucketVec_setPrevious.
    destruct (decide _); rewrite !bucketVec_set.
    + by rewrite lookup_Add_ne, lookup_WithLabelValues_ne.
    + by rewrite lookup_WithLabelValues_ne.
  - intros key Hne. rewrite getPreviousBucketValue_set, decide_False by done.
    destruct (decide _); by rewrite !getPreviousBucketValue_set_bucketVec.
Qed.

(** It never touches the other histogram, nor the scalar metrics. *)
Lemma applyBucket_other (kind : histKind) (inst le : string) (c : float64)
    (r : registry) :
  let r' := applyBucket kind inst le c r in
  (∀ kind', kind' ≠ kind →
     bucketVec kind' r' = bucketVec kind' r ∧
     ∀ key, getPreviousBucketValue (kindName kind') key r'
              = getPreviousBucketValue (kindName kind') key r) ∧
  crbMetrics r' = crbMetrics r ∧ crbGauges r' = crbGauges r ∧
  previousCounterValues r' = previousCounterValues r.
Proof.
  unfold applyBucket. cbv zeta. split_and!.
  - intros kind' Hne. destruct kind, kind'; try done;
      destruct (decide _); done.
  - destruct kind; destruct (decide _); done.
  - destruct kind; destruct (decide _); done.
  - destruct kind; destruct (decide _); done.
Qed.

Lemma applyBucket_mono (kind : histKind) (inst le : string) (c : float64)
    (r : registry) (lvs : string * string) :
  exported (bucketVec kind r) lvs
    ≤ exported (bucketVec kind (applyBucket kind inst le c r)) lvs.
Proof.
  destruct (decide (lvs = (inst, le))) as [->|Hne].
  - destruct (applyBucket_same kind inst le c r) as (_ & -> & _).
    pose proof (increment_nonneg
      (getPreviousBucketValue (kindName kind) (bucketKey inst le) r) c).
    qc_lra.
  - destruct (applyBucket_frame kind inst le c r) as [Hv _].
    unfold exported. rewrite !lookup_total_alt, Hv by done. apply Qcle_refl.
Qed.

(** The loop is the delta rule applied along the cumulative sequence. *)
Lemma bucketLoop_cumulative (kind : histKind) (h : gmap string float64)
    (inst : string) (ks : list string) (r : registry) :
  bucketLoop kind h inst ks r = applyCumulative kind inst r (cumulativeSeq h ks).
Proof.
  unfold bucketLoop, cumulativeSeq, applyCumulative. generalize (0 : float64).
  revert r. induction ks as [|k ks IH]; intros r c0; [done|].
  cbn [foldl cumulativeFrom]. unfold bucketStep at 2. cbn [fst snd].
  by rewrite IH.
Qed.

Lemma cumulativeFrom_lookup (c0 : float64) (h : gmap string float64)
    (ks : list string) (i : nat) (k : string) :
  ks !! i = Some k →
  cumulativeFrom c0 h ks !! i
    = Some (parseBucketUpperBoundMs k, c0 + sumCounts h (take (S i) ks)).
Proof.
  revert c0 i. induction ks as [|k' ks IH]; intros c0 i; [done|].
  destruct i as [|i]; cbn [cumulativeFrom].
  - intros [= ->]. simpl. unfold sumCounts. simpl. by rewrite Qcplus_0_r.
  - intros Hk. simpl. rewrite (IH _ _ Hk). unfold sumCounts. simpl.
    by rewrite Qcplus_assoc.
Qed.

(** ** The sorted slices *)

Lemma not_less_notAfter (a b : string) : ¬ less b a ↔ notAfter a b.
Proof. unfold less, notAfter. symmetry. apply Qcle_ngt. Qed.

Global Instance notAfter_trans : Transitive notAfter.
Proof. intros a b c. unfold notAfter. apply Qcle_trans. Qed.

Global Instance notAfter_total : Total notAfter.
Proof. intros a b. unfold notAfter. apply (total Qcle). Qed.

Lemma StronglySorted_iff {A} (R1 R2 : relation A) (l : list A) :
  (∀ x y, R1 x y ↔ R2 x y) → StronglySorted R1 l ↔ StronglySorted R2 l.
Proof.
  intros HR. split; induction 1; constructor; try done;
    eapply Forall_impl; try eassumption; intros ?; apply HR.
Qed.

(** The merge sort of the keys is one of the slices the sort can leave. *)
Lemma sortKeys_SortedKeys (h : gmap string float64) : SortedKeys h (sortKeys h).
Proof.
  split; [apply merge_sort_Permutation|].
  apply (StronglySorted_iff _ notAfter); [apply not_less_notAfter|].
  apply StronglySorted_merge_sort; apply _.
Qed.

(** When the labels have pairwise different bounds there is one such slice. *)
Lemma SortedKeys_unique (h : gmap string float64) (ks ks' : list string) :
  NoDup (parseBucketUpperBoundMs <$> ks) →
  SortedKeys h ks → SortedKeys h ks' → ks' = ks.
Proof.
  intros Hnd [Hp Hs] [Hp' Hs'].
  apply (StronglySorted_unique_strong (λ a b, ¬ less b a)); [|done|done|by rewrite Hp, Hp'].
  intros x1 x2 Hx1 Hx2 H12%not_less_notAfter H21%not_less_notAfter.
  assert (parseBucketUpperBoundMs x1 = parseBucketUpperBoundMs x2) as Heq
    by (by apply (anti_symm Qcle)).
  rewrite Hp', <-Hp in Hx1.
  apply list_elem_of_lookup in Hx1 as [i Hi], Hx2 as [j Hj].
  assert (i = j) as ->; [|congruence].
  eapply NoDup_lookup; [done| |]; rewrite list_lookup_fmap.
  - by rewrite Hi.
  - rewrite Hj. simpl. by rewrite Heq.
Qed.

Lemma SortedKeys_sorted (h : gmap string float64) (ks : list string) :
  SortedKeys h ks → StronglySorted notAfter ks.
Proof. intros [_ Hs]. by apply (StronglySorted_iff _ _ _ not_less_notAfter). Qed.


Lemma updateHistograms_outcome (hist : Histogram) (inst : string) (r : registry) :
  updateHistogramsTo hist inst r (updateHistograms hist inst r).
Proof.
  exists (sortKeys (WriteDurationHistogram hist)),
         (sortKeys (CycleExtensionDurationHistogram hist)).
  split_and!; [apply sortKeys_SortedKeys..|done].
Qed.

(** ** The bucket loops *)

Lemma applyCumulative_cons (kind : histKind) (inst : string) (r : registry)
    (bc : float64 * float64) (cs : list (float64 * float64)) :
  applyCumulative kind inst r (bc :: cs)
    = applyCumulative kind inst (applyBucket kind inst (FormatFloat bc.1) bc.2 r) cs.
Proof. done. Qed.

Lemma applyCumulative_mono (kind : histKind) (inst : string) (r : registry)
    (cs : list (float64 * float64)) (lvs : string * string) :
  exported (bucketVec kind r) lvs
    ≤ exported (bucketVec kind (applyCumulative kind inst r cs)) lvs.
Proof.
  revert r. induction cs as [|bc cs IH]; intros r; [apply Qcle_refl|].
  rewrite applyCumulative_cons. eapply Qcle_trans; [|apply IH].
  apply applyBucket_mono.
Qed.

Lemma applyCumulative_other (kind : histKind) (inst : string) (r : registry)
    (cs : list (float64 * float64)) :
  let r' := applyCumulative kind inst r cs in
  (∀ kind', kind' ≠ kind → sameView kind' r' r) ∧
  crbMetrics r' = crbMetrics r ∧ crbGauges r' = crbGauges r ∧
  previousCounterValues r' = previousCounterValues r.
Proof.
  revert r. induction cs as [|bc cs IH]; intros r; [done|].
  rewrite applyCumulative_cons. cbv zeta.
  destruct (IH (applyBucket kind inst (FormatFloat bc.1) bc.2 r))
    as (Hk & -> & -> & ->).
  destruct (applyBucket_other kind inst (FormatFloat bc.1) bc.2 r)
    as (Hk' & -> & -> & ->).
  split_and!; try done.
  intros kind' Hne. destruct (Hk kind' Hne) as [Hv Hp], (Hk' kind' Hne) as [Hv' Hp'].
  split; [by rewrite Hv, Hv'|]. intros key. by rewrite Hp, Hp'.
Qed.

Lemma cumulativeFrom_labels (c0 : float64) (h : gmap string float64)
    (ks : list string) :
  (λ bc, FormatFloat bc.1) <$> cumulativeFrom c0 h ks = leOf <$> ks.
Proof.
  revert c0. induction ks as [|k ks IH]; intros c0; [done|].
  cbn [cumulativeFrom]. rewrite !fmap_cons. by rewrite IH.
Qed.

(** Each kind's part of [updateHistogramsWith] is its own loop, run from a
    registry with the same series and previous values as the start. *)
Lemma updateHistogramsWith_kind (kind : histKind) (wk ck : list string)
    (hist : Histogram) (inst : string) (r : registry) :
  ∃ r0, sameView kind r0 r ∧
        sameView kind (updateHistogramsWith wk ck hist inst r)
          (bucketLoop kind (histOf kind hist) inst (keysOf kind wk ck) r0).
Proof.
  unfold updateHistogramsWith. destruct kind; simpl.
  - exists r. split; [done|].
    rewrite (bucketLoop_cumulative cycle).
    by apply applyCumulative_other.
  - exists (bucketLoop write (WriteDurationHistogram hist) inst wk r).
    split; [|done].
    rewrite (bucketLoop_cumulative write). by apply applyCumulative_other.
Qed.

Lemma updateHistogramsWith_scalars (wk ck : list string) (hist : Histogram)
    (inst : string) (r : registry) :
  let r' := updateHistogramsWith wk ck hist inst r in
  crbMetrics r' = crbMetrics r ∧ crbGauges r' = crbGauges r ∧
  previousCounterValues r' = previousCounterValues r.
Proof.
  unfold updateHistogramsWith. rewrite !bucketLoop_cumulative. cbv zeta.
  destruct (applyCumulative_other cycle inst
              (applyCumulative write inst r
                 (cumulativeSeq (WriteDurationHistogram hist) wk))
              (cumulativeSeq (CycleExtensionDurationHistogram hist) ck))
    as (_ & -> & -> & ->).
  by destruct (applyCumulative_other write inst r
                 (cumulativeSeq (WriteDurationHistogram hist) wk))
    as (_ & -> & -> & ->).
Qed.

Lemma updateHistogramsWith_mono (wk ck : list string) (hist : Histogram)
    (inst : string) (r : registry) (kind : histKind) (lvs : string * string) :
  exported (bucketVec kind r) lvs
    ≤ exported (bucketVec kind (updateHistogramsWith wk ck hist inst r)) lvs.
Proof.
  destruct (updateHistogramsWith_kind kind wk ck hist inst r)
    as (r0 & [Hv0 _] & [Hv _]).
  rewrite Hv, <-Hv0, bucketLoop_cumulative. apply applyCumulative_mono.
Qed.

Lemma getPreviousBucketValue_prevBuckets (kind : histKind) (key : string)
    (r : registry) :
  getPreviousBucketValue (kindName kind) key r = prevBuckets kind r !!! key.
Proof. by destruct kind. Qed.

(** ** The cumulative-histogram property *)




Lemma map_Forall_nonneg (h : gmap string float64) (k : string) :
  map_Forall (λ _ c, 0 ≤ c) h → 0 ≤ h !!! k.
Proof.
  intros Hall. rewrite lookup_total_alt.
  destruct (h !! k) as [c|] eqn:Hk; simpl; [by apply (Hall k)|apply Qcle_refl].
Qed.

Lemma StronglySorted_lookup_lt {A} (R : relation A) (l : list A)
    (i j : nat) (x y : A) :
  StronglySorted R l → l !! i = Some x → l !! j = Some y → (i < j)%nat → R x y.
Proof.
  intros Hs. revert i j. induction Hs as [|z l Hs IH Hall]; intros i j Hi Hj Hij;
    [done|].
  destruct i as [|i], j as [|j]; try lia; simpl in *.
  - injection Hi as ->. rewrite Forall_forall in Hall. apply Hall.
    by eapply list_elem_of_lookup_2.
  - apply (IH i j); auto with lia.
Qed.

(** ** The loop at one boundary label *)

Lemma lastCum_None (le : string) (cs : list (float64 * float64)) :
  le ∉ (λ bc, FormatFloat bc.1) <$> cs → lastCum le cs = None.
Proof.
  induction cs as [|bc cs IH]; [done|].
  rewrite fmap_cons, not_elem_of_cons. intros [Hne Hnot].
  simpl. rewrite (IH Hnot). by rewrite decide_False.
Qed.

(** The last count for a label sits at the last index that carries it. *)
Lemma lastCum_lookup (le : string) (cs : list (float64 * float64)) :
  le ∈ (λ bc, FormatFloat bc.1) <$> cs →
  ∃ j b c,
    cs !! j = Some (b, c) ∧ FormatFloat b = le ∧ lastCum le cs = Some c ∧
    ∀ j' bc', (j < j')%nat → cs !! j' = Some bc' → FormatFloat bc'.1 ≠ le.
Proof.
  induction cs as [|[b0 c0] cs IH]; [by intros ?%elem_of_nil|].
  rewrite fmap_cons. intros Hin.
  destruct (decide (le ∈ (λ bc, FormatFloat bc.1) <$> cs)) as [Hle|Hle].
  - destruct (IH Hle) as (j & b & c & Hj & Hb & Hc & Hlast).
    exists (S j), b, c. split_and!; [done|done|by simpl; rewrite Hc|].
    intros [|j'] bc' Hlt Hj'; [lia|]. apply (Hlast j' bc'); [lia|done].
  - apply elem_of_cons in Hin as [Heq|?]; [|done]. simpl in Heq.
    exists 0%nat, b0, c0. split_and!; [done|done| |].
    + simpl. rewrite (lastCum_None _ _ Hle). by rewrite decide_True.
    + intros [|j'] bc' Hlt Hj'; [lia|]. simpl in Hj'. intros Hbc. apply Hle.
      rewrite <-Hbc. apply list_elem_of_fmap. exists bc'. split; [done|].
      by eapply list_elem_of_lookup_2.
Qed.

Lemma exported_frame (v1 v2 : gmap (string * string) float64)
    (lvs : string * string) :
  v1 !! lvs = v2 !! lvs → exported v1 lvs = exported v2 lvs.
Proof. intros Heq. unfold exported. by rewrite !lookup_total_alt, Heq. Qed.




(** ** The cumulative count at a bound *)

Lemma sumCounts_cons (h : gmap string float64) (k : string) (ks : list string) :
  sumCounts h (k :: ks) = h !!! k + sumCounts h ks.
Proof. done. Qed.

Global Instance sumCounts_Permutation (h : gmap string float64) :
  Proper ((≡ₚ) ==> (=)) (sumCounts h).
Proof.
  intros l1 l2 Hp. induction Hp as [|x l1 l2 _ IH|x y l|l1 l2 l3 _ IH1 _ IH2].
  - done.
  - by rewrite !sumCounts_cons, IH.
  - rewrite !sumCounts_cons. generalize (sumCounts h l), (h !!! x), (h !!! y).
    intros s a b. ring.
  - by rewrite IH1.
Qed.

Lemma filter_all {A} (P : A → Prop) `{!∀ x, Decision (P x)} (l : list A) :
  Forall P l → filter P l = l.
Proof.
  induction 1 as [|x l Hx _ IH]; [done|].
  by rewrite filter_cons, decide_True, IH.
Qed.

Lemma filter_none {A} (P : A → Prop) `{!∀ x, Decision (P x)} (l : list A) :
  Forall (λ x, ¬ P x) l → filter P l = [].
Proof.
  induction 1 as [|x l Hx _ IH]; [done|].
  by rewrite filter_cons, decide_False, IH.
Qed.

(** In a sorted slice the labels with a bound up to that of the label at
    [j] are the first [j + 1], when no later label has the same bound. *)
Lemma sorted_filter_take (ks : list string) (j : nat) (k : string) :
  StronglySorted notAfter ks → ks !! j = Some k →
  (∀ j' k', (j < j')%nat → ks !! j' = Some k' →
     parseBucketUpperBoundMs k' ≠ parseBucketUpperBoundMs k) →
  filter (λ x, parseBucketUpperBoundMs x ≤ parseBucketUpperBoundMs k) ks
    = take (S j) ks.
Proof.
  intros Hs Hj Hlast.
  rewrite <-(take_drop (S j) ks) at 1. rewrite filter_app.
  rewrite filter_all, filter_none; [by rewrite app_nil_r| |].
  - apply Forall_forall. intros x [i Hi]%list_elem_of_lookup.
    rewrite lookup_drop in Hi.
    assert (notAfter k x) as Hkx
      by (apply (StronglySorted_lookup_lt _ _ j (S j + i) k x Hs); auto with lia).
    intros Hxk. apply (Hlast (S j + i)%nat x); [lia|done|].
    by apply (anti_symm Qcle).
  - apply Forall_forall. intros x [i Hi]%list_elem_of_lookup.
    apply lookup_take_Some in Hi as [Hi Hlt].
    destruct (decide (i = j)) as [->|Hne].
    + rewrite Hj in Hi. injection Hi as ->. apply Qcle_refl.
    + apply (StronglySorted_lookup_lt _ _ i j x k Hs); auto with lia.
Qed.

Lemma SortedKeys_elem (h : gmap string float64) (ks : list string) (k : string) :
  SortedKeys h ks → k ∈ ks ↔ is_Some (h !! k).
Proof.
  intros [Hp _]. rewrite Hp, list_elem_of_fmap. split.
  - intros ([k' c] & -> & Hin%elem_of_map_to_list). by eexists.
  - intros [c Hc]. exists (k, c). by rewrite elem_of_map_to_list.
Qed.

Lemma cumulativeAt_slice (h : gmap string float64) (ks : list string) (b : float64) :
  SortedKeys h ks →
  cumulativeAt h b = sumCounts h (filter (λ k, parseBucketUpperBoundMs k ≤ b) ks).
Proof. intros [Hp _]. unfold cumulativeAt. by rewrite Hp. Qed.


Lemma cumulativeFrom_length (c0 : float64) (h : gmap string float64)
    (ks : list string) : length (cumulativeFrom c0 h ks) = length ks.
Proof. revert c0. induction ks as [|k ks IH]; intros c0; simpl; by rewrite ?IH. Qed.

(** The last count the sequence of a sorted slice holds for the label of
    [k] is the cumulative count of the response at the bound of [k]. *)
Lemma lastCum_cumulativeAt (h : gmap string float64) (ks : list string) (k : string) :
  SortedKeys h ks → is_Some (h !! k) →
  lastCum (leOf k) (cumulativeSeq h ks)
    = Some (cumulativeAt h (parseBucketUpperBoundMs k)).
Proof.
  intros Hks Hk.
  destruct (lastCum_lookup (leOf k) (cumulativeSeq h ks))
    as (j & b & c & Hj & Hb & -> & Hlast).
  { unfold cumulativeSeq. rewrite cumulativeFrom_labels.
    apply list_elem_of_fmap_2. by apply (SortedKeys_elem h ks k Hks). }
  f_equal.
  assert (is_Some (ks !! j)) as [k' Hk'].
  { apply lookup_lt_is_Some. rewrite <-(cumulativeFrom_length 0 h).
    apply lookup_lt_is_Some. by eexists. }
  unfold cumulativeSeq in Hj.
  rewrite (cumulativeFrom_lookup _ _ _ _ _ Hk'), Qcplus_0_l in Hj.
  injection Hj as <- <-.
  assert (parseBucketUpperBoundMs k' = parseBucketUpperBoundMs k) as Hbk
    by by apply leOf_bound.
  rewrite (cumulativeAt_slice h ks _ Hks), <-Hbk.
  rewrite (sorted_filter_take ks j k'); [done|by apply (SortedKeys_sorted h)|done|].
  intros j' k'' Hlt Hj' Heq.
  apply (Hlast j' (parseBucketUpperBoundMs k'',
                   sumCounts h (take (S j') ks))); [done| |].
  - unfold cumulativeSeq.
    by rewrite (cumulativeFrom_lookup _ _ _ _ _ Hj'), Qcplus_0_l.
  - cbn [fst]. rewrite <-Hb. by rewrite Heq.
Qed.



Lemma updateHistogramsTo_slice (kind : histKind) (hist : Histogram)
    (inst : string) (r r' : registry) :
  updateHistogramsTo hist inst r r' →
  ∃ ks r0,
    SortedKeys (histOf kind hist) ks ∧ sameView kind r0 r ∧
    sameView kind r'
      (applyCumulative kind inst r0 (cumulativeSeq (histOf kind hist) ks)).
Proof.
  intros (wk & ck & Hwk & Hck & ->).
  destruct (updateHistogramsWith_kind kind wk ck hist inst r) as (r0 & H0 & H1).
  exists (keysOf kind wk ck), r0. rewrite <-bucketLoop_cumulative.
  split_and!; [by destruct kind|done..].
Qed.



(** ** The fetch cycle *)

Section cycle.
Context `{JSONNumber}.

Lemma updateCRBMetrics_malformed (data : gmap string value) (inst : string)
    (r : registry) :
  (∀ pd, data !! "performanceMetrics" ≠ Some (Object pd)) →
  updateCRBMetrics data inst r = r.
Proof.
  intros Hno. unfold updateCRBMetrics.
  destruct (data !! "performanceMetrics") as [[]|]; try done.
  by destruct (Hno m).
Qed.

Lemma updateDesc_buckets (pd : gmap string value) (inst : string)
    (r : registry) (desc : metricDesc) (kind : histKind) :
  bucketVec kind (updateDesc pd inst r desc) = bucketVec kind r ∧
  prevBuckets kind (updateDesc pd inst r desc) = prevBuckets kind r.
Proof.
  unfold updateDesc. destruct (getNestedValue pd (JSONName desc)); [|done].
  destruct (Typ desc); [|by destruct kind]. cbv zeta.
  destruct (decide _); by destruct kind.
Qed.

(** The scalar update never touches the histogram state. *)
Lemma updateCRBMetrics_buckets (data : gmap string value) (inst : string)
    (r : registry) (kind : histKind) :
  bucketVec kind (updateCRBMetrics data inst r) = bucketVec kind r ∧
  prevBuckets kind (updateCRBMetrics data inst r) = prevBuckets kind r.
Proof.
  unfold updateCRBMetrics.
  destruct (data !! "performanceMetrics") as [[]|]; try done.
  generalize crbMetricDescs. intros descs. revert r.
  induction descs as [|desc descs IH]; intros r; [done|].
  simpl. destruct (IH (updateDesc m inst r desc)) as [-> ->].
  apply updateDesc_buckets.
Qed.

Lemma loggedIn_authenticated (io : replies) (s : session) :
  loginSucceeds io s → authenticated (loggedIn io s) = true.
Proof.
  unfold loginSucceeds, loggedIn, needsLogin.
  destruct (authenticated s) eqn:Ha; simpl.
  - destruct (String.eqb (token s) ""); [|done].
    by intros [t ->].
  - by intros [t ->].
Qed.

(** A cycle whose login and histogram request succeed reaches the scalar
    step with the logged-in session and the histogram update applied. *)
Lemma cycleBody_reaches_stats (inst : string) (io : replies) (s : session)
    (r : registry) :
  loginSucceeds io s → histogramReply io ≠ RequestFailed →
  cycleBody inst io s r
    = let '(s3, r3, _) :=
        afterStats inst (statsReply io) (loggedIn io s) (histogramsOnly inst io r)
      in (s3, r3).
Proof.
  unfold loginSucceeds, cycleBody, loggedIn, histogramsOnly.
  intros Hlogin Hhist.
  destruct (needsLogin s).
  - destruct (Hlogin eq_refl) as [t ->]. simpl.
    by destruct (histogramReply io).
  - by destruct (histogramReply io).
Qed.

End cycle.

(** ** The overlap guard *)

Section guard.
Context `{JSONNumber}.

Lemma isAt_lookup (c : collector) (j : nat) (p : pc) :
  isAt c j p = true → cycles c !! j = Some p.
Proof. unfold isAt. by destruct (cycles c !! j) as [[]|], p. Qed.

Lemma guarded_at (c : collector) (j : nat) (p : pc) :
  guarded c → cycles c !! j = Some p →
  running c = 1%Z ∧ j = 0%nat ∧ cycles c = [p].
Proof.
  intros [[_ Hc]|[Hr [p' Hc]]] Hj; rewrite Hc in Hj; [done|].
  destruct j; [|done]. injection Hj as ->. done.
Qed.

Lemma guarded_moveTo (c : collector) (j : nat) (s : session) (p p' : pc) :
  guarded c → cycles c !! j = Some p → guarded (moveTo c j s p').
Proof.
  intros Hg Hj. destruct (guarded_at c j p Hg Hj) as (Hr & -> & Hc).
  right. unfold moveTo; simpl. rewrite Hc. eauto.
Qed.

(** Every event keeps a collector guarded. *)
Lemma fire_guarded (c c' : collector) (r r' : registry) (e : event) :
  guarded c → fire c r e = Some (c', r') → guarded c'.
Proof.
  intros Hg. destruct e as [|j|j res|j res wk ck|j res|j]; simpl.
  - intros [= <- <-]. unfold tick.
    destruct Hg as [[Hr Hc]|[Hr Hc]]; rewrite Hr; simpl; [|by right].
    right. rewrite Hc. simpl. eauto.
  - destruct (isAt c j AtLogin) eqn:Hat; [|done].
    destruct (negb _); [|done]. intros [= <- <-].
    eapply guarded_moveTo; eauto using isAt_lookup.
  - destruct (isAt c j AtLogin) eqn:Hat; [|done].
    destruct (needsLogin _); [|done]. simpl. destruct (afterLogin res).
    intros [= <- <-]. eapply guarded_moveTo; eauto using isAt_lookup.
  - destruct (isAt c j AtHistogram) eqn:Hat; [|done].
    destruct (afterHistogram _ _ _ _ _ _) as [[s1 r1] p1].
    intros [= <- <-]. eapply guarded_moveTo; eauto using isAt_lookup.
  - destruct (isAt c j AtStats) eqn:Hat; [|done].
    destruct (afterStats _ _ _ _) as [[s1 r1] p1].
    intros [= <- <-]. eapply guarded_moveTo; eauto using isAt_lookup.
  - destruct (isAt c j AtExit) eqn:Hat; [|done]. intros [= <- <-].
    destruct (guarded_at c j AtExit Hg (isAt_lookup _ _ _ Hat)) as (Hr & -> & Hc).
    left. simpl. by rewrite Hc.
Qed.

Lemma reachable_guarded (vplcList : list string) (s : system) :
  reachable vplcList s → Forall guarded (collectors s).
Proof.
  induction 1 as [|s l s' _ IH Hstep].
  - simpl. apply Forall_fmap, Forall_forall. intros name _. by left.
  - destruct Hstep as [s i e c c' r' Hi _ Hfire]. simpl.
    apply Forall_insert; [done|].
    eapply fire_guarded; [|done]. by eapply Forall_lookup_1.
Qed.

Lemma tick_in_flight (c : collector) : guarded c → cycles c ≠ [] → tick c = c.
Proof.
  intros [[_ Hc]|[Hr _]] Hne; [done|]. unfold tick. by rewrite Hr.
Qed.

Lemma fire_idle (c : collector) (r : registry) (e : event) :
  cycles c = [] → is_Some (fire c r e) → e = Tick.
Proof.
  intros Hc [x Hx]. destruct e as [|j|j res|j res wk ck|j res|j]; [done|..];
    simpl in Hx; unfold isAt in Hx; rewrite Hc in Hx; done.
Qed.

End guard.

Lemma tickedSystem_reachable : @reachable plainDecimal ["plc1"] tickedSystem.
Proof.
  apply (reachable_step _ (initSystem ["plc1"]) (0%nat, Tick));
    [apply reachable_init|].
  by apply (@step_fire plainDecimal (initSystem ["plc1"]) 0 Tick (idle "plc1")
              (tick (idle "plc1")) initRegistry).
Qed.


(** ** Exported values along the steps of the system *)

Section along.
Context `{JSONNumber}.

(** No event lowers an exported counter or bucket count. *)
Lemma fire_mono (c c' : collector) (r r' : registry) (e : event) :
  fire c r e = Some (c', r') →
  (∀ lvs, exported (crbMetrics r) lvs ≤ exported (crbMetrics r') lvs) ∧
  (∀ kind lvs, exported (bucketVec kind r) lvs ≤ exported (bucketVec kind r') lvs).
Proof.
  assert (∀ r0 : registry,
            (∀ lvs, exported (crbMetrics r0) lvs ≤ exported (crbMetrics r0) lvs) ∧
            (∀ kind lvs, exported (bucketVec kind r0) lvs
                           ≤ exported (bucketVec kind r0) lvs)) as Hrefl
    by (intros; split; intros; apply Qcle_refl).
  destruct e as [|j|j res|j res wk ck|j res|j]; simpl.
  - by intros [= <- <-].
  - destruct (_ && _); [|done]. by intros [= <- <-].
  - destruct (_ && _); [|done]. destruct (afterLogin res). by intros [= <- <-].
  - destruct (isAt c j AtHistogram); [|done].
    destruct res as [| |hist]; simpl; intros [= <- <-]; try done.
    split.
    + intros lvs.
      destruct (updateHistogramsWith_scalars wk ck hist (vplc_instance c) r)
        as (-> & _). apply Qcle_refl.
    + intros kind lvs. apply updateHistogramsWith_mono.
  - destruct (isAt c j AtStats); [|done].
    destruct res as [| |crb]; simpl; intros [= <- <-]; try done.
    split.
    + intros lvs. apply updateCRBMetrics_mono.
    + intros kind lvs.
      destruct (updateCRBMetrics_buckets crb (vplc_instance c) r kind) as [-> _].
      apply Qcle_refl.
  - destruct (isAt c j AtExit); [|done]. by intros [= <- <-].
Qed.

Lemma run_mono (s s' : system) :
  run s s' →
  (∀ lvs, exported (crbMetrics (reg s)) lvs ≤ exported (crbMetrics (reg s')) lvs) ∧
  (∀ kind lvs, exported (bucketVec kind (reg s)) lvs
                 ≤ exported (bucketVec kind (reg s')) lvs).
Proof.
  induction 1 as [s|s l s' s'' _ [IH1 IH2] Hstep].
  - split; intros; apply Qcle_refl.
  - destruct Hstep as [s' i e c c' r' _ _ Hfire]. simpl.
    destruct (fire_mono c c' (reg s') r' e Hfire) as [H1 H2].
    split; intros; eapply Qcle_trans; eauto.
Qed.

(** A malformed scalar document, when it arrives, changes neither the
    registry nor the session. *)
Lemma fire_malformed (c c' : collector) (r r' : registry) (j : nat)
    (res : fetched (gmap string value)) :
  malformed res → fire c r (GetStats j res) = Some (c', r') →
  r' = r ∧ sess c' = sess c.
Proof.
  intros Hbad. simpl. destruct (isAt c j AtStats); [|done].
  destruct Hbad as [->|(crb & -> & Hno)]; simpl.
  - by intros [= <- <-].
  - rewrite updateCRBMetrics_malformed by done. by intros [= <- <-].
Qed.

(** An unparsable histogram body, when it arrives, changes neither. *)
Lemma fire_unparsable (c c' : collector) (r r' : registry) (j : nat)
    (wk ck : list string) :
  fire c r (GetHistogram j Unparsable wk ck) = Some (c', r') →
  r' = r ∧ sess c' = sess c.
Proof. simpl. destruct (isAt c j AtHistogram); [|done]. by intros [= <- <-]. Qed.

End along.

(** * Proofs for the further parts *)

(** ** Reading back what FormatFloat prints *)





Lemma digitsValue_append (a b : string) (acc : Z) :
  digitsValue acc (a +:+ b) = digitsValue (digitsValue acc a) b.
Proof. revert acc. induction a as [|c a IH]; intros acc; [done|]. rewrite append_cons. simpl. apply IH. Qed.

Lemma showFrac_Digits (k : nat) (fp : Z) :
  (0 ≤ fp < 10 ^ Z.of_nat (S k))%Z → Digits (showFrac (S k) fp).
Proof.
  revert fp. induction k as [|k IH]; intros fp Hfp.
  - cbn [showFrac]. constructor. apply digitChar_spec.
    change (10 ^ Z.of_nat 0)%Z with 1%Z. rewrite Z.div_1_r. simpl in Hfp. lia.
  - assert (0 < 10 ^ Z.of_nat (S k))%Z as Hpos by (apply Z.pow_pos_nonneg; lia).
    assert (10 ^ Z.of_nat (S (S k)) = 10 * 10 ^ Z.of_nat (S k))%Z as Hpow
      by (rewrite (Nat2Z.inj_succ (S k)), Z.pow_succ_r; lia).
    change (showFrac (S (S k)) fp)
      with (String (digitChar (fp / 10 ^ Z.of_nat (S k))%Z)
              (showFrac (S k) (fp mod 10 ^ Z.of_nat (S k))%Z)).
    constructor.
    + apply digitChar_spec. split; [apply Z.div_pos; lia|].
      assert (fp / 10 ^ Z.of_nat (S k) < 10)%Z; [|lia].
      apply Z.div_lt_upper_bound; lia.
    + apply IH. apply Z.mod_pos_bound. lia.
Qed.




Lemma Qred_den_divide (n : Z) (p : positive) :
  (Z.pos (Qden (Qred (n # p))) | Z.pos p)%Z.
Proof.
  unfold Qred.
  pose proof (Z.ggcd_correct_divisors n (Z.pos p)) as Hc.
  pose proof (Z.ggcd_gcd n (Z.pos p)) as Hg.
  pose proof (Z.gcd_nonneg n (Z.pos p)) as Hnn.
  destruct (Z.ggcd n (Z.pos p)) as [g [r1 r2]]. simpl in *.
  destruct Hc as [_ Hp]. subst g.
  assert (0 < r2)%Z by nia.
  rewrite Z2Pos.id by done. exists (Z.gcd n (Z.pos p)). lia.
Qed.

(** The values [ParseFloat] yields: not negative, with a finite decimal
    expansion. *)
Lemma Q2Qc_decimal (n : Z) (j : nat) :
  (0 ≤ n)%Z →
  let x := Q2Qc (n # Z.to_pos (10 ^ Z.of_nat j)) in
  (0 ≤ Qnum (this x))%Z ∧ (Z.pos (Qden (this x)) | 10 ^ Z.of_nat j)%Z.
Proof.
  intros Hn x. split.
  - assert (0 ≤ x) as Hx.
    { unfold x, Qcle. cbn [this Q2Qc]. rewrite !Qred_correct.
      unfold Qle. cbn [Qnum Qden inject_Z]. lia. }
    clearbody x. unfold Qcle, Qle in Hx. change (0 * QDen x ≤ Qnum x * 1)%Z in Hx. lia.
  - assert (0 < 10 ^ Z.of_nat j)%Z as Hpos by (apply Z.pow_pos_nonneg; lia).
    unfold x. cbn [this Q2Qc].
    pose proof (Qred_den_divide n (Z.to_pos (10 ^ Z.of_nat j))) as Hd.
    by rewrite Z2Pos.id in Hd.
Qed.

Lemma digitsValue_nonneg (ds : string) (acc : Z) :
  (0 ≤ acc)%Z → ds = "" ∨ Digits ds → (0 ≤ digitsValue acc ds)%Z.
Proof.
  intros Hacc [->|Hds]; [done|]. revert acc Hacc.
  induction Hds as [c Hc|c ds Hc _ IH]; intros acc Hacc; simpl.
  - unfold digitVal, isDigit in *. apply andb_true_iff in Hc as [?%N.leb_le _]. lia.
  - apply IH. unfold digitVal, isDigit in *. apply andb_true_iff in Hc as [?%N.leb_le _]. lia.
Qed.

Lemma ParseFloat_decimal (s : string) (v : float64) :
  ParseFloat s = Some v →
  (0 ≤ Qnum (this v))%Z ∧ ∃ j : nat, (Z.pos (Qden (this v)) | 10 ^ Z.of_nat j)%Z.
Proof.
  unfold ParseFloat.
  destruct (spanDigits s) as [ds r] eqn:Hs.
  apply spanDigits_sound in Hs as (_ & Hds & _).
  destruct (isEmpty ds); [done|].
  destruct r as [|c r1].
  - intros [= <-].
    destruct (Q2Qc_decimal (digitsValue 0 ds) 0) as [H1 H2];
      [by apply digitsValue_nonneg|].
    split; [done|by exists 0%nat].
  - destruct (spanDigits r1) as [fs r2] eqn:Hf.
    apply spanDigits_sound in Hf as (_ & Hfs & _).
    destruct (_ || _); [done|]. intros [= <-].
    destruct (Q2Qc_decimal (digitsValue 0 (ds +:+ fs)) (String.length fs)) as [H1 H2].
    { rewrite digitsValue_append. apply digitsValue_nonneg; [|done].
      by apply digitsValue_nonneg. }
    split; [done|by eexists].
Qed.



Lemma parseBucketUpperBoundMs_decimal (label : string) :
  (0 ≤ Qnum (this (parseBucketUpperBoundMs label)))%Z ∧
  ∃ j : nat, (Z.pos (Qden (this (parseBucketUpperBoundMs label))) | 10 ^ Z.of_nat j)%Z.
Proof.
  unfold parseBucketUpperBoundMs.
  destruct (FindStringSubmatch label) as [[m1 plus]|]; [|by split; [|exists 0%nat]].
  destruct plus; [by split; [|exists 0%nat]|].
  destruct (ParseFloat m1) as [v|] eqn:Hv; [|by split; [|exists 0%nat]].
  by apply ParseFloat_decimal in Hv.
Qed.

(** ** Split and Join *)

Lemma Split_no_slash (s : string) : occurs "/" s = false → Split s = [s].
Proof.
  induction s as [|c s IH]; [done|]. cbn [occurs].
  intros [Hc Hs]%orb_false_iff. specialize (IH Hs).
  cbn [Split]. rewrite Hc, IH. done.
Qed.

Lemma Split_append (part rest : string) :
  occurs "/" part = false →
  Split (part +:+ "/" +:+ rest) = part :: Split rest.
Proof.
  induction part as [|c part IH]; [done|]. cbn [occurs].
  intros [Hc Hs]%orb_false_iff. specialize (IH Hs).
  rewrite append_cons. cbn [Split]. rewrite Hc, IH. done.
Qed.

Lemma Split_segments (path : string) :
  Forall (λ part, occurs "/" part = false) (Split path).
Proof.
  induction path as [|c path IH]; [by repeat constructor|].
  cbn [Split]. destruct (Ascii.eqb c "/") eqn:Hc; [by constructor|].
  pose proof (Split_nonempty path) as Hne.
  destruct (Split path) as [|h t]; [done|].
  apply Forall_cons in IH as [Hh Ht]. constructor; [|done].
  cbn [occurs]. by rewrite Hc, Hh.
Qed.

Lemma Join_Split (path : string) : Join (Split path) = path.
Proof.
  induction path as [|c path IH]; [done|].
  cbn [Split]. destruct (Ascii.eqb_spec c "/") as [->|Hc].
  - pose proof (Split_nonempty path) as Hne.
    cbn [Join]. destruct (Split path) as [|h t] eqn:Hs; [done|].
    by rewrite IH.
  - pose proof (Split_nonempty path) as Hne.
    destruct (Split path) as [|h t] eqn:Hs; [done|].
    rewrite <-IH. by destruct t.
Qed.

Lemma Split_Join (parts : list string) :
  parts ≠ [] → Forall (λ part, occurs "/" part = false) parts →
  Split (Join parts) = parts.
Proof.
  induction parts as [|p ps IH]; [done|]. intros _ [Hp Hps]%Forall_cons.
  destruct ps as [|p' ps].
  - by apply Split_no_slash.
  - change (Join (p :: p' :: ps)) with (p +:+ "/" +:+ Join (p' :: ps)).
    rewrite Split_append by done. by rewrite IH.
Qed.

(** ** The label of a bucket *)



Lemma parseBucketUpperBoundMs_nonneg_aux (label : string) :
  0 ≤ parseBucketUpperBoundMs label.
Proof.
  destruct (parseBucketUpperBoundMs_decimal label) as [Hn _].
  unfold Qcle, Qle. change (0 * QDen (parseBucketUpperBoundMs label)
                            ≤ Qnum (parseBucketUpperBoundMs label) * 1)%Z. lia.
Qed.

(** ** The registry, field by field *)

Lemma registry_eq (r1 r2 : registry) :
  crbMetrics r1 = crbMetrics r2 → crbGauges r1 = crbGauges r2 →
  writeDurationBuckets r1 = writeDurationBuckets r2 →
  cycleExtensionBuckets r1 = cycleExtensionBuckets r2 →
  previousCounterValues r1 = previousCounterValues r2 →
  prevWriteBuckets r1 = prevWriteBuckets r2 →
  prevCycleBuckets r1 = prevCycleBuckets r2 →
  r1 = r2.
Proof. destruct r1, r2. simpl. by intros -> -> -> -> -> -> ->. Qed.

Lemma Add_insert (lvs : string * string) (delta : float64)
    (vec : gmap (string * string) float64) :
  Add lvs delta vec = <[lvs := vec !!! lvs + delta]> vec.
Proof.
  unfold Add, WithLabelValues. destruct (vec !! lvs); [done|].
  by rewrite insert_insert_eq.
Qed.

Section fields.
Context `{JSONNumber}.

(** The counter vector after [updateDesc]. *)
Lemma crbMetrics_updateDesc (pd : gmap string value) (inst : string)
    (r : registry) (desc : metricDesc) :
  crbMetrics (updateDesc pd inst r desc)
    = match getNestedValue pd (JSONName desc), Typ desc with
      | Some v, counter =>
          if decide (0 < v - lastRaw r (PromName desc) inst)
          then Add (PromName desc, inst) (v - lastRaw r (PromName desc) inst)
                 (crbMetrics r)
          else crbMetrics r
      | _, _ => crbMetrics r
      end.
Proof.
  unfold updateDesc, lastRaw.
  destruct (getNestedValue pd (JSONName desc)) as [v|]; [|done].
  destruct (Typ desc); [|done]. cbv zeta.
  assert ((match previousCounterValues r !! PromName desc with
           | Some _ => previousCounterValues r
           | None => <[PromName desc := ∅]> (previousCounterValues r)
           end !!! PromName desc) = previousCounterValues r !!! PromName desc) as ->.
  { destruct (previousCounterValues r !! PromName desc) eqn:Hl; [done|].
    by rewrite lookup_total_insert_eq, lookup_total_alt, Hl. }
  by destruct (decide _).
Qed.

(** The baselines after [updateDesc]. *)
Lemma previousCounterValues_updateDesc (pd : gmap string value) (inst : string)
    (r : registry) (desc : metricDesc) :
  previousCounterValues (updateDesc pd inst r desc)
    = match getNestedValue pd (JSONName desc), Typ desc with
      | Some v, counter =>
          <[PromName desc := <[inst := v]> (previousCounterValues r !!! PromName desc)]>
            (previousCounterValues r)
      | _, _ => previousCounterValues r
      end.
Proof.
  unfold updateDesc.
  destruct (getNestedValue pd (JSONName desc)) as [v|]; [|done].
  destruct (Typ desc); [|done]. cbv zeta.
  match goal with
  | |- previousCounterValues (set_previousCounterValues ?m ?r1) = _ =>
      change (previousCounterValues (set_previousCounterValues m r1)) with m
  end.
  destruct (previousCounterValues r !! PromName desc) eqn:Hl; [done|].
  rewrite lookup_total_insert_eq, insert_insert_eq.
  by rewrite (lookup_total_alt (previousCounterValues r)), Hl.
Qed.

(** The gauge vector after [updateDesc]. *)
Lemma crbGauges_updateDesc (pd : gmap string value) (inst : string)
    (r : registry) (desc : metricDesc) :
  crbGauges (updateDesc pd inst r desc)
    = match getNestedValue pd (JSONName desc), Typ desc with
      | Some v, gauge => <[(PromName desc, inst) := v]> (crbGauges r)
      | _, _ => crbGauges r
      end.
Proof.
  unfold updateDesc.
  destruct (getNestedValue pd (JSONName desc)) as [v|]; [|done].
  destruct (Typ desc); [|done]. cbv zeta. by destruct (decide _).
Qed.

Lemma buckets_updateDesc (pd : gmap string value) (inst : string)
    (r : registry) (desc : metricDesc) :
  writeDurationBuckets (updateDesc pd inst r desc) = writeDurationBuckets r ∧
  cycleExtensionBuckets (updateDesc pd inst r desc) = cycleExtensionBuckets r ∧
  prevWriteBuckets (updateDesc pd inst r desc) = prevWriteBuckets r ∧
  prevCycleBuckets (updateDesc pd inst r desc) = prevCycleBuckets r.
Proof.
  unfold updateDesc.
  destruct (getNestedValue pd (JSONName desc)) as [v|]; [|done].
  destruct (Typ desc); [|done]. cbv zeta. by destruct (decide _).
Qed.

End fields.

(** ** Gauges *)

Section scalar_fields.
Context `{JSONNumber}.

Lemma crbGauges_foldl_frame (pd : gmap string value) (inst : string)
    (descs : list metricDesc) (r : registry) (lvs : string * string) :
  (∀ desc, desc ∈ descs → Typ desc = gauge →
     is_Some (getNestedValue pd (JSONName desc)) → (PromName desc, inst) ≠ lvs) →
  crbGauges (foldl (updateDesc pd inst) r descs) !! lvs = crbGauges r !! lvs.
Proof.
  revert r. induction descs as [|desc descs IH]; intros r Hne; [done|].
  cbn [foldl]. rewrite IH by (intros d Hd; apply Hne; by right).
  rewrite crbGauges_updateDesc.
  destruct (getNestedValue pd (JSONName desc)) as [v|] eqn:Hv; [|done].
  destruct (Typ desc) eqn:Ht; [done|].
  rewrite lookup_insert_ne; [done|]. apply Hne; [by left|done|by eexists].
Qed.

Lemma crbGauges_foldl (pd : gmap string value) (inst : string)
    (descs : list metricDesc) (r : registry) (d : metricDesc) (v : float64) :
  NoDup (PromName <$> descs) → d ∈ descs →
  Typ d = gauge → getNestedValue pd (JSONName d) = Some v →
  crbGauges (foldl (updateDesc pd inst) r descs) !! (PromName d, inst) = Some v.
Proof.
  revert r. induction descs as [|desc descs IH]; intros r Hnd Hin Ht Hv.
  { by apply elem_of_nil in Hin. }
  rewrite fmap_cons in Hnd. apply NoDup_cons in Hnd as [Hfresh Hnd].
  cbn [foldl]. apply elem_of_cons in Hin as [<-|Hin].
  - rewrite crbGauges_foldl_frame.
    + by rewrite crbGauges_updateDesc, Hv, Ht, lookup_insert_eq.
    + intros x Hx _ _ [= Heq]. apply Hfresh. rewrite <-Heq.
      by apply list_elem_of_fmap_2.
  - by apply IH.
Qed.

(** In the descriptor table a name determines the descriptor. *)
Lemma crbMetricDescs_PromName (d1 d2 : metricDesc) :
  d1 ∈ crbMetricDescs → d2 ∈ crbMetricDescs → PromName d1 = PromName d2 → d1 = d2.
Proof.
  intros H1 H2 Hname.
  repeat (apply elem_of_cons in H1 as [->|H1]);
    [..|by apply elem_of_nil in H1];
    repeat (apply elem_of_cons in H2 as [->|H2]);
    try done; by apply elem_of_nil in H2.
Qed.

Lemma updateCRBMetrics_gauge (data : gmap string value) (inst : string)
    (r : registry) (d : metricDesc) :
  d ∈ crbMetricDescs → Typ d = gauge →
  crbGauges (updateCRBMetrics data inst r) !! (PromName d, inst)
    = match reading d data with
      | Some v => Some v
      | None => crbGauges r !! (PromName d, inst)
      end.
Proof.
  intros Hin Ht. unfold reading, updateCRBMetrics.
  destruct (data !! "performanceMetrics") as [[]|]; try done.
  destruct (getNestedValue m (JSONName d)) as [v|] eqn:Hv.
  - by apply crbGauges_foldl; [apply crbMetricDescs_NoDup|..].
  - apply crbGauges_foldl_frame. intros desc Hdesc _ Hsome [= Hname].
    rewrite (crbMetricDescs_PromName desc d Hdesc Hin Hname), Hv in Hsome.
    by destruct Hsome.
Qed.

End scalar_fields.

(** ** A scalar document processed again *)

Section scalar_again.
Context `{JSONNumber}.

Lemma updateDesc_holds (pd : gmap string value) (inst : string)
    (r : registry) (desc : metricDesc) :
  holds pd inst r desc → updateDesc pd inst r desc = r.
Proof.
  unfold holds. intros Hh.
  pose proof (crbMetrics_updateDesc pd inst r desc) as Hc.
  pose proof (previousCounterValues_updateDesc pd inst r desc) as Hp.
  pose proof (crbGauges_updateDesc pd inst r desc) as Hg.
  destruct (buckets_updateDesc pd inst r desc) as (Hb1 & Hb2 & Hb3 & Hb4).
  apply registry_eq; try done.
  - rewrite Hc. destruct (getNestedValue pd (JSONName desc)) as [v|]; [|done].
    destruct (Typ desc); [|done]. destruct Hh as (m & Hm & Hv).
    assert (lastRaw r (PromName desc) inst = v) as ->.
    { unfold lastRaw. rewrite (lookup_total_alt (previousCounterValues r)), Hm.
      simpl. by rewrite lookup_total_alt, Hv. }
    rewrite decide_False; [done|]. intros Hlt. qc_lra.
  - rewrite Hg. destruct (getNestedValue pd (JSONName desc)) as [v|]; [|done].
    destruct (Typ desc); [done|]. by rewrite insert_id.
  - rewrite Hp. destruct (getNestedValue pd (JSONName desc)) as [v|]; [|done].
    destruct (Typ desc); [|done]. destruct Hh as (m & Hm & Hv).
    rewrite (lookup_total_alt (previousCounterValues r)), Hm. simpl.
    by rewrite (insert_id m), insert_id.
Qed.

Lemma holds_updateDesc_same (pd : gmap string value) (inst : string)
    (r : registry) (desc : metricDesc) :
  holds pd inst (updateDesc pd inst r desc) desc.
Proof.
  unfold holds.
  rewrite previousCounterValues_updateDesc, crbGauges_updateDesc.
  destruct (getNestedValue pd (JSONName desc)) as [v|]; [|done].
  destruct (Typ desc).
  - eexists. by rewrite !lookup_insert_eq.
  - by rewrite lookup_insert_eq.
Qed.

Lemma holds_updateDesc_other (pd : gmap string value) (inst : string)
    (r : registry) (desc d : metricDesc) :
  PromName desc ≠ PromName d →
  holds pd inst r d → holds pd inst (updateDesc pd inst r desc) d.
Proof.
  unfold holds. intros Hne.
  rewrite previousCounterValues_updateDesc, crbGauges_updateDesc.
  destruct (getNestedValue pd (JSONName d)) as [v|]; [|done].
  destruct (getNestedValue pd (JSONName desc)) as [w|]; [|done].
  destruct (Typ d), (Typ desc); try done.
  - by rewrite lookup_insert_ne.
  - rewrite lookup_insert_ne; [done|]. by intros [= ?].
Qed.

Lemma holds_foldl (pd : gmap string value) (inst : string)
    (descs : list metricDesc) (r : registry) (d : metricDesc) :
  NoDup (PromName <$> descs) →
  (d ∈ descs ∨ holds pd inst r d) →
  (∀ desc, desc ∈ descs → PromName desc = PromName d → desc = d) →
  holds pd inst (foldl (updateDesc pd inst) r descs) d.
Proof.
  revert r. induction descs as [|desc descs IH]; intros r Hnd Hd Huniq.
  { destruct Hd as [Hd|Hd]; [by apply elem_of_nil in Hd|done]. }
  rewrite fmap_cons in Hnd. apply NoDup_cons in Hnd as [Hfresh Hnd].
  cbn [foldl]. apply IH; [done| |intros x Hx; apply Huniq; by right].
  destruct (decide (PromName desc = PromName d)) as [Heq|Hne].
  - rewrite (Huniq desc) by (done || by left). right. apply holds_updateDesc_same.
  - destruct Hd as [Hd|Hd].
    + apply elem_of_cons in Hd as [->|Hd]; [done|by left].
    + right. by apply holds_updateDesc_other.
Qed.

Lemma foldl_fixed {A B} (f : A → B → A) (a : A) (l : list B) :
  (∀ b, b ∈ l → f a b = a) → foldl f a l = a.
Proof.
  induction l as [|b l IH]; intros Hf; [done|].
  cbn [foldl]. rewrite Hf by by left. apply IH. intros b' Hb'. apply Hf. by right.
Qed.

Lemma updateCRBMetrics_twice (data : gmap string value) (inst : string)
    (r : registry) :
  updateCRBMetrics data inst (updateCRBMetrics data inst r)
    = updateCRBMetrics data inst r.
Proof.
  unfold updateCRBMetrics.
  destruct (data !! "performanceMetrics") as [[]|]; try done.
  apply foldl_fixed. intros d Hd. apply updateDesc_holds.
  apply holds_foldl; [apply crbMetricDescs_NoDup|by left|].
  intros desc Hdesc. by apply crbMetricDescs_PromName.
Qed.

End scalar_again.

(** ** The scalar updates of two instances *)

Section scalar_commute.
Context `{JSONNumber}.

Lemma lastRaw_updateDesc_other (pd : gmap string value) (inst : string)
    (r : registry) (desc : metricDesc) (name inst' : string) :
  inst ≠ inst' →
  lastRaw (updateDesc pd inst r desc) name inst' = lastRaw r name inst'.
Proof.
  intros Hne. apply updateDesc_frame. intros _ _ [= _ ?]. done.
Qed.

(** The steps of two instances at the descriptors commute. *)
Lemma updateDesc_commute (pd1 pd2 : gmap string value) (inst1 inst2 : string)
    (r : registry) (d1 d2 : metricDesc) :
  inst1 ≠ inst2 →
  updateDesc pd1 inst1 (updateDesc pd2 inst2 r d2) d1
    = updateDesc pd2 inst2 (updateDesc pd1 inst1 r d1) d2.
Proof.
  intros Hne.
  destruct (buckets_updateDesc pd1 inst1 (updateDesc pd2 inst2 r d2) d1)
    as (Ha1 & Ha2 & Ha3 & Ha4).
  destruct (buckets_updateDesc pd2 inst2 (updateDesc pd1 inst1 r d1) d2)
    as (Hb1 & Hb2 & Hb3 & Hb4).
  destruct (buckets_updateDesc pd1 inst1 r d1) as (Hc1 & Hc2 & Hc3 & Hc4).
  destruct (buckets_updateDesc pd2 inst2 r d2) as (Hd1 & Hd2 & Hd3 & Hd4).
  apply registry_eq; try congruence.
  - rewrite !crbMetrics_updateDesc.
    rewrite !lastRaw_updateDesc_other by done.
    destruct (getNestedValue pd1 (JSONName d1)) as [v1|],
             (getNestedValue pd2 (JSONName d2)) as [v2|]; try done;
      destruct (Typ d1), (Typ d2); try done.
    repeat destruct (decide _); try done.
    rewrite !Add_insert.
    rewrite !lookup_total_insert_ne by (intros [= _ ?]; done).
    apply insert_insert_ne. intros [= _ ?]; done.
  - rewrite !crbGauges_updateDesc.
    destruct (getNestedValue pd1 (JSONName d1)) as [v1|],
             (getNestedValue pd2 (JSONName d2)) as [v2|]; try done;
      destruct (Typ d1), (Typ d2); try done.
    apply insert_insert_ne. intros [= _ ?]; done.
  - rewrite !previousCounterValues_updateDesc.
    destruct (getNestedValue pd1 (JSONName d1)) as [v1|],
             (getNestedValue pd2 (JSONName d2)) as [v2|]; try done;
      destruct (Typ d1), (Typ d2); try done.
    destruct (decide (PromName d1 = PromName d2)) as [->|Hn].
    + rewrite !lookup_total_insert_eq, !insert_insert_eq.
      f_equal. by apply insert_insert_ne.
    + rewrite !lookup_total_insert_ne by done. by apply insert_insert_ne.
Qed.

Lemma foldl_commute {A B C} (f : A → B → A) (g : A → C → A)
    (a : A) (bs : list B) (cs : list C) :
  (∀ a b c, f (g a c) b = g (f a b) c) →
  foldl f (foldl g a cs) bs = foldl g (foldl f a bs) cs.
Proof.
  intros Hfg. revert a. induction bs as [|b bs IH]; intros a; [done|].
  cbn [foldl]. rewrite <-IH. f_equal.
  clear IH. revert a. induction cs as [|c cs IH]; intros a; [done|].
  cbn [foldl]. by rewrite IH, Hfg.
Qed.

Lemma updateCRBMetrics_commute (data1 data2 : gmap string value)
    (inst1 inst2 : string) (r : registry) :
  inst1 ≠ inst2 →
  updateCRBMetrics data1 inst1 (updateCRBMetrics data2 inst2 r)
    = updateCRBMetrics data2 inst2 (updateCRBMetrics data1 inst1 r).
Proof.
  intros Hne. unfold updateCRBMetrics.
  destruct (data1 !! "performanceMetrics") as [[]|],
           (data2 !! "performanceMetrics") as [[]|]; try done.
  apply foldl_commute. intros a b c. by apply updateDesc_commute.
Qed.

End scalar_commute.

(** ** The bucket fields after the delta rule *)

Lemma registry_eq_kind (r1 r2 : registry) :
  crbMetrics r1 = crbMetrics r2 → crbGauges r1 = crbGauges r2 →
  previousCounterValues r1 = previousCounterValues r2 →
  (∀ kind, bucketVec kind r1 = bucketVec kind r2) →
  (∀ kind, prevBuckets kind r1 = prevBuckets kind r2) →
  r1 = r2.
Proof.
  intros H1 H2 H3 Hv Hp.
  apply registry_eq; try done;
    [apply (Hv write)|apply (Hv cycle)|apply (Hp write)|apply (Hp cycle)].
Qed.

Lemma WithLabelValues_insert (lvs : string * string)
    (vec : gmap (string * string) float64) :
  WithLabelValues lvs vec = <[lvs := vec !!! lvs]> vec.
Proof.
  unfold WithLabelValues. rewrite lookup_total_alt.
  destruct (vec !! lvs) eqn:Hl; simpl; [by rewrite insert_id|done].
Qed.

Lemma bucketVec_applyBucket (kind kind' : histKind) (inst le : string)
    (c : float64) (r : registry) :
  bucketVec kind' (applyBucket kind inst le c r)
    = if decide (kind' = kind)
      then <[(inst, le) :=
               bucketVec kind r !!! (inst, le)
               + increment (prevBuckets kind r !!! bucketKey inst le) c]>
             (bucketVec kind r)
      else bucketVec kind' r.
Proof.
  destruct (decide (kind' = kind)) as [->|Hne].
  - unfold applyBucket. cbv zeta. rewrite bucketVec_setPrevious.
    rewrite getPreviousBucketValue_set_bucketVec, getPreviousBucketValue_prevBuckets.
    unfold increment. destruct (decide _); rewrite !bucketVec_set.
    + rewrite Add_insert, WithLabelValues_insert.
      by rewrite lookup_total_insert_eq, insert_insert_eq.
    + by rewrite WithLabelValues_insert, Qcplus_0_r.
  - by apply applyBucket_other.
Qed.

Lemma prevBuckets_applyBucket (kind kind' : histKind) (inst le : string)
    (c : float64) (r : registry) :
  prevBuckets kind' (applyBucket kind inst le c r)
    = if decide (kind' = kind)
      then <[bucketKey inst le := c]> (prevBuckets kind r)
      else prevBuckets kind' r.
Proof.
  unfold applyBucket. cbv zeta.
  destruct kind, kind'; simpl; destruct (decide (0 < _)); done.
Qed.

Lemma applyBucket_commute (k1 k2 : histKind) (i1 i2 l1 l2 : string)
    (c1 c2 : float64) (r : registry) :
  (k1 = k2 → (i1, l1) ≠ (i2, l2) ∧ bucketKey i1 l1 ≠ bucketKey i2 l2) →
  applyBucket k1 i1 l1 c1 (applyBucket k2 i2 l2 c2 r)
    = applyBucket k2 i2 l2 c2 (applyBucket k1 i1 l1 c1 r).
Proof.
  intros Hne.
  destruct (applyBucket_other k1 i1 l1 c1 (applyBucket k2 i2 l2 c2 r)) as (_ & Ha1 & Ha2 & Ha3).
  destruct (applyBucket_other k2 i2 l2 c2 (applyBucket k1 i1 l1 c1 r)) as (_ & Hb1 & Hb2 & Hb3).
  destruct (applyBucket_other k1 i1 l1 c1 r) as (_ & Hc1 & Hc2 & Hc3).
  destruct (applyBucket_other k2 i2 l2 c2 r) as (_ & Hd1 & Hd2 & Hd3).
  apply registry_eq_kind; try congruence.
  - intros kind. rewrite !bucketVec_applyBucket, !prevBuckets_applyBucket.
    destruct (decide (k1 = k2)) as [->|Hk].
    + destruct (Hne eq_refl) as [Hl Hkey].
      destruct (decide (kind = k2)) as [->|?]; [|done].
      rewrite !decide_True by done.
      rewrite !lookup_total_insert_ne by done.
      by apply insert_insert_ne.
    + destruct (decide (kind = k1)) as [E1|E1], (decide (kind = k2)) as [E2|E2];
        try congruence; subst;
        rewrite ?decide_False by done; rewrite ?decide_True by done; done.
  - intros kind. rewrite !prevBuckets_applyBucket.
    destruct (decide (k1 = k2)) as [->|Hk].
    + destruct (Hne eq_refl) as [Hl Hkey].
      destruct (decide (kind = k2)) as [->|?]; [|done].
      rewrite !decide_True by done. by apply insert_insert_ne.
    + destruct (decide (kind = k1)) as [E1|E1], (decide (kind = k2)) as [E2|E2];
        try congruence; subst;
        rewrite ?decide_False by done; rewrite ?decide_True by done; done.
Qed.

(** [FormatFloat] prints no bar. *)
Lemma formatAbs_no_bar (a d : Z) : (0 < d)%Z → occurs "|" (formatAbs a d) = false.
Proof.
  intros Hd. unfold formatAbs.
  destruct (decimalScale _ d 0) as [k|]; cbv zeta.
  - rewrite occurs_append, Digits_occurs by (apply showN_Digits || done).
    destruct k as [|k]; [done|]. cbn [occurs orb].
    assert (0 < 10 ^ Z.of_nat (S k))%Z as Hpos by (apply Z.pow_pos_nonneg; lia).
    rewrite Digits_occurs; [done| |done].
    apply showFrac_Digits, Z.mod_pos_bound. lia.
  - rewrite occurs_append, Digits_occurs by (apply showN_Digits || done).
    cbn [occurs orb]. rewrite Digits_occurs by (apply showN_Digits || done). done.
Qed.

Lemma FormatFloat_no_bar (x : float64) : occurs "|" (FormatFloat x) = false.
Proof.
  unfold FormatFloat. cbv zeta. rewrite occurs_append, formatAbs_no_bar by done.
  by destruct (_ <? _)%Z.
Qed.

Lemma bucketKey_inj_pair (i1 i2 l1 l2 : string) :
  occurs "|" l1 = false → occurs "|" l2 = false →
  bucketKey i1 l1 = bucketKey i2 l2 → i1 = i2 ∧ l1 = l2.
Proof.
  unfold bucketKey. intros H1 H2.
  revert i2. induction i1 as [|c i1 IH]; intros [|c' i2];
    rewrite ?append_cons, ?append_nil.
  - by intros [= ->].
  - intros [= <- ->]. rewrite occurs_append in H1. cbn [occurs] in H1.
    rewrite Ascii.eqb_refl in H1. by rewrite orb_true_r in H1.
  - intros [= -> <-]. rewrite occurs_append in H2. cbn [occurs] in H2.
    rewrite Ascii.eqb_refl in H2. by rewrite orb_true_r in H2.
  - intros [= -> Heq]. by destruct (IH _ Heq) as [-> ->].
Qed.

Lemma applyCumulative_commute (k1 k2 : histKind) (i1 i2 : string)
    (cs1 cs2 : list (float64 * float64)) (r : registry) :
  i1 ≠ i2 →
  applyCumulative k1 i1 (applyCumulative k2 i2 r cs2) cs1
    = applyCumulative k2 i2 (applyCumulative k1 i1 r cs1) cs2.
Proof.
  intros Hne. unfold applyCumulative. apply foldl_commute.
  intros a b c. apply applyBucket_commute. intros _. split.
  - intros [= ? _]. done.
  - intros Heq. apply bucketKey_inj_pair in Heq as [? _];
      [done|apply FormatFloat_no_bar..].
Qed.

Lemma updateHistogramsWith_commute (wk1 ck1 wk2 ck2 : list string)
    (hist1 hist2 : Histogram) (inst1 inst2 : string) (r : registry) :
  inst1 ≠ inst2 →
  updateHistogramsWith wk1 ck1 hist1 inst1
      (updateHistogramsWith wk2 ck2 hist2 inst2 r)
    = updateHistogramsWith wk2 ck2 hist2 inst2
        (updateHistogramsWith wk1 ck1 hist1 inst1 r).
Proof.
  intros Hne. unfold updateHistogramsWith. rewrite !bucketLoop_cumulative.
  rewrite (applyCumulative_commute write cycle inst1 inst2) by done.
  rewrite (applyCumulative_commute write write inst1 inst2) by done.
  rewrite (applyCumulative_commute cycle cycle inst1 inst2) by done.
  rewrite (applyCumulative_commute cycle write inst1 inst2) by done.
  done.
Qed.

(** ** The scalar update and the histogram update *)

Section scalar_histogram.
Context `{JSONNumber}.

Lemma updateDesc_applyBucket (pd : gmap string value) (inst : string)
    (desc : metricDesc) (kind : histKind) (inst' le : string) (c : float64)
    (r : registry) :
  updateDesc pd inst (applyBucket kind inst' le c r) desc
    = applyBucket kind inst' le c (updateDesc pd inst r desc).
Proof.
  destruct (applyBucket_other kind inst' le c r) as (_ & Ha1 & Ha2 & Ha3).
  destruct (applyBucket_other kind inst' le c (updateDesc pd inst r desc))
    as (_ & Hb1 & Hb2 & Hb3).
  apply registry_eq_kind.
  - rewrite Hb1, !crbMetrics_updateDesc. unfold lastRaw. by rewrite Ha1, Ha3.
  - rewrite Hb2, !crbGauges_updateDesc. by rewrite Ha2.
  - rewrite Hb3, !previousCounterValues_updateDesc. by rewrite Ha3.
  - intros k.
    destruct (updateDesc_buckets pd inst (applyBucket kind inst' le c r) desc k)
      as [-> _].
    rewrite !bucketVec_applyBucket.
    destruct (updateDesc_buckets pd inst r desc kind) as [-> ->].
    by destruct (updateDesc_buckets pd inst r desc k) as [-> _].
  - intros k.
    destruct (updateDesc_buckets pd inst (applyBucket kind inst' le c r) desc k)
      as [_ ->].
    rewrite !prevBuckets_applyBucket.
    destruct (updateDesc_buckets pd inst r desc kind) as [_ ->].
    by destruct (updateDesc_buckets pd inst r desc k) as [_ ->].
Qed.

Lemma updateCRBMetrics_applyCumulative (data : gmap string value) (inst : string)
    (kind : histKind) (inst' : string) (cs : list (float64 * float64))
    (r : registry) :
  updateCRBMetrics data inst (applyCumulative kind inst' r cs)
    = applyCumulative kind inst' (updateCRBMetrics data inst r) cs.
Proof.
  unfold updateCRBMetrics.
  destruct (data !! "performanceMetrics") as [[]|]; try done.
  unfold applyCumulative. apply foldl_commute.
  intros a b c. apply updateDesc_applyBucket.
Qed.

Lemma updateCRBMetrics_updateHistogramsWith (data : gmap string value)
    (inst inst' : string) (wk ck : list string) (hist : Histogram) (r : registry) :
  updateCRBMetrics data inst (updateHistogramsWith wk ck hist inst' r)
    = updateHistogramsWith wk ck hist inst' (updateCRBMetrics data inst r).
Proof.
  unfold updateHistogramsWith. rewrite !bucketLoop_cumulative.
  by rewrite !updateCRBMetrics_applyCumulative.
Qed.

End scalar_histogram.

(** ** Steps of different collectors *)

Section interleaving.
Context `{JSONNumber}.

(** An event reads the registry only to update it. *)
Lemma fire_effect (c c' : collector) (r r' : registry) (e : event) :
  fire c r e = Some (c', r') →
  vplc_instance c' = vplc_instance c ∧
  ∀ r2, fire c r2 e = Some (c', effect (vplc_instance c) e r2).
Proof.
  destruct e as [|j|j res|j res wk ck|j res|j]; simpl.
  - intros [= <- <-]. split; [|done]. unfold tick. by destruct (_ =? _)%Z.
  - destruct (_ && _); [|done]. by intros [= <- <-].
  - destruct (_ && _); [|done]. destruct (afterLogin res). by intros [= <- <-].
  - destruct (isAt c j AtHistogram); [|done].
    destruct res as [| |hist]; simpl; by intros [= <- <-].
  - destruct (isAt c j AtStats); [|done].
    destruct res as [| |crb]; simpl; by intros [= <- <-].
  - destruct (isAt c j AtExit); [|done]. by intros [= <- <-].
Qed.

Lemma fire_effect_reg (c c' : collector) (r r' : registry) (e : event) :
  fire c r e = Some (c', r') → r' = effect (vplc_instance c) e r.
Proof.
  intros Hf. destruct (fire_effect c c' r r' e Hf) as [_ Hr].
  specialize (Hr r). rewrite Hf in Hr. by injection Hr.
Qed.

Lemma effect_commute (n1 n2 : string) (e1 e2 : event) (r : registry) :
  n1 ≠ n2 →
  effect n1 e1 (effect n2 e2 r) = effect n2 e2 (effect n1 e1 r).
Proof.
  intros Hne.
  destruct e1 as [|j1|j1 res1|j1 [| |hist1] wk1 ck1|j1 [| |crb1]|j1]; try done;
    destruct e2 as [|j2|j2 res2|j2 [| |hist2] wk2 ck2|j2 [| |crb2]|j2]; try done;
    simpl.
  - by apply updateHistogramsWith_commute.
  - symmetry. apply updateCRBMetrics_updateHistogramsWith.
  - apply updateCRBMetrics_updateHistogramsWith.
  - by apply updateCRBMetrics_commute.
Qed.

(** The collectors keep their names. *)
Lemma reachable_names (vplcList : list string) (s : system) :
  reachable vplcList s → vplc_instance <$> collectors s = vplcList.
Proof.
  induction 1 as [|s l s' _ IH Hstep].
  - simpl. rewrite <-list_fmap_compose. apply list_fmap_id.
  - destruct Hstep as [s i e c c' r' Hi _ Hfire]. simpl.
    rewrite list_fmap_insert.
    destruct (fire_effect c c' (reg s) r' e Hfire) as [-> _].
    rewrite list_insert_id; [done|]. by rewrite list_lookup_fmap, Hi.
Qed.

Lemma steps_commute (s s1 s2 : system) (i j : nat) (e1 e2 : event) :
  i ≠ j →
  (∀ ci cj, collectors s !! i = Some ci → collectors s !! j = Some cj →
            vplc_instance ci ≠ vplc_instance cj) →
  step s (i, e1) s1 → step s1 (j, e2) s2 →
  ∃ s1', step s (j, e2) s1' ∧ step s1' (i, e1) s2.
Proof.
  intros Hij Hnames Hs1 Hs2.
  inversion Hs1 as [s0 i0 e0 c1 c1' r1 Hi Hv1 Hf1]; subst. clear Hs1.
  inversion Hs2 as [s0 j0 e0 c2 c2' r2 Hj Hv2 Hf2]; subst. clear Hs2.
  simpl in *. rewrite list_lookup_insert_ne in Hj by done.
  specialize (Hnames c1 c2 Hi Hj).
  destruct (fire_effect c1 c1' _ _ e1 Hf1) as [Hn1 Hr1].
  destruct (fire_effect c2 c2' _ _ e2 Hf2) as [Hn2 Hr2].
  pose proof (fire_effect_reg _ _ _ _ _ Hf1) as ->.
  pose proof (fire_effect_reg _ _ _ _ _ Hf2) as ->.
  exists {| collectors := <[j := c2']> (collectors s);
            reg := effect (vplc_instance c2) e2 (reg s) |}.
  split.
  - by apply (step_fire s j e2 c2 c2').
  - rewrite (effect_commute (vplc_instance c2) (vplc_instance c1)) by done.
    rewrite (list_insert_insert_ne _ j i) by done.
    apply (step_fire {| collectors := <[j := c2']> (collectors s);
                        reg := effect (vplc_instance c2) e2 (reg s) |}
             i e1 c1 c1'); simpl; [by rewrite list_lookup_insert_ne|done|done].
Qed.

End interleaving.

(** ** The loop at one label, whatever was stored *)

Lemma cumsAt_cons (le : string) (bc : float64 * float64)
    (cs : list (float64 * float64)) :
  cumsAt le (bc :: cs)
    = if decide (FormatFloat bc.1 = le) then bc.2 :: cumsAt le cs else cumsAt le cs.
Proof.
  unfold cumsAt. rewrite filter_cons. by destruct (decide _).
Qed.

Lemma cumsAt_app (le : string) (cs1 cs2 : list (float64 * float64)) :
  cumsAt le (cs1 ++ cs2) = cumsAt le cs1 ++ cumsAt le cs2.
Proof. unfold cumsAt. by rewrite filter_app, fmap_app. Qed.

(** Each series grows by the positive increments of the counts delivered
    for its label, and the last of them is the stored previous value. *)
Lemma applyCumulative_sum (kind : histKind) (inst : string) (r : registry)
    (cs : list (float64 * float64)) (le : string) :
  let prev := getPreviousBucketValue (kindName kind) (bucketKey inst le) in
  let r' := applyCumulative kind inst r cs in
  exported (bucketVec kind r') (inst, le)
    = exported (bucketVec kind r) (inst, le) + sumIncrements (prev r) (cumsAt le cs) ∧
  prev r' = default (prev r) (last (cumsAt le cs)).
Proof.
  cbv zeta. revert r. induction cs as [|[b c] cs IH]; intros r.
  { simpl. by rewrite Qcplus_0_r. }
  rewrite applyCumulative_cons, cumsAt_cons. cbn [fst snd].
  destruct (IH (applyBucket kind inst (FormatFloat b) c r)) as [-> ->].
  destruct (decide (FormatFloat b = le)) as [<-|Hne].
  - destruct (applyBucket_same kind inst (FormatFloat b) c r) as (-> & -> & _).
    split; [by rewrite <-Qcplus_assoc|].
    rewrite last_cons. by destruct (last _).
  - destruct (applyBucket_frame kind inst (FormatFloat b) c r) as [Hv Hp].
    assert (bucketKey inst le ≠ bucketKey inst (FormatFloat b)) as Hk
      by (by intros ?%bucketKey_inj).
    rewrite (Hp _ Hk). split; [|done]. f_equal.
    apply exported_frame, Hv. congruence.
Qed.

Lemma cycleDelayMinDesc_elem : cycleDelayMinDesc ∈ crbMetricDescs.
Proof. do 3 right. left. Qed.

(** ** The series that exist *)

Section series.
Context `{JSONNumber}.

(** The series of a counter key after [updateCRBMetrics]. *)
Lemma crbMetrics_foldl (pd : gmap string value) (inst : string)
    (descs : list metricDesc) (r : registry) (d : metricDesc) (v : float64) :
  NoDup (PromName <$> descs) → d ∈ descs →
  Typ d = counter → getNestedValue pd (JSONName d) = Some v →
  crbMetrics (foldl (updateDesc pd inst) r descs) !! (PromName d, inst)
    = if decide (0 < v - lastRaw r (PromName d) inst)
      then Some (exported (crbMetrics r) (PromName d, inst)
                 + (v - lastRaw r (PromName d) inst))
      else crbMetrics r !! (PromName d, inst).
Proof.
  revert r. induction descs as [|desc descs IH]; intros r Hnd Hin Ht Hv.
  { by apply elem_of_nil in Hin. }
  rewrite fmap_cons in Hnd. apply NoDup_cons in Hnd as [Hfresh Hnd].
  cbn [foldl]. apply elem_of_cons in Hin as [<-|Hin].
  - destruct (foldl_updateDesc_frame pd inst descs (updateDesc pd inst r d)
               (PromName d) inst) as [_ ->].
    { intros x Hx _ _ [= Heq]. apply Hfresh. rewrite <-Heq.
      by apply list_elem_of_fmap_2. }
    rewrite crbMetrics_updateDesc, Hv, Ht.
    destruct (decide _); [|done]. by rewrite Add_insert, lookup_insert_eq.
  - destruct (updateDesc_frame pd inst r desc (PromName d) inst) as [Hl Hc].
    { intros _ _ [= Heq]. apply Hfresh. rewrite Heq.
      by apply list_elem_of_fmap_2. }
    rewrite (IH (updateDesc pd inst r desc) Hnd Hin Ht Hv).
    unfold exported. by rewrite Hl, !lookup_total_alt, Hc.
Qed.

Lemma updateCRBMetrics_series (data : gmap string value) (inst : string)
    (r : registry) (d : metricDesc) (v : float64) :
  d ∈ crbMetricDescs → Typ d = counter → reading d data = Some v →
  crbMetrics (updateCRBMetrics data inst r) !! (PromName d, inst)
    = if decide (0 < v - lastRaw r (PromName d) inst)
      then Some (exported (crbMetrics r) (PromName d, inst)
                 + (v - lastRaw r (PromName d) inst))
      else crbMetrics r !! (PromName d, inst).
Proof.
  intros Hin Ht. unfold reading, updateCRBMetrics.
  destruct (data !! "performanceMetrics") as [[]|]; try done.
  intros Hv. by apply crbMetrics_foldl; [apply crbMetricDescs_NoDup|..].
Qed.

(** No update removes a series. *)
Lemma updateDesc_keeps (pd : gmap string value) (inst : string)
    (r : registry) (desc : metricDesc) (lvs : string * string) :
  (is_Some (crbMetrics r !! lvs) →
     is_Some (crbMetrics (updateDesc pd inst r desc) !! lvs)) ∧
  (is_Some (crbGauges r !! lvs) →
     is_Some (crbGauges (updateDesc pd inst r desc) !! lvs)).
Proof.
  rewrite crbMetrics_updateDesc, crbGauges_updateDesc.
  destruct (getNestedValue pd (JSONName desc)) as [v|]; [|done].
  destruct (Typ desc); split; try done.
  - destruct (decide _); [|done]. rewrite Add_insert, lookup_insert_is_Some. eauto.
    intros. destruct (decide ((PromName desc, inst) = lvs)); eauto.
  - rewrite lookup_insert_is_Some.
    intros. destruct (decide ((PromName desc, inst) = lvs)); eauto.
Qed.

Lemma updateCRBMetrics_keeps (data : gmap string value) (inst : string)
    (r : registry) (lvs : string * string) :
  (is_Some (crbMetrics r !! lvs) →
     is_Some (crbMetrics (updateCRBMetrics data inst r) !! lvs)) ∧
  (is_Some (crbGauges r !! lvs) →
     is_Some (crbGauges (updateCRBMetrics data inst r) !! lvs)).
Proof.
  unfold updateCRBMetrics.
  destruct (data !! "performanceMetrics") as [[]|]; try done.
  generalize crbMetricDescs. intros descs. revert r.
  induction descs as [|desc descs IH]; intros r; [done|].
  cbn [foldl]. destruct (IH (updateDesc m inst r desc)) as [IH1 IH2].
  destruct (updateDesc_keeps m inst r desc lvs) as [H1 H2]. split; eauto.
Qed.

End series.

Lemma applyBucket_keeps (kind kind' : histKind) (inst le : string) (c : float64)
    (r : registry) (lvs : string * string) :
  is_Some (bucketVec kind' r !! lvs) →
  is_Some (bucketVec kind' (applyBucket kind inst le c r) !! lvs).
Proof.
  rewrite bucketVec_applyBucket. destruct (decide _) as [->|]; [|done].
  rewrite lookup_insert_is_Some.
  intros. destruct (decide ((inst, le) = lvs)); eauto.
Qed.

Lemma applyCumulative_keeps (kind kind' : histKind) (inst : string)
    (cs : list (float64 * float64)) (r : registry) (lvs : string * string) :
  is_Some (bucketVec kind' r !! lvs) →
  is_Some (bucketVec kind' (applyCumulative kind inst r cs) !! lvs).
Proof.
  revert r. induction cs as [|bc cs IH]; intros r; [done|].
  rewrite applyCumulative_cons. intros Hs. by apply IH, applyBucket_keeps.
Qed.

Lemma updateHistogramsWith_keeps (wk ck : list string) (hist : Histogram)
    (inst : string) (r : registry) (kind : histKind) (lvs : string * string) :
  is_Some (bucketVec kind r !! lvs) →
  is_Some (bucketVec kind (updateHistogramsWith wk ck hist inst r) !! lvs).
Proof.
  intros Hs. unfold updateHistogramsWith. rewrite !bucketLoop_cumulative.
  by do 2 apply applyCumulative_keeps.
Qed.

(** The loop creates the series of each of its labels. *)
Lemma applyCumulative_creates (kind : histKind) (inst : string)
    (cs : list (float64 * float64)) (r : registry) (le : string) :
  le ∈ (λ bc, FormatFloat bc.1) <$> cs →
  is_Some (bucketVec kind (applyCumulative kind inst r cs) !! (inst, le)).
Proof.
  revert r. induction cs as [|bc cs IH]; intros r; [by intros ?%elem_of_nil|].
  rewrite fmap_cons, applyCumulative_cons. intros [->|Hin]%elem_of_cons.
  - apply applyCumulative_keeps.
    by destruct (applyBucket_same kind inst (FormatFloat bc.1) bc.2 r) as (_ & _ & ?).
  - by apply IH.
Qed.

(** It leaves the series of every other label and instance as it was. *)
Lemma applyCumulative_frame (kind : histKind) (inst : string)
    (cs : list (float64 * float64)) (r : registry) (lvs : string * string) :
  lvs ∉ (λ bc, (inst, FormatFloat bc.1)) <$> cs →
  bucketVec kind (applyCumulative kind inst r cs) !! lvs = bucketVec kind r !! lvs.
Proof.
  revert r. induction cs as [|bc cs IH]; intros r; [done|].
  rewrite fmap_cons, applyCumulative_cons. intros [Hne Hnot]%not_elem_of_cons.
  rewrite IH by done.
  by destruct (applyBucket_frame kind inst (FormatFloat bc.1) bc.2 r) as [-> _].
Qed.

Lemma sumIncrements_nonneg (prev : float64) (rs : list float64) :
  0 ≤ sumIncrements prev rs.
Proof.
  revert prev. induction rs as [|v rs IH]; intros prev; [apply Qcle_refl|].
  cbn [sumIncrements]. pose proof (increment_nonneg prev v) as H1.
  pose proof (IH v) as H2. revert H1 H2.
  generalize (increment prev v), (sumIncrements v rs). intros x y Hx Hy. qc_lra.
Qed.

Lemma sumIncrements_zero (prev v : float64) (rs : list float64) :
  sumIncrements prev (v :: rs) = 0 → ¬ 0 < v - prev ∧ sumIncrements v rs = 0.
Proof.
  cbn [sumIncrements]. pose proof (increment_nonneg prev v) as H1.
  pose proof (sumIncrements_nonneg v rs) as H2. unfold increment in *.
  revert H1 H2. generalize (sumIncrements v rs). intros y.
  destruct (decide (0 < v - prev)) as [Hpos|Hn].
  - intros H1 H2 H0. exfalso. revert Hpos H0 H2. generalize (v - prev).
    intros x Hx H0 Hy. qc_lra.
  - intros _ H2 H0. split; [done|]. revert H0. intros H0. qc_lra.
Qed.

Section kept.
Context `{JSONNumber}.

Lemma effect_keeps (name : string) (e : event) (r : registry) (lvs : string * string) :
  (is_Some (crbMetrics r !! lvs) → is_Some (crbMetrics (effect name e r) !! lvs)) ∧
  (is_Some (crbGauges r !! lvs) → is_Some (crbGauges (effect name e r) !! lvs)) ∧
  (∀ kind, is_Some (bucketVec kind r !! lvs) →
           is_Some (bucketVec kind (effect name e r) !! lvs)).
Proof.
  destruct e as [|j|j res|j [| |hist] wk ck|j [| |crb]|j]; try done; simpl.
  - destruct (updateHistogramsWith_scalars wk ck hist name r) as (-> & -> & _).
    split_and!; [done..|]. intros kind. apply updateHistogramsWith_keeps.
  - destruct (updateCRBMetrics_keeps crb name r lvs) as [H1 H2].
    split_and!; [done..|]. intros kind.
    by destruct (updateCRBMetrics_buckets crb name r kind) as [-> _].
Qed.

Lemma run_keeps (s s' : system) (lvs : string * string) :
  run s s' →
  (is_Some (crbMetrics (reg s) !! lvs) → is_Some (crbMetrics (reg s') !! lvs)) ∧
  (is_Some (crbGauges (reg s) !! lvs) → is_Some (crbGauges (reg s') !! lvs)) ∧
  (∀ kind, is_Some (bucketVec kind (reg s) !! lvs) →
           is_Some (bucketVec kind (reg s') !! lvs)).
Proof.
  induction 1 as [s|s l s' s'' _ (IH1 & IH2 & IH3) Hstep]; [done|].
  destruct Hstep as [s' i e c c' r' _ _ Hfire]. simpl.
  rewrite (fire_effect_reg _ _ _ _ _ Hfire).
  destruct (effect_keeps (vplc_instance c) e (reg s') lvs) as (H1 & H2 & H3).
  split_and!; eauto.
Qed.

End kept.

(** ** The counts of one label *)

Lemma lastCum_cumsAt (le : string) (cs : list (float64 * float64)) :
  lastCum le cs = last (cumsAt le cs).
Proof.
  induction cs as [|bc cs IH]; [done|].
  cbn [lastCum]. rewrite cumsAt_cons, IH.
  destruct (decide _); [|by destruct (last _)].
  rewrite last_cons. by destruct (last _).
Qed.

Lemma filter_NoDup_fmap_length {A B} `{EqDecision B} (f : A → B) (y : B) (l : list A) :
  NoDup (f <$> l) → (length (filter (λ x, f x = y) l) ≤ 1)%nat.
Proof.
  induction l as [|a l IH]; [simpl; lia|].
  rewrite fmap_cons, NoDup_cons. intros [Hnot Hnd].
  rewrite filter_cons. destruct (decide (f a = y)) as [<-|?]; [|by apply IH].
  assert (filter (λ x, f x = f a) l = []) as ->; [|simpl; lia].
  apply filter_none, Forall_forall. intros x Hx Heq. apply Hnot.
  rewrite <-Heq. by apply list_elem_of_fmap_2.
Qed.

(** With pairwise different bounds the sequence holds one count for the
    label of a bucket: the cumulative count at its bound. *)
Lemma cumsAt_distinct (h : gmap string float64) (ks : list string) (k : string) :
  SortedKeys h ks → NoDup (parseBucketUpperBoundMs <$> ks) → is_Some (h !! k) →
  cumsAt (leOf k) (cumulativeSeq h ks) = [cumulativeAt h (parseBucketUpperBoundMs k)].
Proof.
  intros Hks Hnd Hk.
  pose proof (lastCum_cumulativeAt h ks k Hks Hk) as Hlast.
  rewrite lastCum_cumsAt in Hlast.
  assert (length (cumsAt (leOf k) (cumulativeSeq h ks)) ≤ 1)%nat as Hlen.
  { unfold cumsAt. rewrite length_fmap.
    apply (filter_NoDup_fmap_length (λ bc, FormatFloat bc.1)).
    unfold cumulativeSeq. rewrite cumulativeFrom_labels.
    unfold leOf. rewrite (list_fmap_compose parseBucketUpperBoundMs FormatFloat).
    by apply (NoDup_fmap_2 _). }
  destruct (cumsAt (leOf k) (cumulativeSeq h ks)) as [|c [|c' l]]; simpl in *;
    [done| |lia]. by injection Hlast as ->.
Qed.

(** ** A response processed again *)

Lemma applyBucket_fixed (kind : histKind) (inst le : string) (c : float64)
    (r : registry) :
  prevBuckets kind r !! bucketKey inst le = Some c →
  is_Some (bucketVec kind r !! (inst, le)) →
  applyBucket kind inst le c r = r.
Proof.
  intros Hp [x Hx].
  destruct (applyBucket_other kind inst le c r) as (_ & H1 & H2 & H3).
  apply registry_eq_kind; try done.
  - intros k. rewrite bucketVec_applyBucket.
    destruct (decide (k = kind)) as [->|?]; [|done].
    rewrite (lookup_total_alt (prevBuckets kind r)), Hp. simpl.
    unfold increment. rewrite decide_False by (intros ?; qc_lra).
    rewrite Qcplus_0_r, lookup_total_alt, Hx. simpl. by apply insert_id.
  - intros k. rewrite prevBuckets_applyBucket.
    destruct (decide (k = kind)) as [->|?]; [|done]. by apply insert_id.
Qed.

Lemma prevBuckets_applyCumulative_ne (kind kind' : histKind) (inst : string)
    (cs : list (float64 * float64)) (r : registry) :
  kind' ≠ kind →
  prevBuckets kind' (applyCumulative kind inst r cs) = prevBuckets kind' r.
Proof.
  intros Hne. revert r. induction cs as [|bc cs IH]; intros r; [done|].
  rewrite applyCumulative_cons, IH, prevBuckets_applyBucket.
  by rewrite decide_False.
Qed.

Lemma bucketVec_applyCumulative_ne (kind kind' : histKind) (inst : string)
    (cs : list (float64 * float64)) (r : registry) :
  kind' ≠ kind →
  bucketVec kind' (applyCumulative kind inst r cs) = bucketVec kind' r.
Proof.
  intros Hne. by destruct (applyCumulative_other kind inst r cs) as [Hk _];
    destruct (Hk kind' Hne).
Qed.

Lemma prevBuckets_applyCumulative_frame (kind : histKind) (inst : string)
    (cs : list (float64 * float64)) (r : registry) (le : string) :
  le ∉ (λ bc, FormatFloat bc.1) <$> cs →
  prevBuckets kind (applyCumulative kind inst r cs) !! bucketKey inst le
    = prevBuckets kind r !! bucketKey inst le.
Proof.
  revert r. induction cs as [|bc cs IH]; intros r; [done|].
  rewrite fmap_cons, applyCumulative_cons. intros [Hne Hnot]%not_elem_of_cons.
  rewrite IH by done. rewrite prevBuckets_applyBucket, decide_True by done.
  rewrite lookup_insert_ne; [done|]. by intros ?%bucketKey_inj.
Qed.

(** After a loop over pairwise different labels each of them has its
    series and holds its count as previous value. *)
Lemma applyCumulative_holds (kind : histKind) (inst : string)
    (cs : list (float64 * float64)) (r : registry) (bc : float64 * float64) :
  NoDup ((λ bc, FormatFloat bc.1) <$> cs) → bc ∈ cs →
  let r' := applyCumulative kind inst r cs in
  prevBuckets kind r' !! bucketKey inst (FormatFloat bc.1) = Some bc.2 ∧
  is_Some (bucketVec kind r' !! (inst, FormatFloat bc.1)).
Proof.
  intros Hnd Hin. cbv zeta. split.
  - revert r. induction cs as [|bc' cs IH]; intros r; [by apply elem_of_nil in Hin|].
    rewrite fmap_cons in Hnd. apply NoDup_cons in Hnd as [Hnot Hnd].
    rewrite applyCumulative_cons. apply elem_of_cons in Hin as [->|Hin].
    + rewrite prevBuckets_applyCumulative_frame by done.
      rewrite prevBuckets_applyBucket, decide_True by done.
      by rewrite lookup_insert_eq.
    + by apply IH.
  - apply applyCumulative_creates.
    by apply (list_elem_of_fmap_2 (λ bc : float64 * float64, FormatFloat bc.1)).
Qed.

Lemma applyCumulative_twice (kind : histKind) (inst : string)
    (cs : list (float64 * float64)) (r r' : registry) :
  NoDup ((λ bc, FormatFloat bc.1) <$> cs) →
  prevBuckets kind r' = prevBuckets kind (applyCumulative kind inst r cs) →
  bucketVec kind r' = bucketVec kind (applyCumulative kind inst r cs) →
  applyCumulative kind inst r' cs = r'.
Proof.
  intros Hnd Hp Hv. unfold applyCumulative at 1. apply foldl_fixed.
  intros bc Hbc.
  destruct (applyCumulative_holds kind inst cs r bc Hnd Hbc) as [H1 H2].
  apply applyBucket_fixed; by rewrite ?Hp, ?Hv.
Qed.

Lemma cumulativeSeq_NoDup (h : gmap string float64) (ks : list string) :
  NoDup (parseBucketUpperBoundMs <$> ks) →
  NoDup ((λ bc, FormatFloat bc.1) <$> cumulativeSeq h ks).
Proof.
  intros Hnd. unfold cumulativeSeq. rewrite cumulativeFrom_labels.
  unfold leOf. rewrite (list_fmap_compose parseBucketUpperBoundMs FormatFloat).
  by apply (NoDup_fmap_2 _).
Qed.

Lemma updateHistogramsWith_twice (wk ck : list string) (hist : Histogram)
    (inst : string) (r : registry) :
  NoDup (parseBucketUpperBoundMs <$> wk) → NoDup (parseBucketUpperBoundMs <$> ck) →
  updateHistogramsWith wk ck hist inst (updateHistogramsWith wk ck hist inst r)
    = updateHistogramsWith wk ck hist inst r.
Proof.
  intros Hw Hc. unfold updateHistogramsWith. rewrite !bucketLoop_cumulative.
  set (sw := cumulativeSeq (WriteDurationHistogram hist) wk).
  set (sc := cumulativeSeq (CycleExtensionDurationHistogram hist) ck).
  set (r1 := applyCumulative write inst r sw).
  rewrite (applyCumulative_twice write inst sw r (applyCumulative cycle inst r1 sc)).
  - apply (applyCumulative_twice cycle inst sc r1); [|done..].
    by apply cumulativeSeq_NoDup.
  - by apply cumulativeSeq_NoDup.
  - by apply prevBuckets_applyCumulative_ne.
  - by apply bucketVec_applyCumulative_ne.
Qed.

(** ** Labels with the same bound *)

Lemma sumIncrements_app (prev : float64) (l1 l2 : list float64) :
  sumIncrements prev (l1 ++ l2)
    = sumIncrements prev l1 + sumIncrements (default prev (last l1)) l2.
Proof.
  revert prev. induction l1 as [|v l1 IH]; intros prev.
  { simpl. by rewrite Qcplus_0_l. }
  cbn [app sumIncrements]. rewrite IH, Qcplus_assoc. do 2 f_equal.
  rewrite last_cons. by destruct (last l1).
Qed.

Lemma sumIncrements_reaches (prev y : float64) (l : list float64) :
  y - prev ≤ sumIncrements prev (l ++ [y]).
Proof.
  revert prev. induction l as [|v l IH]; intros prev; cbn [app sumIncrements].
  - unfold increment. destruct (decide _) as [|Hn]; [qc_lra|].
    apply Qcnot_lt_le in Hn. qc_lra.
  - specialize (IH v). revert IH. generalize (sumIncrements v (l ++ [y])).
    intros s Hs. unfold increment. destruct (decide _) as [|Hn]; [qc_lra|].
    apply Qcnot_lt_le in Hn. qc_lra.
Qed.

(** A sequence that holds [x] and later the larger [y] has a positive
    sum of increments, whatever it is measured from. *)
Lemma sumIncrements_rise (prev x y : float64) (l1 l2 l3 : list float64) :
  x < y → 0 < sumIncrements prev (l1 ++ x :: l2 ++ y :: l3).
Proof.
  intros Hxy.
  replace (l1 ++ x :: l2 ++ y :: l3) with ((l1 ++ [x]) ++ (l2 ++ [y]) ++ l3)
    by (by rewrite <-!app_assoc).
  rewrite (sumIncrements_app prev (l1 ++ [x])), last_snoc. cbn [default].
  rewrite (sumIncrements_app x (l2 ++ [y])).
  pose proof (sumIncrements_nonneg prev (l1 ++ [x])) as H1.
  pose proof (sumIncrements_reaches x y l2) as H2.
  pose proof (sumIncrements_nonneg (default x (last (l2 ++ [y]))) l3) as H3.
  revert H1 H2 H3.
  generalize (sumIncrements prev (l1 ++ [x])), (sumIncrements x (l2 ++ [y])),
    (sumIncrements (default x (last (l2 ++ [y]))) l3).
  intros a b c Ha Hb Hc. qc_lra.
Qed.

Lemma sumCounts_nonneg (h : gmap string float64) (l : list string) :
  map_Forall (λ _ c, 0 ≤ c) h → 0 ≤ sumCounts h l.
Proof.
  intros Hnn. induction l as [|k l IH]; [apply Qcle_refl|].
  rewrite sumCounts_cons. pose proof (map_Forall_nonneg h k Hnn) as Hk.
  revert Hk IH. generalize (h !!! k), (sumCounts h l). intros a b Ha Hb. qc_lra.
Qed.

Lemma cumulativeFrom_app (c0 : float64) (h : gmap string float64)
    (l1 l2 : list string) :
  cumulativeFrom c0 h (l1 ++ l2)
    = cumulativeFrom c0 h l1 ++ cumulativeFrom (c0 + sumCounts h l1) h l2.
Proof.
  revert c0. induction l1 as [|k l1 IH]; intros c0.
  { simpl. by rewrite Qcplus_0_r. }
  cbn [app cumulativeFrom]. rewrite IH, sumCounts_cons. by rewrite Qcplus_assoc.
Qed.

(** The counts for the label of two buckets with the same bound, the
    second with a positive count: the sequence holds the count at the first
    and later the larger count at the second. *)
Lemma cumsAt_two (h : gmap string float64) (l1 l2 l3 : list string)
    (ka kb : string) :
  map_Forall (λ _ c, 0 ≤ c) h →
  parseBucketUpperBoundMs ka = parseBucketUpperBoundMs kb → 0 < h !!! kb →
  ∃ x y m1 m2 m3,
    x < y ∧
    cumsAt (leOf ka) (cumulativeSeq h (l1 ++ ka :: l2 ++ kb :: l3))
      = m1 ++ x :: m2 ++ y :: m3.
Proof.
  intros Hnn Hb Hpos. unfold cumulativeSeq.
  rewrite cumulativeFrom_app. cbn [cumulativeFrom].
  rewrite cumulativeFrom_app. cbn [cumulativeFrom].
  rewrite cumsAt_app, cumsAt_cons, cumsAt_app, cumsAt_cons. cbn [fst snd].
  rewrite decide_True by done. rewrite decide_True by (unfold leOf; by rewrite Hb).
  eexists _, _, _, _, _. split; [|done].
  pose proof (sumCounts_nonneg h l2 Hnn) as H2.
  pose proof (map_Forall_nonneg h ka Hnn) as Ha.
  revert H2 Ha Hpos.
  generalize (sumCounts h l1), (sumCounts h l2), (h !!! ka), (h !!! kb).
  intros a b c d Hb' Hc Hd. qc_lra.
Qed.

(** ** The end of a cycle *)

Section progress.
Context `{JSONNumber}.





End progress.

(** ** The login body *)

Lemma append_inj_r (a b s : string) : a +:+ s = b +:+ s → a = b.
Proof.
  revert b. induction a as [|x a IH]; intros [|y b]; rewrite ?append_cons, ?append_nil.
  - done.
  - intros Heq. apply (f_equal String.length) in Heq.
    simpl in Heq. rewrite length_append in Heq. lia.
  - intros Heq. apply (f_equal String.length) in Heq.
    simpl in Heq. rewrite length_append in Heq. lia.
  - intros [= -> Heq]. by rewrite (IH _ Heq).
Qed.

(** Two strings without the character, each followed by it, agree once
    the whole texts agree. *)
Lemma append_inj_sep (c : ascii) (a b s t : string) :
  occurs c a = false → occurs c b = false →
  a +:+ String c s = b +:+ String c t → a = b ∧ s = t.
Proof.
  revert b. induction a as [|x a IH]; intros [|y b] Ha Hb;
    rewrite ?append_cons, ?append_nil.
  - by intros [= ->].
  - intros [= <- _]. cbn [occurs] in Hb. by rewrite Ascii.eqb_refl in Hb.
  - intros [= -> _]. cbn [occurs] in Ha. by rewrite Ascii.eqb_refl in Ha.
  - cbn [occurs] in Ha, Hb.
    apply orb_false_iff in Ha as [_ Ha], Hb as [_ Hb].
    intros [= -> Heq]. by destruct (IH b Ha Hb Heq) as [-> ->].
Qed.

(** ** init *)

Lemma registerAll_ok (descs : list metricDesc) (vs : vectors) :
  NoDup (PromName <$> descs) →
  (∀ name, name ∈ PromName <$> descs → name ∉ registered vs) →
  ∃ vs',
    registerAll descs vs = Some vs' ∧
    (∀ name, name ∈ counterVecs vs' ↔
       name ∈ counterVecs vs ∨ ∃ d, d ∈ descs ∧ Typ d = counter ∧ PromName d = name) ∧
    (∀ name, name ∈ gaugeVecs vs' ↔
       name ∈ gaugeVecs vs ∨ ∃ d, d ∈ descs ∧ Typ d = gauge ∧ PromName d = name) ∧
    (∀ name, name ∈ registered vs' ↔
       name ∈ registered vs ∨ name ∈ PromName <$> descs).
Proof.
  revert vs. induction descs as [|desc descs IH]; intros vs Hnd Hfree.
  { exists vs. split_and!; [done|..]; intros name; split; auto.
    - intros [?|(d & Hd & _)]; [done|by apply elem_of_nil in Hd].
    - intros [?|(d & Hd & _)]; [done|by apply elem_of_nil in Hd].
    - intros [?|Hd]; [done|by apply elem_of_nil in Hd]. }
  rewrite fmap_cons in Hnd, Hfree. apply NoDup_cons in Hnd as [Hnot Hnd].
  cbn [registerAll]. unfold registerDesc, MustRegister.
  assert (PromName desc ∉ registered vs) as Hd by (apply Hfree; by left).
  destruct (Typ desc) eqn:Ht; cbn [registered]; rewrite decide_False by done;
    cbn [mbind option_bind counterVecs gaugeVecs registered].
  - destruct (IH {| counterVecs := {[PromName desc]} ∪ counterVecs vs;
                    gaugeVecs := gaugeVecs vs;
                    registered := {[PromName desc]} ∪ registered vs |} Hnd)
      as (vs' & -> & Hc & Hg & Hr).
    { intros name Hin. cbn [registered]. rewrite elem_of_union, elem_of_singleton.
      intros [->|?]; [done|]. apply (Hfree name); [by right|done]. }
    exists vs'. split; [done|]. cbn [counterVecs gaugeVecs registered] in *.
    split_and!; intros name.
    + rewrite Hc, elem_of_union, elem_of_singleton. split.
      * intros [[->|?]|(d & Hin & ? & ?)]; [right; exists desc; split; [by left|done]
                                          |by left|right; exists d; split; [by right|done]].
      * intros [?|(d & [->|Hin]%elem_of_cons & Htd & <-)]; [by left; right|by left; left|].
        right. by exists d.
    + rewrite Hg. split.
      * intros [?|(d & Hin & ? & ?)]; [by left|right; exists d; split; [by right|done]].
      * intros [?|(d & [->|Hin]%elem_of_cons & Htd & <-)]; [by left|congruence|].
        right. by exists d.
    + rewrite Hr, elem_of_union, elem_of_singleton, fmap_cons, elem_of_cons. tauto.
  - destruct (IH {| counterVecs := counterVecs vs;
                    gaugeVecs := {[PromName desc]} ∪ gaugeVecs vs;
                    registered := {[PromName desc]} ∪ registered vs |} Hnd)
      as (vs' & -> & Hc & Hg & Hr).
    { intros name Hin. cbn [registered]. rewrite elem_of_union, elem_of_singleton.
      intros [->|?]; [done|]. apply (Hfree name); [by right|done]. }
    exists vs'. split; [done|]. cbn [counterVecs gaugeVecs registered] in *.
    split_and!; intros name.
    + rewrite Hc. split.
      * intros [?|(d & Hin & ? & ?)]; [by left|right; exists d; split; [by right|done]].
      * intros [?|(d & [->|Hin]%elem_of_cons & Htd & <-)]; [by left|congruence|].
        right. by exists d.
    + rewrite Hg, elem_of_union, elem_of_singleton. split.
      * intros [[->|?]|(d & Hin & ? & ?)]; [right; exists desc; split; [by left|done]
                                          |by left|right; exists d; split; [by right|done]].
      * intros [?|(d & [->|Hin]%elem_of_cons & Htd & <-)]; [by left; right|by left; left|].
        right. by exists d.
    + rewrite Hr, elem_of_union, elem_of_singleton, fmap_cons, elem_of_cons. tauto.
Qed.

Lemma ownNames_NoDup : NoDup ownNames.
Proof. by apply (bool_decide_unpack _). Qed.

Section sessions.
Context `{JSONNumber}.

Lemma fire_session (c c' : collector) (r r' : registry) (e : event) :
  (authenticated (sess c) = false → token (sess c) = "") →
  fire c r e = Some (c', r') →
  authenticated (sess c') = false → token (sess c') = "".
Proof.
  intros Hs. destruct e as [|j|j res|j res wk ck|j res|j]; simpl.
  - intros [= <- <-]. unfold tick. by destruct (_ =? _)%Z.
  - destruct (_ && _); [|done]. intros [= <- <-]. exact Hs.
  - destruct (_ && _); [|done]. destruct res; simpl; by intros [= <- <-].
  - destruct (isAt c j AtHistogram); [|done].
    destruct res; simpl; intros [= <- <-]; simpl; first [done|exact Hs].
  - destruct (isAt c j AtStats); [|done].
    destruct res; simpl; intros [= <- <-]; simpl; first [done|exact Hs].
  - destruct (isAt c j AtExit); [|done]. intros [= <- <-]. exact Hs.
Qed.

Lemma reachable_session (vplcList : list string) (s : system) :
  reachable vplcList s →
  Forall (λ c, authenticated (sess c) = false → token (sess c) = "") (collectors s).
Proof.
  induction 1 as [|s l s' _ IH Hstep].
  - simpl. apply Forall_fmap, Forall_forall. by intros name _.
  - destruct Hstep as [s i e c c' r' Hi _ Hfire]. simpl.
    apply Forall_insert; [done|].
    eapply fire_session; [|done].
    exact (Forall_lookup_1
             (λ c, authenticated (sess c) = false → token (sess c) = "") _ _ _ IH Hi).
Qed.

End sessions.

(** * The specified properties *)

(** C1, as stated, fails: the first reading of a key is measured against
    Go's zero value, so a first reading of 5 is exported as 5 and not as an
    increment of 0. *)
Lemma first_reading_is_exported :
  exported
    (crbMetrics (@updateCRBMetrics plainDecimal (statsDoc 5) "plc1" initRegistry))
    ("crb_successful_cycle_count", "plc1") = Qc_of_Z 5 ∧
  Qc_of_Z 5 ≠ sumIncrements (Qc_of_Z 5) [].
Proof. split; [qc_compute|]. intros Heq. apply Qc_eq_Qeq in Heq. vm_compute in Heq. done. Qed.

(** C1 (amended): for the key of a counter descriptor and any sequence of
    documents, the exported value grows by the sum of the increments
    [max(0, r[i] - r[i-1])] of the readings delivered, taken from the stored
    baseline; for a key never written that baseline is 0, so the first
    reading [r0] contributes [max(0, r0)] and the exported value is
    [max(0, r0)] plus the sum over [i >= 1] of [max(0, r[i] - r[i-1])]. *)
Theorem counter_sum_of_increments `{JSONNumber} (d : metricDesc) (inst : string) :
  d ∈ crbMetricDescs → Typ d = counter →
  (∀ docs r,
     exported (crbMetrics (updateAll inst docs r)) (PromName d, inst)
       = exported (crbMetrics r) (PromName d, inst)
           + sumIncrements (lastRaw r (PromName d) inst) (omap (reading d) docs)) ∧
  (∀ docs r r0 rest,
     fresh r (PromName d) inst →
     omap (reading d) docs = r0 :: rest →
     exported (crbMetrics (updateAll inst docs r)) (PromName d, inst)
       = increment 0 r0 + sumIncrements r0 rest).
Proof.
  intros Hin Ht. split; [intros; by apply updateAll_sum|].
  intros docs r r0 rest [Hp Hc] Hrs.
  rewrite updateAll_sum, Hrs by done.
  unfold lastRaw, exported. rewrite !lookup_total_alt, Hc.
  rewrite lookup_total_alt in Hp. rewrite Hp. simpl. by rewrite Qcplus_0_l.
Qed.

Lemma counter_sum_of_increments_witness :
  exported
    (crbMetrics (@updateAll plainDecimal "plc1"
                   [statsDoc 5; statsDoc 3; statsDoc 9] initRegistry))
    ("crb_successful_cycle_count", "plc1")
  = increment 0 (Qc_of_Z 5) + sumIncrements (Qc_of_Z 5) [Qc_of_Z 3; Qc_of_Z 9].
Proof.
  apply (proj2 (@counter_sum_of_increments plainDecimal writeSuccessesDesc "plc1"
                  writeSuccessesDesc_elem eq_refl)).
  - split; reflexivity.
  - reflexivity.
Defined.

(** C2: the exported value of a counter key never decreases, along the
    steps of the system and along any sequence of documents; a reading
    whose increment against the baseline is not positive leaves the series
    untouched; and every reading becomes the baseline against which the
    next increment is computed. *)
Theorem counter_monotone `{JSONNumber} (d : metricDesc) (inst : string) :
  d ∈ crbMetricDescs → Typ d = counter →
  (∀ s s',
     run s s' →
     exported (crbMetrics (reg s)) (PromName d, inst)
       ≤ exported (crbMetrics (reg s')) (PromName d, inst)) ∧
  (∀ docs r,
     exported (crbMetrics r) (PromName d, inst)
       ≤ exported (crbMetrics (updateAll inst docs r)) (PromName d, inst)) ∧
  (∀ doc r v,
     reading d doc = Some v →
     let r' := updateCRBMetrics doc inst r in
     exported (crbMetrics r) (PromName d, inst)
       ≤ exported (crbMetrics r') (PromName d, inst) ∧
     lastRaw r' (PromName d) inst = v ∧
     (v - lastRaw r (PromName d) inst ≤ 0 →
        crbMetrics r' !! (PromName d, inst) = crbMetrics r !! (PromName d, inst)) ∧
     (∀ doc' v',
        reading d doc' = Some v' →
        exported (crbMetrics (updateCRBMetrics doc' inst r')) (PromName d, inst)
          = exported (crbMetrics r') (PromName d, inst) + increment v v')).
Proof.
  intros Hin Ht. split; [intros s s' Hrun; by apply run_mono|].
  split; [intros; apply updateAll_mono|].
  intros doc r v Hv r'.
  destruct (updateCRBMetrics_counter doc inst r d v Hin Ht Hv) as (Hl & He & Hn).
  split_and!.
  - apply updateCRBMetrics_mono.
  - done.
  - intros Hle. apply Hn. by apply Qcle_not_lt.
  - intros doc' v' Hv'.
    destruct (updateCRBMetrics_counter doc' inst r' d v' Hin Ht Hv') as (_ & He' & _).
    fold r' in Hl. by rewrite He', Hl.
Qed.

Lemma counter_monotone_witness :
  let r := @updateCRBMetrics plainDecimal (statsDoc 5) "plc1" initRegistry in
  let r' := @updateCRBMetrics plainDecimal (statsDoc 3) "plc1" r in
  exported (crbMetrics r) ("crb_successful_cycle_count", "plc1")
    ≤ exported (crbMetrics r') ("crb_successful_cycle_count", "plc1") ∧
  lastRaw r' "crb_successful_cycle_count" "plc1" = Qc_of_Z 3 ∧
  crbMetrics r' !! ("crb_successful_cycle_count", "plc1")
    = crbMetrics r !! ("crb_successful_cycle_count", "plc1") ∧
  exported (crbMetrics (@updateCRBMetrics plainDecimal (statsDoc 9) "plc1" r'))
    ("crb_successful_cycle_count", "plc1")
    = exported (crbMetrics r') ("crb_successful_cycle_count", "plc1")
        + increment (Qc_of_Z 3) (Qc_of_Z 9).
Proof.
  intros r r'.
  destruct (proj2 (proj2 (@counter_monotone plainDecimal writeSuccessesDesc "plc1"
                            writeSuccessesDesc_elem eq_refl))
              (statsDoc 3) r (Qc_of_Z 3) eq_refl)
    as (H1 & H2 & H3 & H4).
  split_and!; [exact H1|exact H2| |exact (H4 (statsDoc 9) (Qc_of_Z 9) eq_refl)].
  apply H3. vm_compute. discriminate.
Defined.






(** C5, as stated, fails: the value of an open-ended bucket is the constant
    [1e9], and a range label whose upper bound is [2e9] parses to a
    boundary above it. *)
Lemma sentinel_below_large_boundary :
  parseBucketUpperBoundMs "20.0+ms"
    < parseBucketUpperBoundMs "0.0-2000000000.0ms".
Proof. vm_compute. reflexivity. Qed.

(** C5 (amended): a range label parses to the value of the numeric token
    before the unit; a label that ends in a numeric token, the plus sign
    and the unit parses to the constant [sentinel = 1e9], which is above a
    range boundary exactly when that boundary is below [1e9]; a label with
    no match of the pattern parses to 0. *)
Theorem parseBucketUpperBoundMs_codec :
  (∀ low tok v, Token tok → ParseFloat tok = Some v →
     parseBucketUpperBoundMs (low +:+ "-" +:+ tok +:+ "ms") = v) ∧
  parseBucketUpperBoundMs "0.0-1.0ms" = 1 ∧
  (∀ pre tok, Token tok →
     parseBucketUpperBoundMs (pre +:+ tok +:+ "+ms") = sentinel) ∧
  parseBucketUpperBoundMs "20.0+ms" = sentinel ∧
  (∀ low tok v, Token tok → ParseFloat tok = Some v →
     (parseBucketUpperBoundMs (low +:+ "-" +:+ tok +:+ "ms") < sentinel
        ↔ v < Q2Qc (inject_Z 1000000000))) ∧
  (∀ label,
     (∀ pre tok plus, Token tok → label ≠ pre +:+ tok +:+ unitSuffix plus) →
     parseBucketUpperBoundMs label = 0).
Proof.
  split_and!.
  - apply parse_range.
  - qc_compute.
  - apply parse_open.
  - qc_compute.
  - intros low tok v Htok Hv. by rewrite (parse_range _ _ _ Htok Hv).
  - apply parse_no_match.
Qed.

Lemma parseBucketUpperBoundMs_codec_witness :
  parseBucketUpperBoundMs ("0.0" +:+ "-" +:+ "1.0" +:+ "ms") = 1 ∧
  parseBucketUpperBoundMs ("" +:+ "20.0" +:+ "+ms") = sentinel ∧
  (parseBucketUpperBoundMs ("0.0" +:+ "-" +:+ "1.0" +:+ "ms") < sentinel
     ↔ 1 < Q2Qc (inject_Z 1000000000)) ∧
  parseBucketUpperBoundMs "-" = 0.
Proof.
  destruct parseBucketUpperBoundMs_codec as (H1 & _ & H3 & _ & H5 & H6).
  split_and!.
  - apply H1; [apply Token_1_0|]. apply option_Qc_eq. vm_compute. reflexivity.
  - apply H3, Token_20_0.
  - apply H5; [apply Token_1_0|]. apply option_Qc_eq. vm_compute. reflexivity.
  - apply H6. intros pre tok plus Htok Heq.
    apply (f_equal String.length) in Heq.
    rewrite !length_append in Heq. destruct plus; simpl in Heq; lia.
Defined.

(** C6: a cycle whose scalar document is malformed keeps the session, leaves
    every counter, gauge and stored baseline as it was, and ends with the
    registry of the histogram update alone; a cycle whose histogram body
    does not parse leaves the histogram state as it was and ends with the
    registry of the scalar update alone; in the transition system the step
    that receives either document changes neither registry nor session. *)
Theorem malformed_document_skipped `{JSONNumber} (inst : string) (io : replies)
    (s : session) (r : registry) :
  loginSucceeds io s →
  (malformed (statsReply io) → histogramReply io ≠ RequestFailed →
     (cycleBody inst io s r).1 = loggedIn io s ∧
     authenticated (cycleBody inst io s r).1 = true ∧
     (cycleBody inst io s r).2 = histogramsOnly inst io r ∧
     crbMetrics (cycleBody inst io s r).2 = crbMetrics r ∧
     crbGauges (cycleBody inst io s r).2 = crbGauges r ∧
     previousCounterValues (cycleBody inst io s r).2 = previousCounterValues r) ∧
  (histogramReply io = Unparsable →
     (cycleBody inst io s r).2 = scalarsOnly inst io r ∧
     (statsReply io ≠ RequestFailed →
        (cycleBody inst io s r).1 = loggedIn io s ∧
        authenticated (cycleBody inst io s r).1 = true) ∧
     ∀ kind,
       bucketVec kind (cycleBody inst io s r).2 = bucketVec kind r ∧
       prevBuckets kind (cycleBody inst io s r).2 = prevBuckets kind r) ∧
  (∀ c c' r' j res wk ck,
     (malformed res → fire c r (GetStats j res) = Some (c', r') →
        r' = r ∧ sess c' = sess c) ∧
     (fire c r (GetHistogram j Unparsable wk ck) = Some (c', r') →
        r' = r ∧ sess c' = sess c)).
Proof.
  intros Hlogin. split_and!; [| |intros; split;
    [apply fire_malformed|apply fire_unparsable]].
  - intros Hbad Hhist.
    rewrite (cycleBody_reaches_stats inst io s r Hlogin Hhist).
    assert ((let '(s3, r3, _) :=
               afterStats inst (statsReply io) (loggedIn io s)
                 (histogramsOnly inst io r) in (s3, r3))
            = (loggedIn io s, histogramsOnly inst io r)) as ->.
    { destruct Hbad as [->|(crb & -> & Hno)]; [done|].
      simpl. by rewrite updateCRBMetrics_malformed. }
    cbn [fst snd]. split_and!; [done|by apply loggedIn_authenticated|done|..];
      unfold histogramsOnly; destruct (histogramReply io); try done;
      apply updateHistogramsWith_scalars.
  - intros Hhist.
    rewrite (cycleBody_reaches_stats inst io s r Hlogin) by (by rewrite Hhist).
    unfold histogramsOnly, scalarsOnly. rewrite Hhist.
    destruct (statsReply io) as [| |crb]; cbn [afterStats fst snd];
      (split_and!; [done| |]).
    + done.
    + done.
    + intros _. split; [done|by apply loggedIn_authenticated].
    + done.
    + intros _. split; [done|by apply loggedIn_authenticated].
    + intros kind. apply updateCRBMetrics_buckets.
Qed.

Lemma malformed_document_skipped_witness :
  ((@cycleBody plainDecimal "plc1" badStatsReplies noSession initRegistry).1
     = loggedIn badStatsReplies noSession ∧
   authenticated
     (@cycleBody plainDecimal "plc1" badStatsReplies noSession initRegistry).1 = true ∧
   (@cycleBody plainDecimal "plc1" badStatsReplies noSession initRegistry).2
     = histogramsOnly "plc1" badStatsReplies initRegistry ∧
   crbMetrics (@cycleBody plainDecimal "plc1" badStatsReplies noSession initRegistry).2
     = crbMetrics initRegistry ∧
   crbGauges (@cycleBody plainDecimal "plc1" badStatsReplies noSession initRegistry).2
     = crbGauges initRegistry ∧
   previousCounterValues
     (@cycleBody plainDecimal "plc1" badStatsReplies noSession initRegistry).2
     = previousCounterValues initRegistry) ∧
  (@cycleBody plainDecimal "plc1" badHistogramReplies noSession initRegistry).2
    = @scalarsOnly plainDecimal "plc1" badHistogramReplies initRegistry.
Proof.
  split.
  - apply (proj1 (@malformed_document_skipped plainDecimal "plc1" badStatsReplies
                    noSession initRegistry (λ _, mk_is_Some _ _ eq_refl))).
    + right. eexists. split; [reflexivity|]. intros pd Hpd. discriminate Hpd.
    + discriminate.
  - apply (proj1 (proj2 (@malformed_document_skipped plainDecimal "plc1"
                           badHistogramReplies noSession initRegistry
                           (λ _, mk_is_Some _ _ eq_refl)))).
    reflexivity.
Defined.

(** C7, as stated, fails for the empty path: it splits into the one segment
    with the empty name, which is looked up like any other. *)
Lemma getNestedValue_empty_path_present :
  @getNestedValue plainDecimal {[ "" := Float64 (Qc_of_Z 5) ]} "" = Some (Qc_of_Z 5).
Proof. reflexivity. Qed.

(** C7 (amended): [getNestedValue] is absent when a segment before the last
    is missing from the map the walk is at or that value is no nested map,
    and when the list of segments is empty; the empty path is not such a
    list but the single segment with the empty name, absent exactly when
    the document has no numeric entry under that name.  At the last segment
    a value comes back only from an integer or floating-point
    representation. *)
Theorem getNestedValue_absent `{JSONNumber} :
  (∀ data path,
     getNestedValue data path = descend (Split path) (Object data) ≫= toFloat64) ∧
  (∀ data path pre part rest current,
     Split path = pre ++ part :: rest →
     descend pre (Object data) = Some current →
     (∀ m, current = Object m → m !! part = None) →
     getNestedValue data path = None) ∧
  (∀ current, getNestedValue_loop [] current = None) ∧
  (∀ data, getNestedValue data "" = data !! "" ≫= toFloat64) ∧
  (∀ data path f,
     getNestedValue data path = Some f →
     ∃ v, descend (Split path) (Object data) = Some v ∧ numeric v ∧
          toFloat64 v = Some f).
Proof.
  assert (∀ data path,
     getNestedValue data path = descend (Split path) (Object data) ≫= toFloat64)
    as Hd by (intros; apply getNestedValue_loop_descend, Split_nonempty).
  split_and!; [done| | done | |].
  - intros data path pre part rest current Hs Hpre Hmiss.
    rewrite Hd, Hs, descend_app, Hpre. simpl.
    destruct current; try done. by rewrite (Hmiss _ eq_refl).
  - intros data. rewrite Hd. simpl. by destruct (data !! "").
  - intros data path f. rewrite Hd.
    destruct (descend _ _) as [v|]; simpl; [|done].
    intros Hv. exists v. eauto using toFloat64_numeric.
Qed.

Lemma getNestedValue_absent_witness :
  @getNestedValue plainDecimal
     {[ "cycleDelay" := Str "n/a" ]} "cycleDelay/totalNs" = None ∧
  (∃ v, descend (Split "a/b") (Object {[ "a" := Object {[ "b" := Int 7 ]} ]})
          = Some v ∧ numeric v ∧ @toFloat64 plainDecimal v = Some (Qc_of_Z 7)).
Proof.
  destruct (@getNestedValue_absent plainDecimal) as (_ & H2 & _ & _ & H5).
  split.
  - apply (H2 _ _ ["cycleDelay"] "totalNs" [] (Str "n/a")); [reflexivity|reflexivity|].
    intros m Hm. discriminate Hm.
  - apply H5. reflexivity.
Defined.

(** C8: in every reachable state an instance has at most one cycle in
    flight; a tick that fires while it is in flight changes nothing in the
    whole system, so it starts no cycle, and with it no login and no
    request, and it leaves no trace that a later step could pick up; an
    idle instance takes no step but a tick. *)
Theorem overlap_guard `{JSONNumber} (vplcList : list string) (s : system)
    (i : nat) (c : collector) :
  reachable vplcList s → collectors s !! i = Some c →
  (length (cycles c) ≤ 1)%nat ∧
  (cycles c ≠ [] → tick c = c ∧ ∀ s', step s (i, Tick) s' → s' = s) ∧
  (cycles c = [] → ∀ e s', step s (i, e) s' → e = Tick).
Proof.
  intros Hreach Hi.
  assert (guarded c) as Hg
    by (eapply Forall_lookup_1; [by apply (reachable_guarded vplcList)|done]).
  split_and!.
  - destruct Hg as [[_ ->]|[_ [p ->]]]; simpl; lia.
  - intros Hne. pose proof (tick_in_flight c Hg Hne) as Ht. split; [done|].
    intros s' Hstep. inversion Hstep as [s0 i0 e0 c0 c' r' Hi0 _ Hfire]; subst.
    rewrite Hi in Hi0. injection Hi0 as <-. simpl in Hfire.
    injection Hfire as <- <-. rewrite Ht, list_insert_id by done.
    by destruct s.
  - intros Hidle e s' Hstep.
    inversion Hstep as [s0 i0 e0 c0 c' r' Hi0 _ Hfire]; subst.
    rewrite Hi in Hi0. injection Hi0 as <-.
    eapply fire_idle; [done|by eexists].
Qed.

Lemma overlap_guard_witness :
  (length (cycles (tick (idle "plc1"))) ≤ 1)%nat ∧
  tick (tick (idle "plc1")) = tick (idle "plc1") ∧
  ∀ s', @step plainDecimal tickedSystem (0%nat, Tick) s' → s' = tickedSystem.
Proof.
  destruct (@overlap_guard plainDecimal ["plc1"] tickedSystem 0
              (tick (idle "plc1")) tickedSystem_reachable eq_refl)
    as (H1 & H2 & _).
  split; [exact H1|]. apply H2. discriminate.
Defined.

(** C9: a label that does not end in [ms] parses to 0, whatever else it
    holds; in a label that matches, everything up to the dash of the range
    is ignored, so the result is the value of the token after it. *)
Theorem parseBucketUpperBoundMs_trailing_token :
  (∀ label, HasSuffix label "ms" = false → parseBucketUpperBoundMs label = 0) ∧
  (∀ low rest,
     parseBucketUpperBoundMs (low +:+ "-" +:+ rest) = parseBucketUpperBoundMs rest) ∧
  (∀ low low' tok v, Token tok → ParseFloat tok = Some v →
     parseBucketUpperBoundMs (low +:+ "-" +:+ tok +:+ "ms") = v ∧
     parseBucketUpperBoundMs (low' +:+ "-" +:+ tok +:+ "ms") = v) ∧
  parseBucketUpperBoundMs "5.0-1.0ms" = parseBucketUpperBoundMs "0.0-1.0ms" ∧
  parseBucketUpperBoundMs "0.0-1.0s" = 0.
Proof.
  split_and!.
  - apply parse_other_unit.
  - apply parse_dash.
  - intros low low' tok v Htok Hv. split; by apply parse_range.
  - qc_compute.
  - qc_compute.
Qed.

Lemma parseBucketUpperBoundMs_trailing_token_witness :
  parseBucketUpperBoundMs "0.0-1.0us" = 0 ∧
  parseBucketUpperBoundMs ("5.0" +:+ "-" +:+ "1.0" +:+ "ms") = 1 ∧
  parseBucketUpperBoundMs ("0.0" +:+ "-" +:+ "1.0" +:+ "ms") = 1.
Proof.
  destruct parseBucketUpperBoundMs_trailing_token as (H1 & _ & H3 & _).
  split; [apply H1; reflexivity|].
  apply H3; [apply Token_1_0|]. apply option_Qc_eq. vm_compute. reflexivity.
Defined.



(** * Further properties *)

(** X1: [init] does not panic when none of the collector's ten names is
    registered before; the names are pairwise different.  Afterwards
    [crbMetrics] holds a vector under the name of a descriptor exactly when
    the descriptor is a counter, and [crbGauges] exactly when it is a
    gauge, so the vector that [updateCRBMetrics] looks up for a descriptor
    is there. *)
Theorem init_registers_every_vector (registered0 : gset string) :
  (∀ name, name ∈ ownNames → name ∉ registered0) →
  NoDup ownNames ∧
  ∃ vs,
    init registered0 = Some vs ∧
    (∀ d, d ∈ crbMetricDescs →
       (PromName d ∈ counterVecs vs ↔ Typ d = counter) ∧
       (PromName d ∈ gaugeVecs vs ↔ Typ d = gauge)) ∧
    (∀ name, name ∈ registered vs ↔ name ∈ registered0 ∨ name ∈ ownNames).
Proof.
  intros Hfree. split; [apply ownNames_NoDup|].
  destruct (registerAll_ok crbMetricDescs
              {| counterVecs := ∅; gaugeVecs := ∅; registered := registered0 |}
              crbMetricDescs_NoDup) as (vs & Hvs & Hc & Hg & Hr).
  { intros name Hin. apply Hfree. unfold ownNames. apply elem_of_app. by left. }
  cbn [counterVecs gaugeVecs registered] in *.
  unfold init, initCRBMetrics. rewrite Hvs. cbn [mbind option_bind].
  unfold MustRegister at 2. rewrite decide_False; cycle 1.
  { rewrite Hr. intros [Hin|Hin].
    - revert Hin. apply Hfree. unfold ownNames. apply elem_of_app. right. by left.
    - revert Hin. by apply (bool_decide_unpack _). }
  cbn [mbind option_bind]. unfold MustRegister. cbn [registered].
  rewrite decide_False; cycle 1.
  { rewrite elem_of_union, elem_of_singleton, Hr. intros [?|[Hin|Hin]]; [done| |].
    - revert Hin. apply Hfree. unfold ownNames. apply elem_of_app. right. right. by left.
    - revert Hin. by apply (bool_decide_unpack _). }
  eexists. split; [done|]. cbn [counterVecs gaugeVecs registered].
  split.
  - intros d Hd. rewrite Hc, Hg. split; split.
    + intros [?|(d' & Hd' & Ht & Hn)]; [set_solver|].
      by rewrite <-(crbMetricDescs_PromName d' d Hd' Hd Hn).
    + intros Ht. right. by exists d.
    + intros [?|(d' & Hd' & Ht & Hn)]; [set_solver|].
      by rewrite <-(crbMetricDescs_PromName d' d Hd' Hd Hn).
    + intros Ht. right. by exists d.
  - intros name. rewrite !elem_of_union, !elem_of_singleton, Hr.
    unfold ownNames. rewrite elem_of_app, !elem_of_cons, elem_of_nil. tauto.
Qed.

Lemma init_registers_every_vector_witness :
  NoDup ownNames ∧
  ∃ vs,
    init {[ "go_goroutines"; "process_cpu_seconds_total" ]} = Some vs ∧
    (∀ d, d ∈ crbMetricDescs →
       (PromName d ∈ counterVecs vs ↔ Typ d = counter) ∧
       (PromName d ∈ gaugeVecs vs ↔ Typ d = gauge)) ∧
    (∀ name, name ∈ registered vs
       ↔ name ∈ ({[ "go_goroutines"; "process_cpu_seconds_total" ]} : gset string)
         ∨ name ∈ ownNames).
Proof.
  apply (init_registers_every_vector {[ "go_goroutines"; "process_cpu_seconds_total" ]}).
  intros name Hin Hreg.
  apply elem_of_union in Hreg as [->%elem_of_singleton| ->%elem_of_singleton];
    revert Hin; by apply (bool_decide_unpack _).
Defined.

(** X2: a parsed bound is never negative.  A label the pattern does not
    match gets 0, the least bound there is: its series is [le="0"], and in
    the sorted slice no other label has to come before it. *)
Theorem parseBucketUpperBoundMs_nonneg :
  (∀ label, 0 ≤ parseBucketUpperBoundMs label) ∧
  (∀ label,
     FindStringSubmatch label = None →
     parseBucketUpperBoundMs label = 0 ∧ leOf label = "0" ∧
     ∀ other, notAfter label other).
Proof.
  split.
  - apply parseBucketUpperBoundMs_nonneg_aux.
  - intros label Hno.
    assert (parseBucketUpperBoundMs label = 0) as H0
      by (unfold parseBucketUpperBoundMs; by rewrite Hno).
    split_and!; [done|by unfold leOf; rewrite H0|].
    intros other. unfold notAfter. rewrite H0. apply parseBucketUpperBoundMs_nonneg_aux.
Qed.

Lemma parseBucketUpperBoundMs_nonneg_witness :
  parseBucketUpperBoundMs "overflow" = 0 ∧ leOf "overflow" = "0" ∧
  ∀ other, notAfter "overflow" other.
Proof. apply (proj2 parseBucketUpperBoundMs_nonneg "overflow"). reflexivity. Defined.



(** X4: [Split] cuts a path at every slash and nowhere else: it yields at
    least one segment, no segment holds a slash, and the segments joined by
    slashes are the path again; and a list of one or more segments without
    slashes is what [Split] yields for their join. *)
Theorem Split_Join_round_trip :
  (∀ path,
     Split path ≠ [] ∧
     Forall (λ part, occurs "/" part = false) (Split path) ∧
     Join (Split path) = path) ∧
  (∀ parts,
     parts ≠ [] → Forall (λ part, occurs "/" part = false) parts →
     Split (Join parts) = parts).
Proof.
  split.
  - intros path. split_and!; [apply Split_nonempty|apply Split_segments|apply Join_Split].
  - apply Split_Join.
Qed.

Lemma Split_Join_round_trip_witness :
  Split (Join ["cycleDelay"; "totalNs"]) = ["cycleDelay"; "totalNs"].
Proof.
  apply (proj2 Split_Join_round_trip); [done|]. by repeat constructor.
Defined.

(** X5: a path is followed segment by segment.  For a first segment
    without a slash, the path of that segment alone is a lookup in the
    document followed by the conversion to a number, and a longer path is
    the rest of the path looked up in the nested map under the first
    segment, absent when there is no map under it. *)
Theorem getNestedValue_path `{JSONNumber} (data : gmap string value)
    (part rest : string) :
  occurs "/" part = false →
  getNestedValue data part = data !! part ≫= toFloat64 ∧
  getNestedValue data (part +:+ "/" +:+ rest)
    = match data !! part with
      | Some (Object m) => getNestedValue m rest
      | _ => None
      end.
Proof.
  intros Hp. unfold getNestedValue. split.
  - rewrite Split_no_slash by done. simpl. by destruct (data !! part).
  - rewrite Split_append by done.
    pose proof (Split_nonempty rest) as Hne.
    cbn [getNestedValue_loop]. destruct (data !! part) as [v|]; [|done].
    destruct (Split rest) as [|p ps]; [done|]. by destruct v.
Qed.

Lemma getNestedValue_path_witness :
  let data : gmap string value :=
    {[ "cycleDelay" := Object {[ "totalNs" := Number "12.5" ]} ]} in
  @getNestedValue plainDecimal data "cycleDelay"
    = data !! "cycleDelay" ≫= @toFloat64 plainDecimal ∧
  @getNestedValue plainDecimal data ("cycleDelay" +:+ "/" +:+ "totalNs")
    = match data !! "cycleDelay" with
      | Some (Object m) => @getNestedValue plainDecimal m "totalNs"
      | _ => None
      end.
Proof.
  intros data. apply (@getNestedValue_path plainDecimal data "cycleDelay" "totalNs").
  reflexivity.
Defined.

(** X6: a gauge shows the latest reading delivered for it, whatever it
    showed before: it may go down, and a document without a reading for it
    leaves it as it was.  The descriptor of a gauge never writes to the
    counter vector. *)
Theorem gauge_shows_last_reading `{JSONNumber} (d : metricDesc) (inst : string) :
  d ∈ crbMetricDescs → Typ d = gauge →
  (∀ data r,
     crbGauges (updateCRBMetrics data inst r) !! (PromName d, inst)
       = match reading d data with
         | Some v => Some v
         | None => crbGauges r !! (PromName d, inst)
         end) ∧
  (∀ docs r,
     crbGauges (updateAll inst docs r) !! (PromName d, inst)
       = match last (omap (reading d) docs) with
         | Some v => Some v
         | None => crbGauges r !! (PromName d, inst)
         end) ∧
  (∀ data r lvs,
     crbMetrics (updateCRBMetrics data inst r) !! (PromName d, lvs)
       = crbMetrics r !! (PromName d, lvs)).
Proof.
  intros Hin Ht.
  assert (∀ data r,
     crbGauges (updateCRBMetrics data inst r) !! (PromName d, inst)
       = match reading d data with
         | Some v => Some v
         | None => crbGauges r !! (PromName d, inst)
         end) as Hone by (intros; by apply updateCRBMetrics_gauge).
  split_and!; [done| |].
  - intros docs. induction docs as [|doc docs IH] using rev_ind; intros r; [done|].
    unfold updateAll in *. rewrite foldl_app. cbn [foldl].
    rewrite Hone, omap_app. cbn [omap list_omap].
    destruct (reading d doc) as [v|]; cbn [omap list_omap].
    + by rewrite last_snoc.
    + rewrite app_nil_r. apply IH.
  - intros data r inst'. unfold updateCRBMetrics.
    destruct (data !! "performanceMetrics") as [[]|]; try done.
    eapply (foldl_updateDesc_frame m inst crbMetricDescs r (PromName d) inst').
    intros desc Hdesc Hc _ [= Hname _].
    rewrite (crbMetricDescs_PromName desc d Hdesc Hin Hname) in Hc. congruence.
Qed.

Lemma gauge_shows_last_reading_witness :
  crbGauges (@updateAll plainDecimal "plc1" [delayDoc 7; statsDoc 1; delayDoc 3]
               initRegistry)
    !! ("crb_min_cycle_extension_duration", "plc1")
  = Some (Qc_of_Z 3).
Proof.
  apply (proj1 (proj2 (@gauge_shows_last_reading plainDecimal cycleDelayMinDesc "plc1"
                         cycleDelayMinDesc_elem eq_refl))
           [delayDoc 7; statsDoc 1; delayDoc 3] initRegistry).
Defined.

(** X7: the series of a counter comes into being with the first positive
    increment: a reading with one creates or raises it, and as long as no
    increment is positive the series is as it was, so a counter that has
    only read 0 is not exported at all. *)
Theorem counter_series_creation `{JSONNumber} (d : metricDesc) (inst : string) :
  d ∈ crbMetricDescs → Typ d = counter →
  (∀ data r v,
     reading d data = Some v →
     crbMetrics (updateCRBMetrics data inst r) !! (PromName d, inst)
       = if decide (0 < v - lastRaw r (PromName d) inst)
         then Some (exported (crbMetrics r) (PromName d, inst)
                    + (v - lastRaw r (PromName d) inst))
         else crbMetrics r !! (PromName d, inst)) ∧
  (∀ docs r,
     sumIncrements (lastRaw r (PromName d) inst) (omap (reading d) docs) = 0 →
     crbMetrics (updateAll inst docs r) !! (PromName d, inst)
       = crbMetrics r !! (PromName d, inst)) ∧
  (∀ docs r,
     fresh r (PromName d) inst →
     Forall (λ v, v = 0) (omap (reading d) docs) →
     crbMetrics (updateAll inst docs r) !! (PromName d, inst) = None).
Proof.
  intros Hin Ht.
  assert (∀ docs r,
     sumIncrements (lastRaw r (PromName d) inst) (omap (reading d) docs) = 0 →
     crbMetrics (updateAll inst docs r) !! (PromName d, inst)
       = crbMetrics r !! (PromName d, inst)) as Hzero.
  { intros docs. induction docs as [|doc docs IH]; intros r Hsum; [done|].
    change (updateAll inst (doc :: docs) r)
      with (updateAll inst docs (updateCRBMetrics doc inst r)).
    cbn [omap list_omap] in Hsum. destruct (reading d doc) as [v|] eqn:Hv.
    - apply sumIncrements_zero in Hsum as [Hn Hsum].
      destruct (updateCRBMetrics_counter doc inst r d v Hin Ht Hv) as (Hl & _ & Hc).
      rewrite IH by (by rewrite Hl). by apply Hc.
    - destruct (updateCRBMetrics_frame doc inst r d inst Hin (or_introl Hv))
        as [Hl Hc].
      rewrite IH by (by rewrite Hl). done. }
  split_and!; [|done|].
  - intros data r v Hv. by apply updateCRBMetrics_series.
  - intros docs r [Hp Hc] Hall. rewrite Hzero; [done|].
    assert (lastRaw r (PromName d) inst = 0) as ->
      by (unfold lastRaw; by rewrite (lookup_total_alt (_ !!! _)), Hp).
    clear -Hall. induction Hall as [|v rs -> _ IH]; [done|].
    cbn [sumIncrements]. rewrite IH. unfold increment.
    rewrite decide_False; [done|]. intros Hlt. qc_lra.
Qed.

Lemma counter_series_creation_witness :
  crbMetrics (@updateAll plainDecimal "plc1" [statsDoc 0; statsDoc 0] initRegistry)
    !! ("crb_successful_cycle_count", "plc1") = None.
Proof.
  apply (proj2 (proj2 (@counter_series_creation plainDecimal writeSuccessesDesc "plc1"
                         writeSuccessesDesc_elem eq_refl))
           [statsDoc 0; statsDoc 0] initRegistry).
  - split; reflexivity.
  - change (Forall (λ v : float64, v = 0) [Qc_of_Z 0; Qc_of_Z 0]).
    apply Forall_cons; split; [by apply Qc_is_canon|].
    apply Forall_cons; split; [by apply Qc_is_canon|]. apply Forall_nil_2.
Defined.

(** X8: processing the same scalar document a second time changes
    nothing: every increment is then 0 and every gauge already shows the
    reading. *)
Theorem updateCRBMetrics_idempotent `{JSONNumber} (data : gmap string value)
    (vplc_instance : string) (r : registry) :
  updateCRBMetrics data vplc_instance (updateCRBMetrics data vplc_instance r)
    = updateCRBMetrics data vplc_instance r.
Proof. apply updateCRBMetrics_twice. Qed.

(** X9: over a response, the series of a bucket label grows by the
    positive increments of the cumulative counts the response delivers for
    that label, each taken against the one before and the first against the
    stored previous value; the last of them becomes the stored previous
    value.  With pairwise different bounds a label gets one count, the
    cumulative count of the response at its bound. *)
Theorem bucket_sum_of_increments (kind : histKind) (hist : Histogram)
    (inst : string) (r : registry) :
  (∀ wk ck le,
     let cs := cumulativeSeq (histOf kind hist) (keysOf kind wk ck) in
     let r' := updateHistogramsWith wk ck hist inst r in
     exported (bucketVec kind r') (inst, le)
       = exported (bucketVec kind r) (inst, le)
           + sumIncrements
               (getPreviousBucketValue (kindName kind) (bucketKey inst le) r)
               (cumsAt le cs) ∧
     getPreviousBucketValue (kindName kind) (bucketKey inst le) r'
       = default (getPreviousBucketValue (kindName kind) (bucketKey inst le) r)
           (last (cumsAt le cs))) ∧
  (∀ r' k,
     updateHistogramsTo hist inst r r' →
     NoDup (parseBucketUpperBoundMs <$> (map_to_list (histOf kind hist)).*1) →
     is_Some (histOf kind hist !! k) →
     exported (bucketVec kind r') (inst, leOf k)
       = exported (bucketVec kind r) (inst, leOf k)
           + increment
               (getPreviousBucketValue (kindName kind) (bucketKey inst (leOf k)) r)
               (cumulativeAt (histOf kind hist) (parseBucketUpperBoundMs k)) ∧
     getPreviousBucketValue (kindName kind) (bucketKey inst (leOf k)) r'
       = cumulativeAt (histOf kind hist) (parseBucketUpperBoundMs k)).
Proof.
  assert (∀ wk ck le,
     let cs := cumulativeSeq (histOf kind hist) (keysOf kind wk ck) in
     let r' := updateHistogramsWith wk ck hist inst r in
     exported (bucketVec kind r') (inst, le)
       = exported (bucketVec kind r) (inst, le)
           + sumIncrements
               (getPreviousBucketValue (kindName kind) (bucketKey inst le) r)
               (cumsAt le cs) ∧
     getPreviousBucketValue (kindName kind) (bucketKey inst le) r'
       = default (getPreviousBucketValue (kindName kind) (bucketKey inst le) r)
           (last (cumsAt le cs))) as Hsum.
  { intros wk ck le cs r'.
    destruct (updateHistogramsWith_kind kind wk ck hist inst r)
      as (r0 & [Hv0 Hp0] & [Hv Hp]).
    subst r' cs. rewrite Hv, Hp, bucketLoop_cumulative.
    destruct (applyCumulative_sum kind inst r0
                (cumulativeSeq (histOf kind hist) (keysOf kind wk ck)) le) as [-> ->].
    by rewrite Hv0, Hp0. }
  split; [done|].
  intros r' k (wk & ck & Hwk & Hck & ->) Hnd Hk.
  destruct (Hsum wk ck (leOf k)) as [-> ->].
  assert (SortedKeys (histOf kind hist) (keysOf kind wk ck)) as Hks
    by (by destruct kind).
  rewrite (cumsAt_distinct _ _ k Hks); [|by rewrite (proj1 Hks)|done].
  simpl. by rewrite Qcplus_0_r.
Qed.

Lemma bucket_sum_of_increments_witness :
  exported (bucketVec write (updateHistograms (writeResponse 10 0) "plc1" initRegistry))
    ("plc1", leOf "1-5ms")
  = exported (bucketVec write initRegistry) ("plc1", leOf "1-5ms")
      + increment
          (getPreviousBucketValue "write" (bucketKey "plc1" (leOf "1-5ms")) initRegistry)
          (cumulativeAt (WriteDurationHistogram (writeResponse 10 0))
             (parseBucketUpperBoundMs "1-5ms")).
Proof.
  apply (proj2 (bucket_sum_of_increments write (writeResponse 10 0) "plc1" initRegistry)
           _ "1-5ms" (updateHistograms_outcome _ _ _)).
  - apply (bool_decide_unpack _). vm_compute. exact I.
  - by eexists.
Defined.

(** X10: a histogram update creates the series of every label of the
    response, also where the count is 0, leaves every other series of the
    vector as it was, and removes none; a response without buckets changes
    nothing. *)
Theorem bucket_series_touched (hist : Histogram) (inst : string) (r r' : registry) :
  updateHistogramsTo hist inst r r' →
  (∀ kind k,
     is_Some (histOf kind hist !! k) →
     is_Some (bucketVec kind r' !! (inst, leOf k))) ∧
  (∀ kind lvs,
     (∀ k, is_Some (histOf kind hist !! k) → lvs ≠ (inst, leOf k)) →
     bucketVec kind r' !! lvs = bucketVec kind r !! lvs) ∧
  (∀ kind lvs,
     is_Some (bucketVec kind r !! lvs) → is_Some (bucketVec kind r' !! lvs)) ∧
  (WriteDurationHistogram hist = ∅ → CycleExtensionDurationHistogram hist = ∅ →
     r' = r).
Proof.
  intros Hto.
  split_and!.
  - intros kind k Hk.
    destruct (updateHistogramsTo_slice kind hist inst r r' Hto)
      as (ks & r0 & Hks & _ & [-> _]).
    apply applyCumulative_creates. unfold cumulativeSeq.
    rewrite cumulativeFrom_labels. apply list_elem_of_fmap_2.
    by apply (SortedKeys_elem _ ks k Hks).
  - intros kind lvs Hne.
    destruct (updateHistogramsTo_slice kind hist inst r r' Hto)
      as (ks & r0 & Hks & [<- _] & [-> _]).
    apply applyCumulative_frame.
    intros ([b c] & -> & Hin)%list_elem_of_fmap.
    apply (list_elem_of_fmap_2 (λ bc, FormatFloat bc.1)) in Hin.
    unfold cumulativeSeq in Hin. rewrite cumulativeFrom_labels in Hin.
    apply list_elem_of_fmap in Hin as (k & Hk & Hin). cbn [fst] in Hk.
    apply (Hne k); [by apply (SortedKeys_elem _ ks k Hks)|]. cbn [fst]. by rewrite Hk.
  - intros kind lvs. destruct Hto as (wk & ck & _ & _ & ->).
    apply updateHistogramsWith_keeps.
  - intros Hw Hc. destruct Hto as (wk & ck & [Hwk _] & [Hck _] & ->).
    rewrite Hw, map_to_list_empty in Hwk. rewrite Hc, map_to_list_empty in Hck.
    apply Permutation_nil_r in Hwk, Hck. by subst.
Qed.

Lemma bucket_series_touched_witness :
  is_Some (bucketVec write (updateHistograms (writeResponse 0 0) "plc1" initRegistry)
             !! ("plc1", leOf "1-5ms")).
Proof.
  apply (proj1 (bucket_series_touched (writeResponse 0 0) "plc1" initRegistry _
                  (updateHistograms_outcome _ _ _)) write "1-5ms").
  by eexists.
Defined.

(** X11: when the labels of each histogram of a response have pairwise
    different bounds, the outcome of the update does not depend on the order
    in which the keys come out of the map and the sort, and processing the
    response a second time changes nothing. *)
Theorem updateHistograms_idempotent (hist : Histogram) (inst : string) :
  NoDup (parseBucketUpperBoundMs <$> (map_to_list (WriteDurationHistogram hist)).*1) →
  NoDup (parseBucketUpperBoundMs
           <$> (map_to_list (CycleExtensionDurationHistogram hist)).*1) →
  (∀ r r1 r2,
     updateHistogramsTo hist inst r r1 → updateHistogramsTo hist inst r r2 →
     r1 = r2) ∧
  (∀ r r' r'',
     updateHistogramsTo hist inst r r' → updateHistogramsTo hist inst r' r'' →
     r'' = r').
Proof.
  intros Hw Hc.
  assert (∀ wk ck wk' ck',
            SortedKeys (WriteDurationHistogram hist) wk →
            SortedKeys (CycleExtensionDurationHistogram hist) ck →
            SortedKeys (WriteDurationHistogram hist) wk' →
            SortedKeys (CycleExtensionDurationHistogram hist) ck' →
            NoDup (parseBucketUpperBoundMs <$> wk) ∧
            NoDup (parseBucketUpperBoundMs <$> ck) ∧ wk' = wk ∧ ck' = ck) as Huniq.
  { intros wk ck wk' ck' Hwk Hck Hwk' Hck'.
    assert (NoDup (parseBucketUpperBoundMs <$> wk)) as Hw'
      by (by rewrite (proj1 Hwk)).
    assert (NoDup (parseBucketUpperBoundMs <$> ck)) as Hc'
      by (by rewrite (proj1 Hck)).
    split_and!; [done..| |]; by eapply SortedKeys_unique. }
  split.
  - intros r r1 r2 (wk & ck & Hwk & Hck & ->) (wk' & ck' & Hwk' & Hck' & ->).
    by destruct (Huniq wk ck wk' ck') as (_ & _ & -> & ->).
  - intros r r' r'' (wk & ck & Hwk & Hck & ->) (wk' & ck' & Hwk' & Hck' & ->).
    destruct (Huniq wk ck wk' ck') as (Hw' & Hc' & -> & ->); [done..|].
    by apply updateHistogramsWith_twice.
Qed.

Lemma updateHistograms_idempotent_witness :
  updateHistograms (writeResponse 10 5) "plc1"
    (updateHistograms (writeResponse 10 5) "plc1" initRegistry)
  = updateHistograms (writeResponse 10 5) "plc1" initRegistry.
Proof.
  apply (proj2 (updateHistograms_idempotent (writeResponse 10 5) "plc1"
                  ltac:(apply (bool_decide_unpack _); vm_compute; exact I)
                  (@NoDup_nil_2 _)) initRegistry).
  - apply updateHistograms_outcome.
  - apply updateHistograms_outcome.
Defined.

(** X12: two labels of a response with the same bound share a series and
    a previous value.  If both carry a positive count, every processing of
    the response raises the series, whatever was stored before: the count
    at the first of the two is below the count at the second, which adds
    the difference.  So the series also rises when the same response is
    processed again, although the source has not moved. *)
Theorem colliding_labels_inflate (kind : histKind) (hist : Histogram)
    (inst : string) (k1 k2 : string) (r r' : registry) :
  map_Forall (λ _ c, 0 ≤ c) (histOf kind hist) →
  k1 ≠ k2 → parseBucketUpperBoundMs k1 = parseBucketUpperBoundMs k2 →
  0 < histOf kind hist !!! k1 → 0 < histOf kind hist !!! k2 →
  updateHistogramsTo hist inst r r' →
  exported (bucketVec kind r) (inst, leOf k1)
    < exported (bucketVec kind r') (inst, leOf k1).
Proof.
  intros Hnn Hne Hb H1 H2 Hto.
  destruct (updateHistogramsTo_slice kind hist inst r r' Hto)
    as (ks & r0 & Hks & [Hv0 Hp0] & [Hv _]).
  rewrite Hv.
  destruct (applyCumulative_sum kind inst r0
              (cumulativeSeq (histOf kind hist) ks) (leOf k1)) as [-> _].
  rewrite Hv0.
  assert (0 < sumIncrements
                (getPreviousBucketValue (kindName kind)
                   (bucketKey inst (leOf k1)) r0)
                (cumsAt (leOf k1) (cumulativeSeq (histOf kind hist) ks))) as Hpos.
  { assert (∀ k, 0 < histOf kind hist !!! k → k ∈ ks) as Hin.
    { intros k Hk. apply (SortedKeys_elem _ ks k Hks).
      rewrite lookup_total_alt in Hk.
      destruct (histOf kind hist !! k); [by eexists|].
      simpl in Hk. exfalso. qc_lra. }
    pose proof (Hin k1 H1) as Hk1. pose proof (Hin k2 H2) as Hk2.
    apply list_elem_of_split in Hk1 as (l1 & l2 & ->).
    apply elem_of_app in Hk2 as [Hk2|Hk2].
    - apply list_elem_of_split in Hk2 as (m1 & m2 & ->).
      rewrite <-app_assoc. cbn [app].
      destruct (cumsAt_two (histOf kind hist) m1 m2 l2 k2 k1 Hnn (eq_sym Hb) H1)
        as (x & y & n1 & n2 & n3 & Hxy & Heq).
      replace (leOf k1) with (leOf k2) by (unfold leOf; by rewrite Hb).
      rewrite Heq. by apply sumIncrements_rise.
    - apply elem_of_cons in Hk2 as [?|Hk2]; [congruence|].
      apply list_elem_of_split in Hk2 as (m1 & m2 & ->).
      destruct (cumsAt_two (histOf kind hist) l1 m1 m2 k1 k2 Hnn Hb H2)
        as (x & y & n1 & n2 & n3 & Hxy & Heq).
      rewrite Heq. by apply sumIncrements_rise. }
  revert Hpos.
  generalize (sumIncrements
                (getPreviousBucketValue (kindName kind) (bucketKey inst (leOf k1)) r0)
                (cumsAt (leOf k1) (cumulativeSeq (histOf kind hist) ks))),
    (exported (bucketVec kind r) (inst, leOf k1)).
  intros a b Ha. qc_lra.
Qed.

Lemma colliding_labels_inflate_witness :
  exported (bucketVec write (updateHistograms collidingResponse "plc1" initRegistry))
    ("plc1", leOf "0-1ms")
  < exported
      (bucketVec write
         (updateHistograms collidingResponse "plc1"
            (updateHistograms collidingResponse "plc1" initRegistry)))
      ("plc1", leOf "0-1ms").
Proof.
  apply (colliding_labels_inflate write collidingResponse "plc1" "0-1ms" "0.5-1ms").
  - apply (bool_decide_unpack _). vm_compute. exact I.
  - discriminate.
  - qc_compute.
  - vm_compute. reflexivity.
  - vm_compute. reflexivity.
  - apply updateHistograms_outcome.
Defined.

(** X13: the key of a previous bucket value determines the instance and
    the bound, also where the name of an instance holds a bar: a label is
    printed by [FormatFloat] and holds none.  So a histogram update of one
    instance changes neither a series nor a previous value of another. *)
Theorem bucketKey_tells_instances_apart :
  (∀ inst1 inst2 b1 b2,
     bucketKey inst1 (FormatFloat b1) = bucketKey inst2 (FormatFloat b2) →
     inst1 = inst2 ∧ b1 = b2) ∧
  (∀ hist inst r r' kind inst' le,
     updateHistogramsTo hist inst r r' → inst' ≠ inst →
     bucketVec kind r' !! (inst', le) = bucketVec kind r !! (inst', le)) ∧
  (∀ hist inst r r' kind inst' b,
     updateHistogramsTo hist inst r r' → inst' ≠ inst →
     getPreviousBucketValue (kindName kind) (bucketKey inst' (FormatFloat b)) r'
       = getPreviousBucketValue (kindName kind) (bucketKey inst' (FormatFloat b)) r).
Proof.
  assert (∀ kind inst cs r inst' b, inst' ≠ inst →
            getPreviousBucketValue (kindName kind) (bucketKey inst' (FormatFloat b))
                (applyCumulative kind inst r cs)
            = getPreviousBucketValue (kindName kind)
                (bucketKey inst' (FormatFloat b)) r) as Hprev.
  { intros kind inst cs r inst' b Hne. revert r.
    induction cs as [|bc cs IH]; intros r; [done|].
    rewrite applyCumulative_cons, IH.
    apply applyBucket_frame.
    intros [? _]%bucketKey_inj_pair; [done|apply FormatFloat_no_bar..]. }
  split_and!.
  - intros inst1 inst2 b1 b2 Heq.
    apply bucketKey_inj_pair in Heq as [-> Hb]; [|apply FormatFloat_no_bar..].
    split; [done|]. by apply (inj FormatFloat).
  - intros hist inst r r' kind inst' le Hto Hne.
    destruct (updateHistogramsTo_slice kind hist inst r r' Hto)
      as (ks & r0 & _ & [<- _] & [-> _]).
    apply applyCumulative_frame.
    intros (bc & [= ? _] & _)%list_elem_of_fmap. done.
  - intros hist inst r r' kind inst' b Hto Hne.
    destruct (updateHistogramsTo_slice kind hist inst r r' Hto)
      as (ks & r0 & _ & [_ <-] & [_ ->]).
    by apply Hprev.
Qed.

Lemma bucketKey_tells_instances_apart_witness :
  bucketVec write (updateHistograms (writeResponse 10 0) "plc1|1" initRegistry)
    !! ("plc1", "1") = bucketVec write initRegistry !! ("plc1", "1").
Proof.
  apply (proj1 (proj2 bucketKey_tells_instances_apart)
           (writeResponse 10 0) "plc1|1" initRegistry _ write "plc1" "1"
           (updateHistograms_outcome _ _ _)).
  discriminate.
Defined.

(** X14: the store of previous bucket values.  For the kinds [write] and
    [cycle] a value set is the value read; setting one key of one kind
    changes no other key and nothing of the other kind; for any other kind
    name setting does nothing and reading gives 0; the vectors are not
    touched. *)
Theorem previous_bucket_store (kind key : string) (val : float64) (r : registry) :
  (kind = "write" ∨ kind = "cycle" →
     getPreviousBucketValue kind key (setPreviousBucketValue kind key val r) = val) ∧
  (∀ kind' key',
     (kind', key') ≠ (kind, key) →
     getPreviousBucketValue kind' key' (setPreviousBucketValue kind key val r)
       = getPreviousBucketValue kind' key' r) ∧
  (kind ≠ "write" → kind ≠ "cycle" →
     setPreviousBucketValue kind key val r = r ∧
     getPreviousBucketValue kind key r = 0) ∧
  (∀ k, bucketVec k (setPreviousBucketValue kind key val r) = bucketVec k r).
Proof.
  unfold getPreviousBucketValue, setPreviousBucketValue. split_and!.
  - intros [->| ->]; simpl; by rewrite lookup_total_insert_eq.
  - intros kind' key' Hne.
    destruct (String.eqb_spec kind "write") as [->|Hw];
      [|destruct (String.eqb_spec kind "cycle") as [->|Hc]]; [| |done].
    + destruct (String.eqb_spec kind' "write") as [->|Hw']; simpl.
      * rewrite lookup_total_insert_ne; [done|]. congruence.
      * done.
    + destruct (String.eqb_spec kind' "write") as [->|Hw']; simpl; [done|].
      destruct (String.eqb_spec kind' "cycle") as [->|Hc']; simpl; [|done].
      rewrite lookup_total_insert_ne; [done|]. congruence.
  - intros Hw Hc.
    destruct (String.eqb_spec kind "write") as [->|_]; [done|].
    destruct (String.eqb_spec kind "cycle") as [->|_]; done.
  - intros k. destruct (String.eqb kind "write"); [by destruct k|].
    destruct (String.eqb kind "cycle"); by destruct k.
Qed.

Lemma previous_bucket_store_witness :
  getPreviousBucketValue "cycle" "plc1|5"
    (setPreviousBucketValue "cycle" "plc1|5" 1 initRegistry) = 1 ∧
  setPreviousBucketValue "read" "plc1|5" 1 initRegistry = initRegistry ∧
  getPreviousBucketValue "read" "plc1|5" initRegistry = 0.
Proof.
  split.
  - apply (proj1 (previous_bucket_store "cycle" "plc1|5" 1 initRegistry)). by right.
  - by apply (proj1 (proj2 (proj2 (previous_bucket_store "read" "plc1|5" 1 initRegistry)))).
Defined.

(** X15: the updates of two different instances commute, and so do the
    histogram update and the scalar update of any two instances: the
    registry does not depend on the order in which the goroutines get the
    lock. *)
Theorem updates_commute `{JSONNumber} :
  (∀ data1 data2 inst1 inst2 r,
     inst1 ≠ inst2 →
     updateCRBMetrics data1 inst1 (updateCRBMetrics data2 inst2 r)
       = updateCRBMetrics data2 inst2 (updateCRBMetrics data1 inst1 r)) ∧
  (∀ wk1 ck1 wk2 ck2 hist1 hist2 inst1 inst2 r,
     inst1 ≠ inst2 →
     updateHistogramsWith wk1 ck1 hist1 inst1
         (updateHistogramsWith wk2 ck2 hist2 inst2 r)
       = updateHistogramsWith wk2 ck2 hist2 inst2
           (updateHistogramsWith wk1 ck1 hist1 inst1 r)) ∧
  (∀ data inst wk ck hist inst' r,
     updateCRBMetrics data inst (updateHistogramsWith wk ck hist inst' r)
       = updateHistogramsWith wk ck hist inst' (updateCRBMetrics data inst r)).
Proof.
  split_and!.
  - intros. by apply updateCRBMetrics_commute.
  - intros. by apply updateHistogramsWith_commute.
  - intros. apply updateCRBMetrics_updateHistogramsWith.
Qed.

Lemma updates_commute_witness :
  @updateCRBMetrics plainDecimal (statsDoc 5) "plc1"
     (@updateCRBMetrics plainDecimal (statsDoc 3) "plc2" initRegistry)
  = @updateCRBMetrics plainDecimal (statsDoc 3) "plc2"
      (@updateCRBMetrics plainDecimal (statsDoc 5) "plc1" initRegistry).
Proof. apply (proj1 (@updates_commute plainDecimal)). discriminate. Defined.

(** X16: the login body puts the credentials between quotes as they are.
    A user name without a double quote can be read back from the body, and
    the password with it; with a double quote in the user name two
    different pairs of credentials give the same body. *)
Theorem loginData_credentials :
  (∀ u p u' p',
     occurs "034" u = false → occurs "034" u' = false →
     loginData u p = loginData u' p' → u = u' ∧ p = p') ∧
  (∀ a b c,
     let u := a +:+ quote +:+ "," +:+ quote +:+ "password" +:+ quote +:+ ":"
                +:+ quote +:+ b in
     let p := b +:+ quote +:+ "," +:+ quote +:+ "password" +:+ quote +:+ ":"
                +:+ quote +:+ c in
     u ≠ a ∧ loginData u c = loginData a p).
Proof.
  split.
  - intros u p u' p' Hu Hu'. unfold loginData, quote.
    rewrite !append_cons, !append_nil. intros Heq.
    repeat (injection Heq as Heq).
    apply append_inj_sep in Heq as [-> Heq]; [|done..]. split; [done|].
    repeat (injection Heq as Heq).
    change (String "034" (String "}" "")) with (quote +:+ "}") in Heq.
    by apply append_inj_r in Heq.
  - intros a b c u p. subst u p. split.
    + intros Heq. apply (f_equal String.length) in Heq.
      rewrite !length_append in Heq. simpl in Heq. lia.
    + unfold loginData, quote.
      repeat (progress rewrite ?append_cons, ?append_nil, ?append_assoc). done.
Qed.

Lemma loginData_credentials_witness :
  ("admin" = "admin" ∧ "secret" = "secret") ∧
  let u := "admin" +:+ quote +:+ "," +:+ quote +:+ "password" +:+ quote +:+ ":"
             +:+ quote +:+ "x" in
  let p := "x" +:+ quote +:+ "," +:+ quote +:+ "password" +:+ quote +:+ ":"
             +:+ quote +:+ "secret" in
  u ≠ "admin" ∧ loginData u "secret" = loginData "admin" p.
Proof.
  split.
  - apply (proj1 loginData_credentials "admin" "secret" "admin" "secret");
      reflexivity.
  - apply (proj2 loginData_credentials "admin" "x" "secret").
Defined.

(** X17: what a cycle leaves behind.  A failed login or request ends the
    cycle, and the session is cleared; the registry then holds what was
    processed before: nothing after a failed login or histogram request,
    the histogram update after a failed scalar request.  Where the login
    and both requests succeed the registry holds both updates and the
    session is the logged-in one.  So the next cycle goes without a login
    only after a cycle without a failure that holds a token that is not
    empty. *)
Theorem cycle_outcomes `{JSONNumber} (inst : string) (io : replies)
    (s : session) (r : registry) :
  (needsLogin s = true → loginReply io = None →
     cycleBody inst io s r = (noSession, r)) ∧
  (loginSucceeds io s → histogramReply io = RequestFailed →
     cycleBody inst io s r = (noSession, r)) ∧
  (loginSucceeds io s → histogramReply io ≠ RequestFailed →
   statsReply io = RequestFailed →
     cycleBody inst io s r = (noSession, histogramsOnly inst io r)) ∧
  (loginSucceeds io s → histogramReply io ≠ RequestFailed →
   statsReply io ≠ RequestFailed →
     cycleBody inst io s r
       = (loggedIn io s, scalarsOnly inst io (histogramsOnly inst io r))) ∧
  (needsLogin (cycleBody inst io s r).1 = false →
     loginSucceeds io s ∧ histogramReply io ≠ RequestFailed ∧
     statsReply io ≠ RequestFailed ∧ token (loggedIn io s) ≠ "").
Proof.
  assert (loginSucceeds io s → histogramReply io ≠ RequestFailed →
          statsReply io ≠ RequestFailed →
          cycleBody inst io s r
            = (loggedIn io s, scalarsOnly inst io (histogramsOnly inst io r)))
    as Hok.
  { intros Hl Hh Hs. rewrite cycleBody_reaches_stats by done.
    unfold scalarsOnly. by destruct (statsReply io). }
  split_and!; [| | |done|].
  - intros Hn Hl. unfold cycleBody. by rewrite Hn, Hl.
  - intros Hl Hh. unfold cycleBody, loginSucceeds in *. rewrite Hh.
    destruct (needsLogin s); [|done]. by destruct (Hl eq_refl) as [t ->].
  - intros Hl Hh Hs. rewrite cycleBody_reaches_stats by done. by rewrite Hs.
  - intros Hn.
    assert (loginSucceeds io s) as Hl.
    { intros Hneed. destruct (loginReply io) as [t|] eqn:Hr; [by eexists|].
      unfold cycleBody in Hn. by rewrite Hneed, Hr in Hn. }
    assert (histogramReply io ≠ RequestFailed) as Hh.
    { intros Hh. unfold cycleBody, loginSucceeds in *. rewrite Hh in Hn.
      destruct (needsLogin s); [|done]. by destruct (Hl eq_refl) as [t Ht]; rewrite Ht in Hn. }
    assert (statsReply io ≠ RequestFailed) as Hs.
    { intros Hs. rewrite cycleBody_reaches_stats in Hn by done. by rewrite Hs in Hn. }
    split_and!; [done..|].
    rewrite Hok in Hn by done. cbn [fst] in Hn. unfold needsLogin in Hn.
    apply orb_false_iff in Hn as [_ Hn]. by apply String.eqb_neq in Hn.
Qed.

Lemma cycle_outcomes_witness :
  @cycleBody plainDecimal "plc1" failedStatsReplies noSession initRegistry
    = (noSession, histogramsOnly "plc1" failedStatsReplies initRegistry).
Proof.
  apply (proj1 (proj2 (proj2 (@cycle_outcomes plainDecimal "plc1" failedStatsReplies
                                noSession initRegistry)))).
  - intros _. by eexists.
  - discriminate.
  - reflexivity.
Defined.



(** X19: when the instance names are pairwise different, two steps of
    different collectors can be taken in either order and lead to the same
    state. *)
Theorem collectors_independent `{JSONNumber} (vplcList : list string)
    (s s1 s2 : system) (i j : nat) (e1 e2 : event) :
  NoDup vplcList → reachable vplcList s → i ≠ j →
  step s (i, e1) s1 → step s1 (j, e2) s2 →
  ∃ s1', step s (j, e2) s1' ∧ step s1' (i, e1) s2.
Proof.
  intros Hnd Hreach Hij. apply steps_commute; [done|].
  intros ci cj Hi Hj Heq.
  pose proof (reachable_names vplcList s Hreach) as Hnames.
  apply Hij. apply (NoDup_lookup vplcList i j (vplc_instance ci)); [done|..].
  - by rewrite <-Hnames, list_lookup_fmap, Hi.
  - by rewrite <-Hnames, list_lookup_fmap, Hj, Heq.
Qed.

Lemma collectors_independent_witness :
  ∃ s1', @step plainDecimal twoIdle (1%nat, Tick) s1' ∧
         @step plainDecimal s1' (0%nat, Tick)
           {| collectors := [tick (idle "plc1"); tick (idle "plc2")];
              reg := initRegistry |}.
Proof.
  apply (@collectors_independent plainDecimal ["plc1"; "plc2"] twoIdle
           {| collectors := [tick (idle "plc1"); idle "plc2"]; reg := initRegistry |}
           {| collectors := [tick (idle "plc1"); tick (idle "plc2")];
              reg := initRegistry |} 0 1 Tick Tick).
  - by apply (bool_decide_unpack _).
  - apply reachable_init.
  - done.
  - by apply (@step_fire plainDecimal twoIdle 0 Tick (idle "plc1")
                (tick (idle "plc1")) initRegistry).
  - by apply (@step_fire plainDecimal
                {| collectors := [tick (idle "plc1"); idle "plc2"];
                   reg := initRegistry |}
                1 Tick (idle "plc2") (tick (idle "plc2")) initRegistry).
Defined.

(** X20: no step of the system removes a series: what a scrape has shown
    once for a counter, a gauge or a bucket it shows in every later
    state. *)
Theorem series_never_removed `{JSONNumber} (s s' : system) (lvs : string * string) :
  run s s' →
  (is_Some (crbMetrics (reg s) !! lvs) → is_Some (crbMetrics (reg s') !! lvs)) ∧
  (is_Some (crbGauges (reg s) !! lvs) → is_Some (crbGauges (reg s') !! lvs)) ∧
  (∀ kind, is_Some (bucketVec kind (reg s) !! lvs) →
           is_Some (bucketVec kind (reg s') !! lvs)).
Proof. apply run_keeps. Qed.

Lemma series_never_removed_witness :
  is_Some (bucketVec write
             (reg {| collectors := [tick (idle "plc1")];
                     reg := reg afterFirstResponse |})
             !! ("plc1", leOf "0-1ms")).
Proof.
  apply (proj2 (proj2 (@series_never_removed plainDecimal afterFirstResponse
                         {| collectors := [tick (idle "plc1")];
                            reg := reg afterFirstResponse |}
                         ("plc1", leOf "0-1ms")
                         (run_step _ (0%nat, Tick) _ _ (run_refl _)
                            (@step_fire plainDecimal afterFirstResponse 0 Tick
                               (idle "plc1") (tick (idle "plc1"))
                               (reg afterFirstResponse) eq_refl I eq_refl))))
           write).
  by eexists.
Defined.

(** X21: in every reachable state a collector that is not authenticated
    holds no token, so the test before the login comes to this alone:
    the collector logs in exactly when its token is empty. *)
Theorem login_when_token_empty `{JSONNumber} (vplcList : list string) (s : system)
    (i : nat) (c : collector) :
  reachable vplcList s → collectors s !! i = Some c →
  (authenticated (sess c) = false → token (sess c) = "") ∧
  needsLogin (sess c) = String.eqb (token (sess c)) "".
Proof.
  intros Hreach Hi.
  assert (authenticated (sess c) = false → token (sess c) = "") as Hs
    by exact (Forall_lookup_1
                (λ c, authenticated (sess c) = false → token (sess c) = "") _ _ _
                (reachable_session vplcList s Hreach) Hi).
  split; [done|]. unfold needsLogin.
  destruct (authenticated (sess c)); [done|]. by rewrite Hs.
Qed.

Lemma login_when_token_empty_witness :
  (authenticated (sess (tick (idle "plc1"))) = false →
     token (sess (tick (idle "plc1"))) = "") ∧
  needsLogin (sess (tick (idle "plc1")))
    = String.eqb (token (sess (tick (idle "plc1")))) "".
Proof.
  apply (@login_when_token_empty plainDecimal ["plc1"] tickedSystem 0
           (tick (idle "plc1")) tickedSystem_reachable eq_refl).
Defined.
